(** * TensegritySim: a shallow embedding of the data model and the solver

    The development follows the Python sources
    [TensegritySim/data_structures.py] and [TensegritySim/tensegrity_solver.py],
    and the wrap of the plane on the surface of [TensegritySim/visualization.py].

    - Python floats are idealised as real numbers ([R]). The guard of
      [_length_derivative] tests a computed norm against 0, so that function
      is also given with the norm as a parameter ([Computed]).
    - Python objects that are shared and mutated ([Node], [Connection]) live
      in an object store addressed by references; a [Connection] holds
      references to its nodes, a [Tensegrity] holds references to its nodes,
      connections and controls.
    - Python exceptions are results of an error monad; code that mutates
      objects runs in a state-and-error monad whose state survives a raise.
    - [scipy.optimize.root] and [numpy.random.normal] are outside the
      repository; they are parameters of [solve]. *)

From Stdlib Require Import Reals Lra Lia.
From Stdlib Require PrimFloat.
From stdpp Require Import gmap strings list fin_maps functions sorting.

(** Comparisons of reals are decided classically, as in the Reals library. *)
#[global] Instance R_eq_dec : EqDecision R := Req_dec_T.
#[global] Instance Rlt_decision (a b : R) : Decision (a < b)%R := Rlt_dec a b.

(** ** Exceptions, results, and the two monads *)

Inductive exn := ValueError | KeyError | IndexError | AttributeError | FloatingPointError.

Inductive result (A : Type) := Ok (a : A) | Raise (e : exn).
Arguments Ok {A} a.
Arguments Raise {A} e.

#[global] Instance result_ret : MRet result := fun A a => Ok a.
#[global] Instance result_bind : MBind result := fun A B f m =>
  match m with Ok a => f a | Raise e => Raise e end.

(** State and error: the state reached when an exception is raised is kept. *)
Definition M (S A : Type) : Type := S -> result A * S.

#[global] Instance M_ret S : MRet (M S) := fun A a s => (Ok a, s).
#[global] Instance M_bind S : MBind (M S) := fun A B f m s =>
  match m s with
  | (Ok a, s') => f a s'
  | (Raise e, s') => (Raise e, s')
  end.

Definition get {S} : M S S := fun s => (Ok s, s).
Definition modify {S} (f : S -> S) : M S unit := fun s => (Ok tt, f s).
Definition raise {S A} (e : exn) : M S A := fun s => (Raise e, s).
Definition lift {S A} (r : result A) : M S A := fun s => (r, s).

(** [for x in xs: acc = body x acc], stopping at the first exception. *)
Fixpoint for_ {X A} (xs : list X) (body : X -> A -> result A) (acc : A) : result A :=
  match xs with
  | [] => Ok acc
  | x :: xs' => acc' ← body x acc; for_ xs' body acc'
  end.

(** The same loop for code that mutates the store. *)
Fixpoint for_M {S X} (xs : list X) (body : X -> M S unit) : M S unit :=
  match xs with
  | [] => mret tt
  | x :: xs' => _ ← body x; for_M xs' body
  end.

(** [enumerate(xs, start)] *)
Fixpoint enumerate_from {X} (start : nat) (xs : list X) : list (nat * X) :=
  match xs with
  | [] => []
  | x :: xs' => (start, x) :: enumerate_from (S start) xs'
  end.

(** [enumerate(xs)] *)
Definition enumerate {X} (xs : list X) : list (nat * X) := enumerate_from 0 xs.

(** [xs[i]] on a Python list or a numpy array *)
Definition getitem {X} (xs : list X) (i : nat) : result X :=
  match xs !! i with Some x => Ok x | None => Raise IndexError end.

(** [d[k]] on a Python dict used as a map *)
Definition getkey {V} (d : gmap string V) (k : string) : result V :=
  match d !! k with Some v => Ok v | None => Raise KeyError end.

(** [max(0, x)]: Python keeps the first argument unless a later one is greater. *)
Definition py_max0 (x : R) : R := if decide (0 < x)%R then x else 0%R.

(** An insertion-ordered Python dict with integer keys: assigning to a key
    that is present keeps its place, a new key goes to the end. *)
Fixpoint dict_set {V} (d : list (nat * V)) (k : nat) (v : V) : list (nat * V) :=
  match d with
  | [] => [(k, v)]
  | (k', v') :: d' => if bool_decide (k' = k) then (k, v) :: d' else (k', v') :: dict_set d' k v
  end.

(** ** The part of numpy the code uses *)

Module np.

Definition zeros (n : nat) : list R := replicate n 0%R.

Fixpoint drop_listed {A} (k : nat) (arr : list A) (obj : list nat) : list A :=
  match arr with
  | [] => []
  | a :: arr' =>
      if bool_decide (k ∈ obj) then drop_listed (S k) arr' obj
      else a :: drop_listed (S k) arr' obj
  end.

(** [np.delete(arr, obj)]: the listed positions are removed (duplicates
    count once); a position past the end raises. *)
Definition delete {A} (arr : list A) (obj : list nat) : result (list A) :=
  if forallb (fun i => bool_decide (i < length arr)) obj
  then Ok (drop_listed 0 arr obj)
  else Raise IndexError.

(** [np.insert(arr, obj, value)] with a scalar position *)
Definition insert {A} (arr : list A) (obj : nat) (value : A) : result (list A) :=
  if bool_decide (obj <= length arr)
  then Ok (take obj arr ++ value :: drop obj arr)
  else Raise IndexError.

Fixpoint rows_of {A} (n d : nat) (l : list A) : list (list A) :=
  match n with
  | 0 => []
  | S n' => take d l :: rows_of n' d (drop d l)
  end.

(** [arr.reshape(-1, d)] *)
Definition reshape {A} (arr : list A) (d : nat) : result (list (list A)) :=
  if bool_decide (d <> 0 /\ length arr `mod` d = 0)
  then Ok (rows_of (length arr `div` d) d arr)
  else Raise ValueError.

(** [np.array(rows)] of a list of rows: ragged rows are refused. *)
Definition array {A} (rows : list (list A)) : result (list (list A)) :=
  match rows with
  | [] => Ok []
  | r :: _ =>
      if forallb (fun r' => bool_decide (length r' = length r)) rows
      then Ok rows else Raise ValueError
  end.

Definition flatten {A} (rows : list (list A)) : list A := concat rows.

Definition append {A} (a b : list A) : list A := a ++ b.

(** Element-wise operations on one-dimensional arrays of equal shape. *)
Definition add (u v : list R) : result (list R) :=
  if bool_decide (length u = length v) then Ok (zip_with Rplus u v) else Raise ValueError.

Definition sub (u v : list R) : result (list R) :=
  if bool_decide (length u = length v) then Ok (zip_with Rminus u v) else Raise ValueError.

Definition scale (c : R) (v : list R) : list R := Rmult c <$> v.

(** Division of an array by a scalar. numpy yields nan or inf (with a
    RuntimeWarning) for a zero divisor; the model flags that event. *)
Definition div (v : list R) (c : R) : result (list R) :=
  if decide (c = 0%R) then Raise FloatingPointError else Ok ((fun a => a / c)%R <$> v).

(** [np.linalg.norm] of a one-dimensional array *)
Definition norm (v : list R) : R := sqrt (foldr Rplus 0%R ((fun a => a * a)%R <$> v)).

(** [arr[start:start+len] = v] *)
Definition slice_set (arr : list R) (start len : nat) (v : list R) : result (list R) :=
  if bool_decide (length (take len (drop start arr)) = length v)
  then Ok (take start arr ++ v ++ drop (start + len) arr)
  else Raise ValueError.

(** [arr[start:start+len] += v] *)
Definition slice_iadd (arr : list R) (start len : nat) (v : list R) : result (list R) :=
  new ← add (take len (drop start arr)) v;
  Ok (take start arr ++ new ++ drop (start + len) arr).

(** [arr[i] += a] *)
Definition item_iadd (arr : list R) (i : nat) (a : R) : result (list R) :=
  cur ← getitem arr i;
  Ok (<[i := (cur + a)%R]> arr).

End np.

(** ** data_structures.py *)

(** References to objects. *)
Abbreviation ref := nat (only parsing).

Module Node.

Record t := mk { name : string; position : list R }.

Abbreviation store := (ref -> t) (only parsing).

Definition set_position (self : t) (p : list R) : t :=
  {| name := name self; position := p |}.

(** [Node(name, position)]: the object that the constructor makes. *)
Definition __init__ (name : string) (position : list R) : result t :=
  if bool_decide (length position <> 2 /\ length position <> 3) then Raise ValueError
  else Ok (mk name position).

Definition copy (self : t) : result t := __init__ (name self) (position self).

End Node.

(** A linked pair is a two-element Python set of node names; [(a, b)] lists
    its elements in the order in which the set yields them. *)
Definition linked_pair := (string * string)%type.

(** [{n1, n2} == {a, b}] as sets *)
Definition same_set (n1 n2 : string) (p : linked_pair) : bool :=
  bool_decide ((n1 = p.1 \/ n1 = p.2) /\ (n2 = p.1 \/ n2 = p.2) /\
               (p.1 = n1 \/ p.1 = n2) /\ (p.2 = n1 \/ p.2 = n2)).

(** [{n1, n2} in linked_nodes] *)
Definition in_linked (n1 n2 : string) (linked_nodes : list linked_pair) : bool :=
  existsb (same_set n1 n2) linked_nodes.

Module Connection.

Inductive ConnectionType := STRING | BAR.

Record t := mk {
  nodes : list ref;
  nodes_original : list Node.t;
  connection_type : ConnectionType;
  stiffness : R;
  initial_length : R;
  force : option R;
  name : option string
}.

Abbreviation store := (ref -> t) (only parsing).

Definition set_initial_length (self : t) (l : R) : t :=
  {| nodes := nodes self; nodes_original := nodes_original self;
     connection_type := connection_type self; stiffness := stiffness self;
     initial_length := l; force := force self; name := name self |}.

Definition set_force (self : t) (f : option R) : t :=
  {| nodes := nodes self; nodes_original := nodes_original self;
     connection_type := connection_type self; stiffness := stiffness self;
     initial_length := initial_length self; force := f; name := name self |}.

Definition current_length (node_at : Node.store) (self : t)
    (linked_nodes : option (list linked_pair)) : result R :=
  let linked_nodes := default [] linked_nodes in
  for_ (seq 0 (length (nodes self) - 1)) (fun i length =>
    r1 ← getitem (nodes self) i;
    r2 ← getitem (nodes self) (i + 1);
    let node1 := node_at r1 in
    let node2 := node_at r2 in
    if in_linked (Node.name node1) (Node.name node2) linked_nodes then Ok length
    else
      d ← np.sub (Node.position node1) (Node.position node2);
      Ok (length + np.norm d)%R) 0%R.

Definition update_force (self : t) (current_length : R) : t :=
  let force := (stiffness self * (current_length - initial_length self))%R in
  let force :=
    match connection_type self with
    | STRING => py_max0 force
    | BAR => force
    end in
  set_force self (Some force).

(** [Connection(nodes, connection_type, stiffness, initial_length, name)]:
    the object that the constructor makes. The type of [connection_type]
    leaves no room for the ValueError of the isinstance test. *)
Definition __init__ (node_at : Node.store) (nodes : list ref)
    (connection_type : ConnectionType) (stiffness : R) (initial_length : option R)
    (name : option string) : result t :=
  nodes_original ←
    for_ nodes (fun node copies => c ← Node.copy (node_at node); Ok (copies ++ [c])) [];
  let self l := mk nodes nodes_original connection_type stiffness l None name in
  initial_length ←
    match initial_length with
    | None => current_length node_at (self 0%R) None
    | Some l => Ok l
    end;
  Ok (self initial_length).

End Connection.

Module Surface.

Record t := mk {
  surface_type : string;            (* shape["surface_type"] *)
  properties : gmap string R;       (* shape["properties"] *)
  linked_nodes : list linked_pair
}.

End Surface.

(** The object store. *)
Record World := mkWorld { node_at : Node.store; conn_at : Connection.store }.

Definition set_node (r : ref) (n : Node.t) (w : World) : World :=
  {| node_at := <[r := n]> (node_at w); conn_at := conn_at w |}.

Definition set_conn (r : ref) (c : Connection.t) (w : World) : World :=
  {| node_at := node_at w; conn_at := <[r := c]> (conn_at w) |}.

Module Tensegrity.

Inductive Dim := Dim2 | Dim2_5 | Dim3.

Record t := mk {
  nodes : list ref;
  connections : list ref;
  pins : list (string * list bool);   (* a dict, in insertion order *)
  controls : list ref;
  surface : option Surface.t;
  control_starting_lengths : list R;
  dim : Dim
}.

Definition update_forces (self : t) : M World unit :=
  for_M (connections self) (fun connection =>
    w ← get;
    current_length ← lift (Connection.current_length (node_at w) (conn_at w connection)
                             (match surface self with
                              | Some s => Some (Surface.linked_nodes s)
                              | None => None
                              end));
    modify (set_conn connection (Connection.update_force (conn_at w connection) current_length))).

Definition __init__ (nodes connections : list ref) (pins : option (list (string * list bool)))
    (controls : option (list ref)) (surface : option Surface.t) (dim : option Dim) : M World t :=
  let pins := default [] pins in
  let controls := default [] controls in
  w ← get;
  let control_starting_lengths :=
    (fun control => Connection.initial_length (conn_at w control)) <$> controls in
  let self dim := mk nodes connections pins controls surface control_starting_lengths dim in
  _ ← update_forces (self Dim3);
  w ← get;
  let dim :=
    match dim with
    | Some dim => dim
    | None =>
        if bool_decide (is_Some surface) then Dim2_5
        else if existsb (fun node => bool_decide (length (Node.position (node_at w node)) = 2)) nodes
             then Dim2 else Dim3
    end in
  mret (self dim).

Definition change_control_lengths (self : t) (delta_lengths : list R) : M World unit :=
  if bool_decide (length delta_lengths <> length (controls self)) then raise ValueError
  else
    for_M (enumerate delta_lengths) (fun '(i, delta_length) =>
      control ← lift (getitem (controls self) i);
      modify (fun w =>
        set_conn control
          (Connection.set_initial_length (conn_at w control)
             (Connection.initial_length (conn_at w control) + delta_length)%R) w)).

Definition reset_control_lengths (self : t) : M World unit :=
  for_M (enumerate (controls self)) (fun '(i, control) =>
    l ← lift (getitem (control_starting_lengths self) i);
    modify (fun w => set_conn control (Connection.set_initial_length (conn_at w control) l) w)).

End Tensegrity.

(** ** tensegrity_solver.py *)

(** What [scipy.optimize.root] returns, as far as [solve] reads it. *)
Record OptimizeResult := mkOptimizeResult { success : bool; x : list R }.

Module TensegritySolver.

Record t := mk {
  tensegrity : Tensegrity.t;
  dim : nat;
  node_indices : gmap string nat;
  forces : list R
}.

Definition with_forces (self : t) (f : list R) : t :=
  {| tensegrity := tensegrity self; dim := dim self;
     node_indices := node_indices self; forces := f |}.

Definition __init__ (w : World) (tensegrity : Tensegrity.t) : t :=
  let dim :=
    match Tensegrity.dim tensegrity with
    | Tensegrity.Dim2_5 => 2
    | Tensegrity.Dim2 => 2
    | Tensegrity.Dim3 => 3
    end in
  let node_indices :=
    foldl (fun (m : gmap string nat) '(i, node) => <[Node.name (node_at w node) := i]> m) ∅
          (enumerate (Tensegrity.nodes tensegrity)) in
  mk tensegrity dim node_indices (np.zeros (dim * length (Tensegrity.nodes tensegrity))).

(** The body of the loop of [set_forces], for one item of the dict. *)
Definition set_forces_item (item : string * list R) : M t unit :=
  let '(node, force) := item in
  self ← get;
  if bool_decide (length force <> dim self) then raise ValueError
  else
    index ← lift (getkey (node_indices self) node);
    new ← lift (np.slice_set (forces self) (index * dim self) (dim self) force);
    modify (fun self => with_forces self new).

(** [forces] is a dict: its keys are distinct, its items come in
    insertion order. *)
Definition set_forces (forces : list (string * list R)) : M t unit :=
  _ ← modify (fun self =>
        with_forces self (np.zeros (dim self * length (Tensegrity.nodes (tensegrity self)))));
  for_M forces set_forces_item.

(** *** Internal functions: they read the store and never write it. *)
Section Readers.
Variable self : t.
Variable w : World.

Let nodes := Tensegrity.nodes (tensegrity self).
Let pins := Tensegrity.pins (tensegrity self).
Let surface := Tensegrity.surface (tensegrity self).

(** [_get_nodes_from_input]: the inner loop body for one axis of one pin,
    then the body of the loop over the pins. *)
Definition ins_index_axis (node_index : nat) (bools : list bool) (i : nat)
    (ins_index : list (nat * R)) : result (list (nat * R)) :=
  b ← getitem bools i;
  if b : bool then
    r ← getitem nodes node_index;
    p ← getitem (Node.position (node_at w r)) i;
    Ok (dict_set ins_index (node_index * dim self + i) p)
  else Ok ins_index.

Definition ins_index_pin (pin : string * list bool) (ins_index : list (nat * R))
    : result (list (nat * R)) :=
  node_index ← getkey (node_indices self) pin.1;
  for_ (seq 0 (dim self)) (ins_index_axis node_index pin.2) ins_index.

Definition _get_nodes_from_input (x : list R) : result (list (list R)) :=
  ins_index ← for_ pins ins_index_pin [];
  x ← for_ ins_index (fun item x => np.insert x item.1 item.2) x;
  np.reshape x (dim self).

(** [_create_initial_guess]: the list comprehension of the positions to
    delete, for one axis of one pin and for one pin. *)
Definition delete_axis (node : string) (bools : list bool) (i : nat) (obj : list nat)
    : result (list nat) :=
  b ← getitem bools i;
  if b : bool then
    node_index ← getkey (node_indices self) node;
    Ok (obj ++ [node_index * dim self + i])
  else Ok obj.

Definition delete_pin (pin : string * list bool) (obj : list nat) : result (list nat) :=
  for_ (seq 0 (dim self)) (delete_axis pin.1 pin.2) obj.

Definition _create_initial_guess : result (list R) :=
  rows ← np.array ((fun node => take (dim self) (Node.position (node_at w node))) <$> nodes);
  let x0 := np.flatten rows in
  obj ← for_ pins delete_pin [];
  np.delete x0 obj.

Definition _node_distance (node1 node2 : string) (N : list (list R)) : result R :=
  i1 ← getkey (node_indices self) node1;
  N1 ← getitem N i1;
  i2 ← getkey (node_indices self) node2;
  N2 ← getitem N i2;
  if match surface with
     | Some s => in_linked node1 node2 (Surface.linked_nodes s)
     | None => false
     end
  then Ok 0%R
  else d ← np.sub N1 N2; Ok (np.norm d).

(** [connection.nodes[i].name] *)
Definition node_name (connection : Connection.t) (i : nat) : result string :=
  r ← getitem (Connection.nodes connection) i;
  Ok (Node.name (node_at w r)).

Definition _connection_length (connection : Connection.t) (N : list (list R)) : result R :=
  for_ (seq 0 (length (Connection.nodes connection) - 1)) (fun i length =>
    name1 ← node_name connection i;
    name2 ← node_name connection (i + 1);
    d ← _node_distance name1 name2 N;
    Ok (length + d)%R) 0%R.

(** The body of the loop of [_length_derivative], for segment [i]. *)
Definition length_derivative_segment (connection : Connection.t) (N : list (list R))
    (i : nat) (dl : list R) : result (list R) :=
  name1 ← node_name connection i;
  N1_index ← getkey (node_indices self) name1;
  name2 ← node_name connection (i + 1);
  N2_index ← getkey (node_indices self) name2;
  N1 ← getitem N N1_index;
  N2 ← getitem N N2_index;
  length ← _node_distance name1 name2 N;
  if decide (length = 0%R) then Ok dl
  else
    d12 ← np.sub N1 N2;
    u12 ← np.div d12 length;
    dl ← np.slice_iadd dl (N1_index * dim self) (dim self) u12;
    d21 ← np.sub N2 N1;
    u21 ← np.div d21 length;
    np.slice_iadd dl (N2_index * dim self) (dim self) u21.

Definition _length_derivative (connection : Connection.t) (N : list (list R))
    : result (list R) :=
  let dl := np.zeros (dim self * length nodes) in
  for_ (seq 0 (length (Connection.nodes connection) - 1))
       (length_derivative_segment connection N) dl.

Definition _spring_connection_energy (connection : Connection.t) (N : list (list R))
    : result R :=
  length ← _connection_length connection N;
  if match Connection.connection_type connection with
     | Connection.STRING => bool_decide (length < Connection.initial_length connection)%R
     | Connection.BAR => false
     end
  then Ok 0%R
  else Ok (0.5 * Connection.stiffness connection
           * (length - Connection.initial_length connection) ^ 2)%R.

Definition _spring_connection_energy_derivative (connection : Connection.t)
    (N : list (list R)) : result (list R) :=
  length ← _connection_length connection N;
  if match Connection.connection_type connection with
     | Connection.STRING => bool_decide (length < Connection.initial_length connection)%R
     | Connection.BAR => false
     end
  then Ok (np.zeros (dim self * List.length nodes))
  else
    let C := (- Connection.stiffness connection
              * (length - Connection.initial_length connection))%R in
    dl ← _length_derivative connection N;
    Ok (np.scale C dl).

(** The body of the loop of [_surface_constraints], for one linked pair. *)
Definition pair_constraints (r : R) (N : list (list R)) (pair : linked_pair)
    (constraints : list R) : result (list R) :=
  let '(node1, node2) := pair in
  i1 ← getkey (node_indices self) node1;
  N1 ← getitem N i1;
  i2 ← getkey (node_indices self) node2;
  N2 ← getitem N i2;
  y1 ← getitem N1 1;
  y2 ← getitem N2 1;
  let constraints := constraints ++ [(y1 - y2)%R] in
  x1 ← getitem N1 0;
  x2 ← getitem N2 0;
  Ok (constraints ++ [(Rabs (x1 - x2) - 2 * PI * r)%R]).

Definition _surface_constraints (x : list R) : result (list R) :=
  N ← _get_nodes_from_input x;
  match surface with
  | None => Raise AttributeError
  | Some s =>
      if bool_decide (Surface.surface_type s = "cylinder")
      then
        r ← getkey (Surface.properties s) "radius";
        for_ (Surface.linked_nodes s) (pair_constraints r N) []
      else Ok []
  end.

(** One axis of one linked pair in [_objective]: [k] is 0 for x, 1 for y. *)
Definition couple_axis (node1 node2 : string) (k : nat)
    (st : list R * gset nat) : result (list R * gset nat) :=
  let '(virtual_work, delete_indices) := st in
  i1 ← getkey (node_indices self) node1;
  if bool_decide (i1 * dim self + k ∈ delete_indices) then
    i2 ← getkey (node_indices self) node2;
    Ok (virtual_work, {[i2 * dim self + k]} ∪ delete_indices)
  else
    i2 ← getkey (node_indices self) node2;
    if bool_decide (i2 * dim self + k ∈ delete_indices) then
      Ok (virtual_work, {[i1 * dim self + k]} ∪ delete_indices)
    else
      v2 ← getitem virtual_work (i2 * dim self + k);
      virtual_work ← np.item_iadd virtual_work (i1 * dim self + k) v2;
      Ok (virtual_work, {[i2 * dim self + k]} ∪ delete_indices).

(** Both axes, x then y, of one linked pair. *)
Definition couple_pair (pair : linked_pair) (st : list R * gset nat)
    : result (list R * gset nat) :=
  st ← couple_axis pair.1 pair.2 0 st;
  couple_axis pair.1 pair.2 1 st.

(** The rows that the pin map removes, as [_objective] collects them:
    the inner loop for one axis of one pin, the outer loop over the pins. *)
Definition pin_axis (node : string) (bools : list bool) (i : nat)
    (delete_indices : gset nat) : result (gset nat) :=
  b ← getitem bools i;
  if b : bool then
    node_index ← getkey (node_indices self) node;
    Ok ({[node_index * dim self + i]} ∪ delete_indices)
  else Ok delete_indices.

Definition pin_rows (pin : string * list bool) (delete_indices : gset nat)
    : result (gset nat) :=
  for_ (seq 0 (dim self)) (pin_axis pin.1 pin.2) delete_indices.

Definition pinned_indices : result (gset nat) := for_ pins pin_rows ∅.

Definition _objective (x : list R) : result (list R) :=
  N ← _get_nodes_from_input x;
  let virtual_work := np.zeros (dim self * length nodes) in
  virtual_work ←
    for_ (Tensegrity.connections (tensegrity self)) (fun connection virtual_work =>
      dV ← _spring_connection_energy_derivative (conn_at w connection) N;
      np.add virtual_work dV) virtual_work;
  virtual_work ← np.add virtual_work (forces self);
  delete_indices ← pinned_indices;
  match surface with
  | Some s =>
      '(virtual_work, delete_indices) ←
        for_ (Surface.linked_nodes s) couple_pair (virtual_work, delete_indices);
      virtual_work ← np.delete virtual_work (elements delete_indices);
      constraints ← _surface_constraints x;
      Ok (np.append virtual_work constraints)
  | None => np.delete virtual_work (elements delete_indices)
  end.

End Readers.

(** *** The derivative of the length, with the norm as numpy computes it

    numpy evaluates [np.linalg.norm] in binary64 arithmetic, and the guard
    [if length == 0] of [_length_derivative] tests the number that this
    evaluation returns. Here [norm] stands for that function; with the exact
    norm [np.norm] these are the definitions above. *)
Module Computed.
Section Norm.
Variable norm : list R -> R.
Variable self : t.
Variable w : World.

Definition _node_distance (node1 node2 : string) (N : list (list R)) : result R :=
  i1 ← getkey (node_indices self) node1;
  N1 ← getitem N i1;
  i2 ← getkey (node_indices self) node2;
  N2 ← getitem N i2;
  if match Tensegrity.surface (tensegrity self) with
     | Some s => in_linked node1 node2 (Surface.linked_nodes s)
     | None => false
     end
  then Ok 0%R
  else d ← np.sub N1 N2; Ok (norm d).

Definition length_derivative_segment (connection : Connection.t) (N : list (list R))
    (i : nat) (dl : list R) : result (list R) :=
  name1 ← node_name w connection i;
  N1_index ← getkey (node_indices self) name1;
  name2 ← node_name w connection (i + 1);
  N2_index ← getkey (node_indices self) name2;
  N1 ← getitem N N1_index;
  N2 ← getitem N N2_index;
  length ← _node_distance name1 name2 N;
  if decide (length = 0%R) then Ok dl
  else
    d12 ← np.sub N1 N2;
    u12 ← np.div d12 length;
    dl ← np.slice_iadd dl (N1_index * dim self) (dim self) u12;
    d21 ← np.sub N2 N1;
    u21 ← np.div d21 length;
    np.slice_iadd dl (N2_index * dim self) (dim self) u21.

Definition _length_derivative (connection : Connection.t) (N : list (list R))
    : result (list R) :=
  let dl := np.zeros (dim self * length (Tensegrity.nodes (tensegrity self))) in
  for_ (seq 0 (length (Connection.nodes connection) - 1))
       (length_derivative_segment connection N) dl.
End Norm.
End Computed.

Section Solve.
(** [scipy.optimize.root(fun, x0, method=method)] *)
Variable root : (list R -> result (list R)) -> list R -> string -> result OptimizeResult.
(** [np.random.normal(0, 0.1, n)]: the sample drawn by this call *)
Variable normal : nat -> list R.

Definition solve (self : t) (method : string) : M World unit :=
  w ← get;
  x0 ← lift (_create_initial_guess self w);
  result ← lift (root (_objective self w) x0 method);
  attempt ←
    (if negb (success result) then
       x0 ← lift (np.add x0 (normal (length x0)));
       result ← lift (root (_objective self w) x0 method);
       if negb (success result) then mret None else mret (Some result)
     else mret (Some result));
  match attempt with
  | None => mret tt
  | Some result =>
      N ← lift (_get_nodes_from_input self w (x result));
      _ ← for_M (enumerate (Tensegrity.nodes (tensegrity self))) (fun '(i, node) =>
            p ← lift (getitem N i);
            modify (fun w => set_node node (Node.set_position (node_at w node) p) w));
      Tensegrity.update_forces (tensegrity self)
  end.
End Solve.

End TensegritySolver.

(** ** visualization.py: the wrap of the plane on the surface *)

Module Visualization.

(** [transform(x, y, z)] of [_plot_2_5d]; the quotient [x / r] is flagged
    when [r] is 0, as in [np.div]. *)
Definition transform (surface : option Surface.t) (x y z : R) : result (list R) :=
  match surface with
  | Some s =>
      if bool_decide (Surface.surface_type s = "cylinder") then
        r ← getkey (Surface.properties s) "radius";
        if decide (r = 0%R) then Raise FloatingPointError
        else Ok [r * cos (x / r); r * sin (x / r); y]%R
      else Ok [x; y; z]
  | None => Ok [x; y; z]
  end.

End Visualization.

(** ** A session: calls made by a driver between construction and reset *)

Section Session.
Variable root : (list R -> result (list R)) -> list R -> string -> result OptimizeResult.
Variable tensegrity : Tensegrity.t.

Inductive call :=
| Change (delta_lengths : list R)
| Solve (solver : TensegritySolver.t) (method : string) (normal : nat -> list R).

(** The store after one call; a caller that catches the exception of a
    failed call goes on from the store the call left. *)
Definition run_call (w : World) (c : call) : World :=
  match c with
  | Change delta_lengths => (Tensegrity.change_control_lengths tensegrity delta_lengths w).2
  | Solve solver method normal => (TensegritySolver.solve root normal solver method w).2
  end.

Definition run_calls (w : World) (calls : list call) : World := foldl run_call w calls.
End Session.

(** ** Concrete structures *)

Module Example.

Definition no_connection : Connection.t :=
  Connection.mk [] [] Connection.BAR 0 0 None None.

(** Three nodes in the plane; the pins name C before A. *)
Module Triangle.
Definition nodes (r : ref) : Node.t :=
  match r with
  | 0 => Node.mk "A" [1; 2]%R
  | 1 => Node.mk "B" [3; 4]%R
  | _ => Node.mk "C" [5; 6]%R
  end.
Definition world : World := mkWorld nodes (fun _ => no_connection).
Definition pins : list (string * list bool) :=
  [("C", [true; false]); ("A", [true; false])].
Definition tensegrity : Tensegrity.t :=
  Tensegrity.mk [0; 1; 2] [] pins [] None [] Tensegrity.Dim2.
Definition solver : TensegritySolver.t := TensegritySolver.__init__ world tensegrity.
End Triangle.

(** The unit square with diagonal bars of tests/test_optimization.py;
    the chain A-B-C is taken as the one control. *)
Module Square.
Definition nodes (r : ref) : Node.t :=
  match r with
  | 0 => Node.mk "A" [0; 0; 0]%R
  | 1 => Node.mk "B" [1; 0; 0]%R
  | 2 => Node.mk "C" [1; 1; 0]%R
  | _ => Node.mk "D" [0; 1; 0]%R
  end.
Definition connections (r : ref) : Connection.t :=
  match r with
  | 0 => Connection.mk [0; 1; 2] [] Connection.STRING 1 2 None None
  | 1 => Connection.mk [2; 3] [] Connection.STRING 1 1 None None
  | 2 => Connection.mk [3; 0] [] Connection.STRING 1 1 None None
  | 3 => Connection.mk [0; 2] [] Connection.BAR 100 (sqrt 2) None None
  | _ => Connection.mk [1; 3] [] Connection.BAR 100 (sqrt 2) None None
  end.
Definition world : World := mkWorld nodes connections.
Definition tensegrity : Tensegrity.t :=
  Tensegrity.mk [0; 1; 2; 3] [0; 1; 2; 3; 4] [] [0] None [2%R] Tensegrity.Dim3.
Definition solver : TensegritySolver.t := TensegritySolver.__init__ world tensegrity.
(** The rows of the position array of the nodes. *)
Definition N : list (list R) := [[0; 0; 0]; [1; 0; 0]; [1; 1; 0]; [0; 1; 0]]%R.
(** A root finder that always reports failure, and one that always
    reports success at its starting point. *)
Definition root_fails (f : list R -> result (list R)) (x0 : list R) (method : string)
    : result OptimizeResult := Ok (mkOptimizeResult false x0).
Definition root_stays (f : list R -> result (list R)) (x0 : list R) (method : string)
    : result OptimizeResult := Ok (mkOptimizeResult true x0).
Definition no_noise (n : nat) : list R := np.zeros n.
End Square.

(** A sheet wrapped on a cylinder of radius 1: A and B are the two sides
    of the seam and are both pinned in y; C is free. *)
Module Seam.
Definition nodes (r : ref) : Node.t :=
  match r with
  | 0 => Node.mk "A" [0; 0]%R
  | 1 => Node.mk "B" [1; 0]%R
  | _ => Node.mk "C" [2; 1]%R
  end.
Definition world : World := mkWorld nodes (fun _ => no_connection).
Definition cylinder : Surface.t :=
  Surface.mk "cylinder" {["radius" := 1%R]} [("A", "B")].
Definition pins : list (string * list bool) :=
  [("A", [false; true]); ("B", [false; true])].
Definition tensegrity : Tensegrity.t :=
  Tensegrity.mk [0; 1; 2] [] pins [] (Some cylinder) [] Tensegrity.Dim2_5.
Definition solver : TensegritySolver.t := TensegritySolver.__init__ world tensegrity.
(** The reduced unknown vector: x of A, x of B, x and y of C. *)
Definition x0 : list R := [0; 1; 2; 1]%R.
End Seam.

(** A truss in the plane: A is pinned in x and y, B rolls along the
    x axis, C is free; two bars and a string, each at its rest length. *)
Module Truss.
Definition nodes (r : ref) : Node.t :=
  match r with
  | 0 => Node.mk "A" [0; 0]%R
  | 1 => Node.mk "B" [1; 0]%R
  | _ => Node.mk "C" [1; 1]%R
  end.
Definition connections (r : ref) : Connection.t :=
  match r with
  | 0 => Connection.mk [0; 1] [] Connection.BAR 100 1 None None
  | 1 => Connection.mk [1; 2] [] Connection.STRING 1 1 None None
  | _ => Connection.mk [0; 2] [] Connection.BAR 100 (sqrt 2) None None
  end.
Definition world : World := mkWorld nodes connections.
Definition pins : list (string * list bool) :=
  [("A", [true; true]); ("B", [false; true])].
Definition tensegrity : Tensegrity.t :=
  Tensegrity.mk [0; 1; 2] [0; 1; 2] pins [] None [] Tensegrity.Dim2.
Definition solver : TensegritySolver.t := TensegritySolver.__init__ world tensegrity.
(** The reduced unknown vector: x of B, x and y of C. *)
Definition x0 : list R := [1; 1; 1]%R.
End Truss.

End Example.

(** * Definitions that follow the words of the specification

    They are compared below with the definitions taken from the code. *)

Module Spec.

(** Euclidean distance between two points. *)
Definition euclidean_distance (p q : list R) : R :=
  sqrt (foldr Rplus 0%R ((fun a => a * a)%R <$> zip_with Rminus p q)).

(** Length of a chain: the sum over its consecutive segments, where a
    segment whose end points are a registered linked pair counts for 0. *)
Fixpoint chain_length (node_at : ref -> Node.t) (linked : list linked_pair)
    (chain : list ref) : R :=
  match chain with
  | r1 :: (r2 :: _) as rest =>
      ((if in_linked (Node.name (node_at r1)) (Node.name (node_at r2)) linked
        then 0 else euclidean_distance (Node.position (node_at r1)) (Node.position (node_at r2)))
       + chain_length node_at linked rest)%R
  | _ => 0%R
  end.

(** The sum of the Euclidean distances between consecutive nodes. *)
Fixpoint sum_of_distances (node_at : ref -> Node.t) (chain : list ref) : R :=
  match chain with
  | r1 :: (r2 :: _) as rest =>
      (euclidean_distance (Node.position (node_at r1)) (Node.position (node_at r2))
       + sum_of_distances node_at rest)%R
  | _ => 0%R
  end.


(** A node of a chain as the solver sees it: its name, its index and its
    row of the position array. *)
Definition endpoint := (string * nat * list R)%type.

(** The vector of [d * n] coordinates with [u] at the slots of node [idx]. *)
Definition at_node (d n idx : nat) (u : list R) : list R :=
  np.zeros (idx * d) ++ u ++ np.zeros (d * n - (idx * d + d)).

(** [(p - q) / len] *)
Definition unit_vector (p q : list R) (len : R) : list R :=
  (fun a => a / len)%R <$> zip_with Rminus p q.

(** The length of a segment for the solver: 0 across a linked pair. *)
Definition segment_length (linked : list linked_pair) (e1 e2 : endpoint) : R :=
  if in_linked e1.1.1 e2.1.1 linked then 0%R else euclidean_distance e1.2 e2.2.

(** What a segment adds to the derivative of the length: nothing when its
    length is 0, else the unit vector from the other end point at the
    slots of each of its two end points. *)
Definition segment_derivative (d n : nat) (linked : list linked_pair)
    (e1 e2 : endpoint) : list R :=
  let len := segment_length linked e1 e2 in
  if decide (len = 0%R) then np.zeros (d * n)
  else zip_with Rplus (at_node d n e1.1.2 (unit_vector e1.2 e2.2 len))
                      (at_node d n e2.1.2 (unit_vector e2.2 e1.2 len)).

Fixpoint length_derivative (d n : nat) (linked : list linked_pair)
    (chain : list endpoint) : list R :=
  match chain with
  | e1 :: (e2 :: _) as rest =>
      zip_with Rplus (segment_derivative d n linked e1 e2)
                     (length_derivative d n linked rest)
  | _ => np.zeros (d * n)
  end.

(** What [change_control_lengths] adds to the rest length of the
    connection [r]: the deltas of the controls that are [r]. *)
Fixpoint total_delta (controls : list ref) (deltas : list R) (r : ref) : R :=
  match controls, deltas with
  | c :: controls', d :: deltas' =>
      ((if bool_decide (c = r) then d else 0) + total_delta controls' deltas' r)%R
  | _, _ => 0%R
  end.

End Spec.

(** ** The contributions of the segments with the norm that numpy computes

    The length of a segment as [_node_distance] computes it with the
    function [norm], what the segment adds to the derivative, and the sum
    over the chain. *)

Definition computed_segment_length (norm : list R -> R) (linked : list linked_pair)
    (e1 e2 : Spec.endpoint) : R :=
  if in_linked e1.1.1 e2.1.1 linked then 0%R else norm (zip_with Rminus e1.2 e2.2).

Definition computed_segment_derivative (norm : list R -> R) (d n : nat)
    (linked : list linked_pair) (e1 e2 : Spec.endpoint) : list R :=
  let len := computed_segment_length norm linked e1 e2 in
  if decide (len = 0%R) then np.zeros (d * n)
  else zip_with Rplus (Spec.at_node d n e1.1.2 (Spec.unit_vector e1.2 e2.2 len))
                      (Spec.at_node d n e2.1.2 (Spec.unit_vector e2.2 e1.2 len)).

Fixpoint computed_length_derivative (norm : list R -> R) (d n : nat)
    (linked : list linked_pair) (chain : list Spec.endpoint) : list R :=
  match chain with
  | e1 :: (e2 :: _) as rest =>
      zip_with Rplus (computed_segment_derivative norm d n linked e1 e2)
                     (computed_length_derivative norm d n linked rest)
  | _ => np.zeros (d * n)
  end.

(** Half the least positive number of binary64 arithmetic: a square below
    it is rounded to 0. *)
Definition least_square : R := (/ 2 ^ 1075)%R.

(** The norm as binary64 arithmetic computes it for a vector so short that
    the sum of the squares of its entries is below [least_square]: every
    square is rounded to 0, and the norm is 0. Elsewhere the norm is
    idealised as the exact one. *)
Definition underflowing_norm (v : list R) : R :=
  if decide (foldr Rplus 0 ((fun a => a * a) <$> v) < least_square)%R then 0%R
  else np.norm v.

(** The unit square with D moved next to A: the two nodes are
    2^-665 apart along x, a gap that binary64 represents exactly. *)
Definition close_gap : R := (/ 2 ^ 665)%R.
Definition N_close : list (list R) :=
  [[0; 0; 0]; [1; 0; 0]; [1; 1; 0]; [close_gap; 0; 0]]%R.

(** The norm in the binary64 arithmetic of the kernel, evaluated as numpy
    does: the square root of the dot product of the vector with itself. *)
Module Binary64.
Import PrimFloat.
Definition gap : float := 0x1p-665%float.
Definition norm (v : list float) : float :=
  sqrt (foldl (fun acc a => acc + a * a)%float 0%float v).
End Binary64.

(** ** Well-formed solvers

    [node_indices] as [TensegritySolver.__init__] builds it: every index is
    that of a node, and an index belongs to one name. *)

Definition solver_wf (s : TensegritySolver.t) : Prop :=
  forall name i, TensegritySolver.node_indices s !! name = Some i ->
    i < length (Tensegrity.nodes (TensegritySolver.tensegrity s)).

Definition node_indices_inj (s : TensegritySolver.t) : Prop :=
  forall name1 name2 i,
    TensegritySolver.node_indices s !! name1 = Some i ->
    TensegritySolver.node_indices s !! name2 = Some i -> name1 = name2.

(** The linked pairs the solver consults: those of the surface, if any. *)
Definition solver_linked (s : TensegritySolver.t) : list linked_pair :=
  match Tensegrity.surface (TensegritySolver.tensegrity s) with
  | Some sf => Surface.linked_nodes sf
  | None => []
  end.

(** The node [r] of a chain resolves to the end point [e]: its name is
    indexed, and the position array has a row of [dim] coordinates for it. *)
Definition resolves (s : TensegritySolver.t) (w : World) (N : list (list R))
    (r : ref) (e : Spec.endpoint) : Prop :=
  Node.name (node_at w r) = e.1.1 /\
  TensegritySolver.node_indices s !! e.1.1 = Some e.1.2 /\
  N !! e.1.2 = Some e.2 /\
  length e.2 = TensegritySolver.dim s.

(** The number of coordinate axes that the pin map fixes. *)
Definition pinned_axes (s : TensegritySolver.t) : nat :=
  sum_list ((fun pin : string * list bool =>
               length (filter (fun b : bool => b = true) (take (TensegritySolver.dim s) pin.2)))
            <$> Tensegrity.pins (TensegritySolver.tensegrity s)).

(** Axis [k] of the linked pair [(node1, node2)], given the rows [D]
    removed so far: are the rows of both nodes removed already, and which
    rows are removed once the pair has been treated. *)
Definition both_removed (s : TensegritySolver.t) (node1 node2 : string) (k : nat)
    (D : gset nat) : bool :=
  match TensegritySolver.node_indices s !! node1, TensegritySolver.node_indices s !! node2 with
  | Some i1, Some i2 =>
      bool_decide (i1 * TensegritySolver.dim s + k ∈ D)
      && bool_decide (i2 * TensegritySolver.dim s + k ∈ D)
  | _, _ => false
  end.

Definition rows_after (s : TensegritySolver.t) (node1 node2 : string) (k : nat)
    (D : gset nat) : gset nat :=
  match TensegritySolver.node_indices s !! node1, TensegritySolver.node_indices s !! node2 with
  | Some i1, Some i2 =>
      if bool_decide (i1 * TensegritySolver.dim s + k ∈ D)
      then {[i2 * TensegritySolver.dim s + k]} ∪ D
      else if bool_decide (i2 * TensegritySolver.dim s + k ∈ D)
           then {[i1 * TensegritySolver.dim s + k]} ∪ D
           else {[i2 * TensegritySolver.dim s + k]} ∪ D
  | _, _ => D
  end.

(** The number of (linked pair, axis) steps, x and y, that find the rows of
    both nodes removed already; [D] holds the rows removed before the first
    pair. *)
Fixpoint seam_overlap (s : TensegritySolver.t) (linked : list linked_pair)
    (D : gset nat) : nat :=
  match linked with
  | [] => 0
  | (node1, node2) :: rest =>
      let D1 := rows_after s node1 node2 0 D in
      let D2 := rows_after s node1 node2 1 D1 in
      (if both_removed s node1 node2 0 D then 1 else 0)
      + (if both_removed s node1 node2 1 D1 then 1 else 0)
      + seam_overlap s rest D2
  end.

(** The per-node coordinate array: the first [dim] coordinates of every
    node, in declaration order. *)
Definition coordinate_array (s : TensegritySolver.t) (w : World) : list (list R) :=
  (fun node => take (TensegritySolver.dim s) (Node.position (node_at w node)))
  <$> Tensegrity.nodes (TensegritySolver.tensegrity s).

(** The places, in the flat coordinate vector, of the coordinates that the
    pin map fixes, in the order in which the pin map lists them. *)
Definition pinned_places_of (s : TensegritySolver.t) (node : string) (bools : list bool)
    (axes : list nat) : list nat :=
  match TensegritySolver.node_indices s !! node with
  | Some idx =>
      (fun i => idx * TensegritySolver.dim s + i)
      <$> filter (fun i => bools !! i = Some true) axes
  | None => []
  end.

Definition pinned_places (s : TensegritySolver.t) : list nat :=
  concat ((fun pin : string * list bool =>
             pinned_places_of s pin.1 pin.2 (seq 0 (TensegritySolver.dim s)))
          <$> Tensegrity.pins (TensegritySolver.tensegrity s)).

(** The indices of the nodes that the pin map names, in the order in which
    it lists them. *)
Definition pin_node_indices (s : TensegritySolver.t) : list nat :=
  omap (fun pin : string * list bool => TensegritySolver.node_indices s !! pin.1)
       (Tensegrity.pins (TensegritySolver.tensegrity s)).

(** A pin is usable when it names a node and has a flag for every axis. *)
Definition pin_ok (s : TensegritySolver.t) (pin : string * list bool) : Prop :=
  is_Some (TensegritySolver.node_indices s !! pin.1) /\ TensegritySolver.dim s <= length pin.2.

(** An item of the dict of [_get_nodes_from_input] holds the coordinate
    found at its place in the flat coordinate vector. *)
Definition entry_ok (s : TensegritySolver.t) (w : World) (p : nat * R) : Prop :=
  concat (coordinate_array s w) !! p.1 = Some p.2.

(** The rows removed for the pins, before the linked pairs are treated. *)
Definition removed_by_pins (s : TensegritySolver.t) : gset nat :=
  match TensegritySolver.pinned_indices s with
  | Ok D => D
  | Raise _ => ∅
  end.

(** [v[idx*d : idx*d + d]]: the slots of node [idx] in a flat vector. *)
Definition slot (d idx : nat) (v : list R) : list R := take d (drop (idx * d) v).

(** The linked pairs that the structure hands to [current_length]. *)
Definition surface_links (t : Tensegrity.t) : option (list linked_pair) :=
  match Tensegrity.surface t with
  | Some s => Some (Surface.linked_nodes s)
  | None => None
  end.

(** The structure with another list of connections. *)
Definition with_connections (t : Tensegrity.t) (connections : list ref) : Tensegrity.t :=
  Tensegrity.mk (Tensegrity.nodes t) connections (Tensegrity.pins t) (Tensegrity.controls t)
    (Tensegrity.surface t) (Tensegrity.control_starting_lengths t) (Tensegrity.dim t).

(** The solver finds the node [r]: its name is indexed, and the position
    array holds the position of the node, of [dim] coordinates, in the row
    of that index. *)
Definition row_holds (s : TensegritySolver.t) (w : World) (N : list (list R)) (r : ref)
    : Prop :=
  exists i,
    TensegritySolver.node_indices s !! Node.name (node_at w r) = Some i /\
    N !! i = Some (Node.position (node_at w r)) /\
    length (Node.position (node_at w r)) = TensegritySolver.dim s.

(** A connection of length [L] is relaxed: it is at its rest length, or it
    is a string shorter than its rest length. *)
Definition relaxed (c : Connection.t) (L : R) : Prop :=
  L = Connection.initial_length c \/
  (Connection.connection_type c = Connection.STRING /\ (L < Connection.initial_length c)%R).

(** Every node of every connection of the structure has its name in the
    index of the solver. *)
Definition connections_indexed (s : TensegritySolver.t) (w : World) : Prop :=
  forall c, c ∈ Tensegrity.connections (TensegritySolver.tensegrity s) ->
    Forall (fun r => is_Some (TensegritySolver.node_indices s !! Node.name (node_at w r)))
           (Connection.nodes (conn_at w c)).

(** At the positions of the nodes every connection of the structure is
    relaxed. *)
Definition at_rest (s : TensegritySolver.t) (w : World) : Prop :=
  forall c, c ∈ Tensegrity.connections (TensegritySolver.tensegrity s) ->
    exists L,
      Connection.current_length (node_at w) (conn_at w c)
        (surface_links (TensegritySolver.tensegrity s)) = Ok L /\
      relaxed (conn_at w c) L.

(** The coordinate array holds the position of every node of every
    connection. *)
Definition connections_held (s : TensegritySolver.t) (w : World) : Prop :=
  forall c, c ∈ Tensegrity.connections (TensegritySolver.tensegrity s) ->
    Forall (row_holds s w (coordinate_array s w)) (Connection.nodes (conn_at w c)).

(** What a call may change in the store from [w] to [w']: the positions of
    the nodes of the structure [t] and the forces of connections, nothing
    else. *)
Definition moves_only (t : Tensegrity.t) (w w' : World) : Prop :=
  (forall r, Node.name (node_at w' r) = Node.name (node_at w r)) /\
  (forall r, r ∉ Tensegrity.nodes t -> node_at w' r = node_at w r) /\
  (forall c, conn_at w' c = Connection.set_force (conn_at w c) (Connection.force (conn_at w' c))).

(** The loop of [solve] that stores the rows of [N] in the nodes. *)
Definition store_positions (N : list (list R)) (items : list (nat * ref)) : M World unit :=
  for_M items (fun '(i, node) =>
    p ← lift (getitem N i);
    modify (fun w => set_node node (Node.set_position (node_at w node) p) w)).

(** The outcome of [set_forces] as the items of the dict decide it: the
    first item that has a force of the wrong length or an unknown name. *)
Fixpoint set_forces_outcome (s : TensegritySolver.t) (forces : list (string * list R))
    : result unit :=
  match forces with
  | [] => Ok tt
  | (node, force) :: rest =>
      if bool_decide (length force <> TensegritySolver.dim s) then Raise ValueError
      else match TensegritySolver.node_indices s !! node with
           | None => Raise KeyError
           | Some _ => set_forces_outcome s rest
           end
  end.

(** The two nodes of a linked pair have rows in [N] that the wrap of the
    plane on the surface sends to one point [p]: [transform] returns [p] for
    both. *)
Definition wrapped_together (s : TensegritySolver.t) (sf : Surface.t) (N : list (list R))
    (pair : linked_pair) : Prop :=
  exists i1 i2 x1 y1 rest1 x2 y2 rest2 p,
    TensegritySolver.node_indices s !! pair.1 = Some i1 /\ N !! i1 = Some (x1 :: y1 :: rest1) /\
    TensegritySolver.node_indices s !! pair.2 = Some i2 /\ N !! i2 = Some (x2 :: y2 :: rest2) /\
    Visualization.transform (Some sf) x1 y1 0 = Ok p /\
    Visualization.transform (Some sf) x2 y2 0 = Ok p.

(** The sum, over the [n] nodes, of the entries of the flat vector [v] on
    axis [k]. *)
Definition axis_sum (d n k : nat) (v : list R) : R :=
  foldr Rplus 0%R ((fun i => default 0%R (v !! (i * d + k))) <$> seq 0 n).

(** The exceptions of a lookup or of a shape mismatch. *)
Definition lookup_or_shape (e : exn) : Prop :=
  e = KeyError \/ e = IndexError \/ e = ValueError.

(** The computation [m] raises nothing but exceptions in [P]. *)
Definition raises_only {A} (P : exn -> Prop) (m : result A) : Prop :=
  forall e, m = Raise e -> P e.

(** A string shorter than its rest length is slack. *)
Definition slack (c : Connection.t) (L : R) : bool :=
  match Connection.connection_type c with
  | Connection.STRING => bool_decide (L < Connection.initial_length c)%R
  | Connection.BAR => false
  end.

(** The energy that [_spring_connection_energy] returns for a connection of
    length [L], and the factor by which [_spring_connection_energy_derivative]
    multiplies the derivative of the length, sign reversed. *)
Definition energy_at (c : Connection.t) (L : R) : R :=
  if slack c L then 0%R
  else (0.5 * Connection.stiffness c * (L - Connection.initial_length c) ^ 2)%R.

Definition energy_slope (c : Connection.t) (L : R) : R :=
  if slack c L then 0%R
  else (Connection.stiffness c * (L - Connection.initial_length c))%R.

(** * Basic facts about the monads and loops *)

Lemma bind_Ok {A B} (a : A) (f : A -> result B) : (Ok a ≫= f) = f a.
Proof. reflexivity. Qed.

Lemma bind_Ok_inv {A B} (m : result A) (f : A -> result B) (b : B) :
  (m ≫= f) = Ok b -> exists a, m = Ok a /\ f a = Ok b.
Proof. destruct m as [a|e]; [eauto | discriminate]. Qed.

Lemma getitem_Ok {X} (xs : list X) (i : nat) (x : X) :
  getitem xs i = Ok x <-> xs !! i = Some x.
Proof. unfold getitem. destruct (xs !! i); split; congruence. Qed.

Lemma getitem_app_r {X} (pre xs : list X) (i : nat) :
  getitem (pre ++ xs) (length pre + i) = getitem xs i.
Proof. unfold getitem. by rewrite lookup_app_r, Nat.add_comm, Nat.add_sub by lia. Qed.

Lemma getkey_Ok {V} (d : gmap string V) (k : string) (v : V) :
  getkey d k = Ok v <-> d !! k = Some v.
Proof. unfold getkey. destruct (d !! k); split; congruence. Qed.


(** * Connection physics *)

Section ConnectionFacts.

Lemma np_sub_Ok (p q : list R) :
  length p = length q -> np.sub p q = Ok (zip_with Rminus p q).
Proof. intros H. unfold np.sub. by rewrite bool_decide_eq_true_2. Qed.

Lemma np_add_Ok (p q : list R) :
  length p = length q -> np.add p q = Ok (zip_with Rplus p q).
Proof. intros H. unfold np.add. by rewrite bool_decide_eq_true_2. Qed.

Lemma norm_sub_distance (p q d : list R) :
  np.sub p q = Ok d -> np.norm d = Spec.euclidean_distance p q.
Proof.
  unfold np.sub. case_bool_decide; [|discriminate]. by intros [= <-].
Qed.

Variable node_at : ref -> Node.t.
Variable linked : list linked_pair.

Lemma chain_length_cons2 (r1 r2 : ref) (rest : list ref) :
  Spec.chain_length node_at linked (r1 :: r2 :: rest) =
  ((if in_linked (Node.name (node_at r1)) (Node.name (node_at r2)) linked
    then 0
    else Spec.euclidean_distance (Node.position (node_at r1)) (Node.position (node_at r2)))
   + Spec.chain_length node_at linked (r2 :: rest))%R.
Proof. reflexivity. Qed.

(** The loop of [current_length], started in the middle of the chain. *)
Lemma current_length_loop (d : nat) (chain pre : list ref) (acc : R) :
  Forall (fun r => length (Node.position (node_at r)) = d) chain ->
  for_ (seq (length pre) (length chain - 1)) (fun i len =>
    r1 ← getitem (pre ++ chain) i;
    r2 ← getitem (pre ++ chain) (i + 1);
    let node1 := node_at r1 in
    let node2 := node_at r2 in
    if in_linked (Node.name node1) (Node.name node2) linked then Ok len
    else
      d ← np.sub (Node.position node1) (Node.position node2);
      Ok (len + np.norm d)%R) acc
  = Ok (acc + Spec.chain_length node_at linked chain)%R.
Proof.
  revert pre acc. induction chain as [|r1 [|r2 rest] IH]; intros pre acc Hd.
  - simpl. f_equal. lra.
  - simpl. f_equal. lra.
  - replace (length (r1 :: r2 :: rest) - 1) with (S (length (r2 :: rest) - 1))
      by (simpl; lia).
    rewrite <- cons_seq. cbn [for_].
    replace (length pre) with (length pre + 0) at 1 by lia.
    rewrite getitem_app_r. replace (length pre + 0 + 1) with (length pre + 1) by lia.
    rewrite getitem_app_r. cbn [getitem lookup list_lookup]. rewrite !bind_Ok. cbn zeta.
    inversion Hd as [|? ? H1 Hd']; subst. inversion Hd' as [|? ? H2 _]; subst.
    specialize (IH (pre ++ [r1])). rewrite length_app, Nat.add_1_r in IH.
    rewrite <- app_assoc in IH. cbn [app] in IH.
    rewrite chain_length_cons2.
    destruct (in_linked _ _ linked).
    + rewrite bind_Ok, IH by done. f_equal. lra.
    + rewrite np_sub_Ok by congruence.
      rewrite !bind_Ok, IH by done. f_equal.
      unfold np.norm, Spec.euclidean_distance. lra.
Qed.

End ConnectionFacts.

Lemma chain_length_no_links (node_at : ref -> Node.t) (chain : list ref) :
  Spec.chain_length node_at [] chain = Spec.sum_of_distances node_at chain.
Proof.
  induction chain as [|r1 [|r2 rest] IH]; [done..|].
  rewrite chain_length_cons2, IH. reflexivity.
Qed.

Lemma current_length_default (node_at : ref -> Node.t) (c : Connection.t) (d : nat)
    (linked : option (list linked_pair)) :
  Forall (fun r => length (Node.position (node_at r)) = d) (Connection.nodes c) ->
  Connection.current_length node_at c linked
  = Ok (Spec.chain_length node_at (default [] linked) (Connection.nodes c)).
Proof.
  intros Hd. unfold Connection.current_length.
  pose proof (current_length_loop node_at (default [] linked) d
                (Connection.nodes c) [] 0%R Hd) as H.
  cbn [app length] in H. rewrite H. f_equal. lra.
Qed.

(** C5. With no linked pairs [current_length] is the sum of the Euclidean
    distances between consecutive nodes of the chain; with linked pairs, a
    segment whose end points are a registered pair counts for exactly 0 and
    every other segment for its Euclidean distance. The nodes of the chain
    have positions of one dimensionality [d]. *)
Theorem current_length_chain (node_at : ref -> Node.t) (c : Connection.t) (d : nat) :
  Forall (fun r => length (Node.position (node_at r)) = d) (Connection.nodes c) ->
  Connection.current_length node_at c None
    = Ok (Spec.sum_of_distances node_at (Connection.nodes c)) /\
  forall linked,
    Connection.current_length node_at c (Some linked)
      = Ok (Spec.chain_length node_at linked (Connection.nodes c)).
Proof.
  intros Hd. split; [|intros linked; by apply (current_length_default node_at c d)].
  rewrite (current_length_default node_at c d) by done.
  f_equal. apply chain_length_no_links.
Qed.


(** * The state monad and the object store *)

Lemma bindM_Ok_inv {S A B} (m : M S A) (f : A -> M S B) (s s'' : S) (b : B) :
  (m ≫= f) s = (Ok b, s'') -> exists a s', m s = (Ok a, s') /\ f a s' = (Ok b, s'').
Proof.
  unfold mbind, M_bind. destruct (m s) as [[a|e] s']; [eauto | discriminate].
Qed.

Lemma bindM_step {S A B} (m : M S A) (f : A -> M S B) (s s' : S) (a : A) :
  m s = (Ok a, s') -> (m ≫= f) s = f a s'.
Proof. intros H. unfold mbind, M_bind. by rewrite H. Qed.

Lemma bindM_raise {S A B} (m : M S A) (f : A -> M S B) (s s' : S) (e : exn) :
  m s = (Raise e, s') -> (m ≫= f) s = (Raise e, s').
Proof. intros H. unfold mbind, M_bind. by rewrite H. Qed.

Lemma for_M_app {S X} (xs ys : list X) (body : X -> M S unit) (s : S) :
  for_M (xs ++ ys) body s =
  match for_M xs body s with
  | (Ok _, s') => for_M ys body s'
  | (Raise e, s') => (Raise e, s')
  end.
Proof.
  revert s. induction xs as [|x xs IH]; intros s; [done|].
  cbn [app for_M]. unfold mbind, M_bind.
  destruct (body x s) as [[[]|e] s1]; [apply IH | done].
Qed.

Lemma conn_at_set_conn (r r' : ref) (c : Connection.t) (w : World) :
  conn_at (set_conn r c w) r' = if decide (r = r') then c else conn_at w r'.
Proof. reflexivity. Qed.

Lemma set_initial_length_id (c : Connection.t) (l : R) :
  l = Connection.initial_length c -> Connection.set_initial_length c l = c.
Proof. intros ->. by destruct c. Qed.

(** * Control lengths *)

Section ControlFacts.

(** The loop of [change_control_lengths] over the controls still to do. *)
Lemma change_loop (controls pre : list ref) (deltas : list R) (w : World) :
  length controls = length deltas ->
  exists w',
    for_M (enumerate_from (length pre) deltas) (fun '(i, delta_length) =>
      control ← lift (getitem (pre ++ controls) i);
      modify (fun w =>
        set_conn control
          (Connection.set_initial_length (conn_at w control)
             (Connection.initial_length (conn_at w control) + delta_length)%R) w)) w
    = (Ok tt, w') /\
    node_at w' = node_at w /\
    forall r, conn_at w' r =
      Connection.set_initial_length (conn_at w r)
        (Connection.initial_length (conn_at w r) + Spec.total_delta controls deltas r)%R.
Proof.
  revert controls pre w. induction deltas as [|d deltas IH]; intros [|c cs] pre w Hlen;
    try discriminate.
  - exists w. split_and!; [done..|]. intros r. cbn. by rewrite set_initial_length_id by lra.
  - cbn [enumerate_from for_M].
    set (w1 := set_conn c (Connection.set_initial_length (conn_at w c)
                 (Connection.initial_length (conn_at w c) + d)%R) w).
    destruct (IH cs (pre ++ [c]) w1) as (w' & Hrun & Hn & Hc); [by injection Hlen|].
    rewrite length_app, Nat.add_1_r, <- app_assoc in Hrun. cbn [app] in Hrun.
    exists w'. split_and!.
    + erewrite bindM_step; [exact Hrun|].
      erewrite bindM_step; [reflexivity|]. unfold lift.
      replace (length pre) with (length pre + 0) by lia. by rewrite getitem_app_r.
    + by rewrite Hn.
    + intros r. rewrite Hc. unfold w1. rewrite conn_at_set_conn.
      cbn [Spec.total_delta]. destruct (decide (c = r)) as [->|Hne].
      * rewrite bool_decide_eq_true_2 by done. destruct (conn_at w r). cbn. f_equal. lra.
      * rewrite bool_decide_eq_false_2 by done. f_equal. lra.
Qed.

Lemma total_delta_not_control (controls : list ref) (deltas : list R) (r : ref) :
  r ∉ controls -> Spec.total_delta controls deltas r = 0%R.
Proof.
  revert deltas. induction controls as [|c cs IH]; intros [|d ds] Hr; try done.
  cbn. rewrite not_elem_of_cons in Hr. destruct Hr as [Hne Hr].
  rewrite bool_decide_eq_false_2 by done. rewrite IH by done. lra.
Qed.

Lemma total_delta_NoDup (controls : list ref) (deltas : list R) (i : nat) (c : ref) (d : R) :
  NoDup controls -> controls !! i = Some c -> deltas !! i = Some d ->
  Spec.total_delta controls deltas c = d.
Proof.
  revert deltas i. induction controls as [|c' cs IH]; intros [|d' ds] i Hnd Hc Hd;
    try (by destruct i).
  apply list.NoDup_cons in Hnd as [Hnotin Hnd]. destruct i as [|i]; cbn in Hc, Hd.
  - injection Hc as ->. injection Hd as ->. cbn.
    rewrite bool_decide_eq_true_2 by done. rewrite total_delta_not_control by done. lra.
  - cbn. rewrite bool_decide_eq_false_2.
    + rewrite (IH ds i) by done. lra.
    + intros ->. apply Hnotin. by eapply list_elem_of_lookup_2.
Qed.

(** The loop of [reset_control_lengths] over the controls still to do. *)
Lemma reset_loop (start : ref -> R) (controls : list ref) (pre : list R) (w : World) :
  exists w',
    for_M (enumerate_from (length pre) controls) (fun '(i, control) =>
      l ← lift (getitem (pre ++ (start <$> controls)) i);
      modify (fun w => set_conn control (Connection.set_initial_length (conn_at w control) l) w)) w
    = (Ok tt, w') /\
    node_at w' = node_at w /\
    forall r, conn_at w' r =
      if bool_decide (r ∈ controls)
      then Connection.set_initial_length (conn_at w r) (start r)
      else conn_at w r.
Proof.
  revert pre w. induction controls as [|c cs IH]; intros pre w.
  - exists w. split_and!; [done..|]. intros r. by rewrite bool_decide_eq_false_2 by set_solver.
  - cbn [enumerate_from for_M fmap list_fmap].
    set (w1 := set_conn c (Connection.set_initial_length (conn_at w c) (start c)) w).
    destruct (IH (pre ++ [start c]) w1) as (w' & Hrun & Hn & Hc).
    rewrite length_app, Nat.add_1_r, <- app_assoc in Hrun. cbn [app] in Hrun.
    exists w'. split_and!.
    + erewrite bindM_step; [exact Hrun|].
      erewrite bindM_step; [reflexivity|]. unfold lift.
      replace (length pre) with (length pre + 0) by lia. by rewrite getitem_app_r.
    + by rewrite Hn.
    + intros r. rewrite Hc. unfold w1. rewrite conn_at_set_conn.
      destruct (decide (c = r)) as [->|Hne].
      * rewrite (bool_decide_eq_true_2 (r ∈ r :: cs)) by apply list_elem_of_here.
        by destruct (bool_decide (r ∈ cs)).
      * case_bool_decide as Hin.
        -- by rewrite bool_decide_eq_true_2 by (by apply list_elem_of_further).
        -- rewrite bool_decide_eq_false_2; [done|].
           rewrite not_elem_of_cons. by split; [intros ->|].
Qed.

End ControlFacts.

(** C8. [change_control_lengths] raises ValueError exactly when the number
    of deltas differs from the number of controls, and then changes nothing.
    When the counts match it returns normally, leaves every node alone, and
    its only effect on a connection is to add to its rest length the deltas
    of the controls that refer to it: a connection that is not a control is
    unchanged, and the i-th control (controls being distinct) gets exactly
    the i-th delta. No position or force is touched, so nothing is
    re-solved. *)
Theorem change_control_lengths_spec (t : Tensegrity.t) (deltas : list R) (w : World) :
  ((Tensegrity.change_control_lengths t deltas w).1 = Raise ValueError
     <-> length deltas <> length (Tensegrity.controls t)) /\
  (length deltas <> length (Tensegrity.controls t) ->
     (Tensegrity.change_control_lengths t deltas w).2 = w) /\
  (length deltas = length (Tensegrity.controls t) ->
     exists w',
       Tensegrity.change_control_lengths t deltas w = (Ok tt, w') /\
       node_at w' = node_at w /\
       (forall r, conn_at w' r =
          Connection.set_initial_length (conn_at w r)
            (Connection.initial_length (conn_at w r)
             + Spec.total_delta (Tensegrity.controls t) deltas r)%R) /\
       (forall r, r ∉ Tensegrity.controls t -> conn_at w' r = conn_at w r) /\
       (NoDup (Tensegrity.controls t) ->
        forall i c d, Tensegrity.controls t !! i = Some c -> deltas !! i = Some d ->
          Connection.initial_length (conn_at w' c)
          = (Connection.initial_length (conn_at w c) + d)%R)).
Proof.
  unfold Tensegrity.change_control_lengths.
  destruct (decide (length deltas = length (Tensegrity.controls t))) as [Heq|Hne].
  - rewrite bool_decide_eq_false_2 by (intros ?; done).
    destruct (change_loop (Tensegrity.controls t) [] deltas w) as (w' & Hrun & Hn & Hc);
      [done|].
    cbn [length app] in Hrun. unfold enumerate. rewrite Hrun.
    split_and!; [split; [discriminate | done] | done |].
    intros _. exists w'. split_and!; [done..| |].
    + intros r Hr. rewrite Hc, total_delta_not_control by done.
      apply set_initial_length_id. lra.
    + intros Hnd i c d Hi Hd. rewrite Hc.
      by rewrite (total_delta_NoDup _ _ i c d).
  - rewrite bool_decide_eq_true_2 by done. cbn. split_and!; done.
Qed.

(** What [Tensegrity.__init__] returns. *)
Lemma Tensegrity_init_inv nodes connections pins controls surface dim (w0 w1 : World)
    (t : Tensegrity.t) :
  Tensegrity.__init__ nodes connections pins controls surface dim w0 = (Ok t, w1) ->
  Tensegrity.nodes t = nodes /\
  Tensegrity.connections t = connections /\
  Tensegrity.pins t = default [] pins /\
  Tensegrity.controls t = default [] controls /\
  Tensegrity.surface t = surface /\
  Tensegrity.control_starting_lengths t
    = (fun control => Connection.initial_length (conn_at w0 control)) <$> default [] controls.
Proof.
  unfold Tensegrity.__init__. intros H.
  apply bindM_Ok_inv in H as (w & s1 & Hget & H). injection Hget as <- <-.
  apply bindM_Ok_inv in H as ([] & s2 & _ & H).
  apply bindM_Ok_inv in H as (w & s3 & _ & H).
  injection H as <- _. done.
Qed.

(** C7. Build a Tensegrity, then make any calls of [change_control_lengths]
    (with any deltas) and [solve] (with any solver, method and outcome of the
    root finder) in any order: [reset_control_lengths] then returns normally
    and every control has the rest length it had when the Tensegrity was
    constructed. *)
Theorem reset_control_lengths_restores
    (root : (list R -> result (list R)) -> list R -> string -> result OptimizeResult)
    nodes connections pins controls surface dim (w0 w1 : World) (t : Tensegrity.t)
    (calls : list call) :
  Tensegrity.__init__ nodes connections pins controls surface dim w0 = (Ok t, w1) ->
  exists w',
    Tensegrity.reset_control_lengths t (run_calls root t w1 calls) = (Ok tt, w') /\
    forall control, control ∈ Tensegrity.controls t ->
      Connection.initial_length (conn_at w' control)
      = Connection.initial_length (conn_at w0 control).
Proof.
  intros Hinit. apply Tensegrity_init_inv in Hinit as (_ & _ & _ & Hc & _ & Hs).
  unfold Tensegrity.reset_control_lengths. rewrite Hs, Hc.
  destruct (reset_loop (fun control => Connection.initial_length (conn_at w0 control))
              (default [] controls) [] (run_calls root t w1 calls)) as (w' & Hrun & _ & Hconn).
  exists w'. split; [exact Hrun|].
  intros control Hin. rewrite Hconn, bool_decide_eq_true_2 by done. reflexivity.
Qed.

(** * The solver's index of node names *)

Lemma node_indices_fold (w : World) (nodes pre : list ref) (m : gmap string nat) :
  (forall name i, m !! name = Some i ->
     exists r, pre !! i = Some r /\ Node.name (node_at w r) = name) ->
  forall name i,
    foldl (fun (m : gmap string nat) '(i, node) => <[Node.name (node_at w node) := i]> m) m
          (enumerate_from (length pre) nodes) !! name = Some i ->
    exists r, (pre ++ nodes) !! i = Some r /\ Node.name (node_at w r) = name.
Proof.
  revert pre m. induction nodes as [|r nodes IH]; intros pre m Hm name i.
  - cbn. rewrite app_nil_r. apply Hm.
  - cbn [enumerate_from foldl]. intros H.
    specialize (IH (pre ++ [r]) (<[Node.name (node_at w r) := length pre]> m)).
    rewrite length_app, Nat.add_1_r, <- app_assoc in IH. apply IH; [|done].
    intros name' i'. rewrite lookup_insert. case_decide as Hname.
    + intros [= <-]. exists r. split; [|done].
      by rewrite lookup_app_r, Nat.sub_diag by lia.
    + intros Hl. destruct (Hm _ _ Hl) as (r' & Hr' & Hn'). exists r'. split; [|done].
      by apply lookup_app_l_Some.
Qed.

Lemma node_indices_init (w : World) (t : Tensegrity.t) (name : string) (i : nat) :
  TensegritySolver.node_indices (TensegritySolver.__init__ w t) !! name = Some i ->
  exists r, Tensegrity.nodes t !! i = Some r /\ Node.name (node_at w r) = name.
Proof.
  cbn [TensegritySolver.__init__ TensegritySolver.node_indices]. unfold enumerate.
  apply (node_indices_fold w (Tensegrity.nodes t) [] ∅). intros ? ?. by rewrite lookup_empty.
Qed.

Lemma init_solver_wf (w : World) (t : Tensegrity.t) :
  solver_wf (TensegritySolver.__init__ w t).
Proof.
  intros name i H. apply node_indices_init in H as (r & Hr & _).
  by eapply lookup_lt_Some.
Qed.

Lemma init_node_indices_inj (w : World) (t : Tensegrity.t) :
  node_indices_inj (TensegritySolver.__init__ w t).
Proof.
  intros n1 n2 i H1 H2.
  apply node_indices_init in H1 as (r1 & Hr1 & <-).
  apply node_indices_init in H2 as (r2 & Hr2 & <-). congruence.
Qed.

(** * Slices of a flat vector *)

Section Slices.
Context {A : Type}.
Implicit Types v f : list A.

Lemma written_length v f (a d : nat) :
  a + d <= length v -> length f = d ->
  length (take a v ++ f ++ drop (a + d) v) = length v.
Proof. intros Ha Hf. rewrite !length_app, length_take, length_drop. lia. Qed.

Lemma written_lookup v f (a d j : nat) :
  a + d <= length v -> length f = d ->
  (take a v ++ f ++ drop (a + d) v) !! j =
  if decide (j < a) then v !! j
  else if decide (j < a + d) then f !! (j - a) else v !! j.
Proof.
  intros Ha Hf.
  assert (length (take a v) = a) as Hta by (rewrite length_take; lia).
  repeat case_decide.
  - rewrite lookup_app_l by lia. by rewrite lookup_take_lt.
  - rewrite lookup_app_r, Hta by lia. by rewrite lookup_app_l by lia.
  - rewrite lookup_app_r, Hta by lia. rewrite lookup_app_r, Hf by lia.
    rewrite lookup_drop. f_equal. lia.
Qed.

Lemma slice_lookup v (a d j : nat) :
  take d (drop a v) !! j = if decide (j < d) then v !! (a + j) else None.
Proof. rewrite lookup_take. case_decide; [|done]. by rewrite lookup_drop. Qed.

Lemma slice_written_same v f (a d : nat) :
  a + d <= length v -> length f = d ->
  take d (drop a (take a v ++ f ++ drop (a + d) v)) = f.
Proof.
  intros Ha Hf. rewrite drop_app_length' by (rewrite length_take; lia).
  by rewrite take_app_length'.
Qed.

Lemma slice_written_other v f (a b d : nat) :
  a + d <= length v -> length f = d -> (b + d <= a \/ a + d <= b) ->
  take d (drop b (take a v ++ f ++ drop (a + d) v)) = take d (drop b v).
Proof.
  intros Ha Hf Hab. apply list_eq. intros j. rewrite !slice_lookup.
  case_decide; [|done]. rewrite written_lookup by done.
  repeat case_decide; (done || lia).
Qed.
End Slices.

Lemma slot_bounds (d n idx : nat) : idx < n -> idx * d + d <= d * n.
Proof. nia. Qed.

Lemma slot_disjoint (d idx idx' : nat) :
  idx <> idx' -> idx' * d + d <= idx * d \/ idx * d + d <= idx' * d.
Proof. nia. Qed.

Lemma length_zeros (n : nat) : length (np.zeros n) = n.
Proof. apply length_replicate. Qed.

Lemma slot_zeros (d n idx : nat) : idx < n -> slot d idx (np.zeros (d * n)) = np.zeros d.
Proof.
  intros H. unfold slot, np.zeros. rewrite drop_replicate, take_replicate.
  f_equal. pose proof (slot_bounds d n idx H). lia.
Qed.

Lemma slice_set_Ok (v f : list R) (d n idx : nat) :
  length v = d * n -> idx < n -> length f = d ->
  np.slice_set v (idx * d) d f = Ok (take (idx * d) v ++ f ++ drop (idx * d + d) v).
Proof.
  intros Hv Hidx Hf. unfold np.slice_set. rewrite bool_decide_eq_true_2; [done|].
  rewrite length_take, length_drop. pose proof (slot_bounds d n idx Hidx). lia.
Qed.

(** * set_forces *)

Section SetForces.
Import TensegritySolver.

Abbreviation n_nodes s := (length (Tensegrity.nodes (tensegrity s))).

(** One item of the dict that passes the length check and names a node. *)
Lemma set_forces_item_Ok (s : t) (node : string) (force : list R) (idx : nat) :
  solver_wf s -> length (forces s) = dim s * n_nodes s ->
  length force = dim s -> node_indices s !! node = Some idx ->
  set_forces_item (node, force) s
  = (Ok tt, with_forces s (take (idx * dim s) (forces s) ++ force
                           ++ drop (idx * dim s + dim s) (forces s))).
Proof.
  intros Hwf Hlen Hf Hidx. unfold set_forces_item.
  erewrite bindM_step by reflexivity.
  rewrite bool_decide_eq_false_2 by (intros ?; done).
  erewrite bindM_step; [|unfold lift; by rewrite (proj2 (getkey_Ok _ _ _) Hidx)].
  erewrite bindM_step; [reflexivity|]. unfold lift.
  by rewrite (slice_set_Ok _ _ _ (n_nodes s)) by eauto.
Qed.

(** What one item can do. *)
Lemma set_forces_item_cases (s : t) (node : string) (force : list R) :
  solver_wf s -> length (forces s) = dim s * n_nodes s ->
  (length force <> dim s /\ set_forces_item (node, force) s = (Raise ValueError, s)) \/
  (length force = dim s /\ node_indices s !! node = None /\
     set_forces_item (node, force) s = (Raise KeyError, s)) \/
  (exists idx, length force = dim s /\ node_indices s !! node = Some idx /\
     set_forces_item (node, force) s
     = (Ok tt, with_forces s (take (idx * dim s) (forces s) ++ force
                              ++ drop (idx * dim s + dim s) (forces s)))).
Proof.
  intros Hwf Hlen. destruct (decide (length force = dim s)) as [Hf|Hf].
  - right. destruct (node_indices s !! node) as [idx|] eqn:Hidx.
    + right. exists idx. split_and!; [done..|]. by apply set_forces_item_Ok.
    + left. split_and!; [done..|]. unfold set_forces_item.
      erewrite bindM_step by reflexivity.
      rewrite bool_decide_eq_false_2 by (intros ?; done).
      erewrite bindM_raise; [reflexivity|]. unfold lift, getkey. by rewrite Hidx.
  - left. split; [done|]. unfold set_forces_item.
    erewrite bindM_step by reflexivity. by rewrite bool_decide_eq_true_2.
Qed.

(** The loop, when it ends normally. *)
Lemma set_forces_loop_Ok (fs : list (string * list R)) (s s' : t) :
  solver_wf s -> node_indices_inj s -> NoDup fs.*1 ->
  length (forces s) = dim s * n_nodes s ->
  for_M fs set_forces_item s = (Ok tt, s') ->
  s' = with_forces s (forces s') /\
  length (forces s') = dim s * n_nodes s /\
  (forall node force, (node, force) ∈ fs ->
     length force = dim s /\
     exists idx, node_indices s !! node = Some idx /\ slot (dim s) idx (forces s') = force) /\
  (forall idx, idx < n_nodes s ->
     (forall node, node_indices s !! node = Some idx -> node ∉ fs.*1) ->
     slot (dim s) idx (forces s') = slot (dim s) idx (forces s)).
Proof.
  revert s. induction fs as [|[node force] fs IH]; intros s Hwf Hinj Hnd Hlen Hrun.
  - injection Hrun as <-. split_and!; [by destruct s | done | | done].
    intros ? ? Hin. by apply elem_of_nil in Hin.
  - cbn [for_M] in Hrun. apply bindM_Ok_inv in Hrun as ([] & s1 & Hitem & Hrun).
    destruct (set_forces_item_cases s node force Hwf Hlen)
      as [[_ He]|[(_ & _ & He)|(idx & Hf & Hidx & He)]];
      rewrite He in Hitem; try discriminate.
    injection Hitem as <-.
    cbn [fmap list_fmap fst] in Hnd. apply list.NoDup_cons in Hnd as [Hnotin Hnd].
    pose proof (slot_bounds (dim s) _ idx (Hwf _ _ Hidx)) as Hb. rewrite <- Hlen in Hb.
    apply IH in Hrun as (Hs' & Hlen' & Hnamed & Hother); [|done..|];
      cbn [with_forces node_indices tensegrity dim forces] in *; cycle 1.
    { rewrite written_length by done. exact Hlen. }
    split_and!; [by rewrite Hs' | done | |].
    + intros node' force' [[= -> ->]|Hin]%elem_of_cons; [|by apply Hnamed].
      split; [done|]. exists idx. split; [done|].
      rewrite Hother.
      * unfold slot. by apply slice_written_same.
      * by apply Hwf in Hidx.
      * intros node' Hn'. by rewrite (Hinj _ _ _ Hn' Hidx).
    + intros idx' Hidx' Hfree. rewrite Hother; [|done|].
      * unfold slot. apply slice_written_other; [done..|].
        apply slot_disjoint. intros ->. apply (Hfree node Hidx). cbn. apply list_elem_of_here.
      * intros node' Hn' Hin. apply (Hfree node' Hn'). cbn. by apply list_elem_of_further.
Qed.

(** The loop, when an item has the wrong length and the items before it
    name nodes of the structure. *)
Lemma set_forces_loop_ValueError (pre post : list (string * list R)) (node : string)
    (force : list R) (s : t) :
  solver_wf s -> length (forces s) = dim s * n_nodes s ->
  length force <> dim s ->
  (forall node', node' ∈ pre.*1 -> is_Some (node_indices s !! node')) ->
  (for_M (pre ++ (node, force) :: post) set_forces_item s).1 = Raise ValueError.
Proof.
  revert s. induction pre as [|[node' force'] pre IH]; intros s Hwf Hlen Hf Hknown.
  - cbn [app for_M]. destruct (set_forces_item_cases s node force Hwf Hlen)
      as [[_ He]|[(? & _)|(idx & ? & _)]]; [|done..].
    erewrite bindM_raise by exact He. done.
  - cbn [app for_M]. destruct (set_forces_item_cases s node' force' Hwf Hlen)
      as [[_ He]|[(_ & Hnone & _)|(idx & Hf' & Hidx & He)]].
    + erewrite bindM_raise by exact He. done.
    + destruct (Hknown node') as [? Hsome]; [cbn; apply list_elem_of_here|]. congruence.
    + erewrite bindM_step by exact He.
      pose proof (slot_bounds (dim s) _ idx (Hwf _ _ Hidx)) as Hb. rewrite <- Hlen in Hb.
      apply IH; cbn [with_forces node_indices tensegrity dim forces]; [done| |done|].
      * rewrite written_length by done. exact Hlen.
      * intros node'' Hin. apply Hknown. cbn. by apply list_elem_of_further.
Qed.

(** The loop, when it raises ValueError: the items before the offending
    one have been written. *)
Lemma set_forces_loop_raised (fs : list (string * list R)) (s s' : t) :
  solver_wf s -> length (forces s) = dim s * n_nodes s ->
  for_M fs set_forces_item s = (Raise ValueError, s') ->
  exists pre node force post,
    fs = pre ++ (node, force) :: post /\ length force <> dim s /\
    for_M pre set_forces_item s = (Ok tt, s').
Proof.
  revert s. induction fs as [|[node force] fs IH]; intros s Hwf Hlen Hrun; [done|].
  cbn [for_M] in Hrun.
  destruct (set_forces_item_cases s node force Hwf Hlen)
    as [[Hf He]|[(_ & _ & He)|(idx & Hf & Hidx & He)]].
  - erewrite bindM_raise in Hrun by exact He. injection Hrun as <-.
    by exists [], node, force, fs.
  - erewrite bindM_raise in Hrun by exact He. discriminate.
  - erewrite bindM_step in Hrun by exact He.
    pose proof (slot_bounds (dim s) _ idx (Hwf _ _ Hidx)) as Hb. rewrite <- Hlen in Hb.
    apply IH in Hrun as (pre & node' & force' & post & -> & Hf' & Hpre);
      cbn [with_forces node_indices tensegrity dim forces] in *; [|done|]; cycle 1.
    { rewrite written_length by done. exact Hlen. }
    exists ((node, force) :: pre), node', force', post. split_and!; [done..|].
    cbn [for_M]. by erewrite bindM_step by exact He.
Qed.

(** The loop ends normally when every item names a node and has a force of
    [dim] entries. *)
Lemma set_forces_loop_returns (fs : list (string * list R)) (s : t) :
  solver_wf s -> length (forces s) = dim s * n_nodes s ->
  Forall (fun item : string * list R => is_Some (node_indices s !! item.1)) fs ->
  Forall (fun item : string * list R => length item.2 = dim s) fs ->
  exists s', for_M fs set_forces_item s = (Ok tt, s').
Proof.
  revert s. induction fs as [|[node force] fs IH]; intros s Hwf Hlen Hknown Hdim.
  { by exists s. }
  apply Forall_cons in Hknown as [[idx Hidx] Hknown]. apply Forall_cons in Hdim as [Hf Hdim].
  cbn [fst snd] in Hidx, Hf. cbn [for_M].
  erewrite bindM_step by (by apply set_forces_item_Ok).
  pose proof (slot_bounds (dim s) _ idx (Hwf _ _ Hidx)) as Hb. rewrite <- Hlen in Hb.
  apply IH; cbn [with_forces node_indices tensegrity dim forces]; [done| |done..].
  rewrite written_length by done. exact Hlen.
Qed.

Lemma set_forces_unfold (fs : list (string * list R)) (s : t) :
  set_forces fs s
  = for_M fs set_forces_item (with_forces s (np.zeros (dim s * n_nodes s))).
Proof. reflexivity. Qed.

End SetForces.

(** C9. [set_forces] replaces the external-force vector: the outcome does
    not depend on the forces stored before; after a call that returns
    normally every node named in the mapping has the supplied force at its
    slots and every node that is not named has zero force; a force whose
    length differs from [dim] makes the call raise ValueError. The mapping
    maps node names to forces: when each of its keys names a node of the
    structure the call returns if every force has [dim] entries, and raises
    ValueError if one has not. (ValueError is also raised when only the keys
    listed before the force of the wrong length name nodes; an unknown key
    listed earlier raises KeyError first.) *)
Theorem set_forces_replaces (fs : list (string * list R)) (s : TensegritySolver.t) :
  solver_wf s -> node_indices_inj s -> NoDup fs.*1 ->
  let d := TensegritySolver.dim s in
  let n := length (Tensegrity.nodes (TensegritySolver.tensegrity s)) in
  (forall previous,
     TensegritySolver.set_forces fs (TensegritySolver.with_forces s previous)
     = TensegritySolver.set_forces fs s) /\
  (forall s', TensegritySolver.set_forces fs s = (Ok tt, s') ->
     s' = TensegritySolver.with_forces s (TensegritySolver.forces s') /\
     length (TensegritySolver.forces s') = d * n /\
     (forall node force, (node, force) ∈ fs ->
        exists idx, TensegritySolver.node_indices s !! node = Some idx /\
                    slot d idx (TensegritySolver.forces s') = force) /\
     (forall idx, idx < n ->
        (forall node, TensegritySolver.node_indices s !! node = Some idx -> node ∉ fs.*1) ->
        slot d idx (TensegritySolver.forces s') = np.zeros d)) /\
  (forall pre node force post,
     fs = pre ++ (node, force) :: post -> length force <> d ->
     (forall node', node' ∈ pre.*1 -> is_Some (TensegritySolver.node_indices s !! node')) ->
     (TensegritySolver.set_forces fs s).1 = Raise ValueError) /\
  (Forall (fun item : string * list R =>
             is_Some (TensegritySolver.node_indices s !! item.1)) fs ->
     (Forall (fun item : string * list R => length item.2 = d) fs ->
        exists s', TensegritySolver.set_forces fs s = (Ok tt, s')) /\
     (Exists (fun item : string * list R => length item.2 <> d) fs ->
        (TensegritySolver.set_forces fs s).1 = Raise ValueError)).
Proof.
  intros Hwf Hinj Hnd d n.
  assert (Hraise : forall pre node force post,
            fs = pre ++ (node, force) :: post -> length force <> d ->
            (forall node', node' ∈ pre.*1 ->
               is_Some (TensegritySolver.node_indices s !! node')) ->
            (TensegritySolver.set_forces fs s).1 = Raise ValueError).
  { intros pre node force post -> Hf Hknown. rewrite set_forces_unfold.
    apply set_forces_loop_ValueError; [done | by apply length_zeros | done..]. }
  split_and!.
  - reflexivity.
  - intros s' Hrun. rewrite set_forces_unfold in Hrun.
    apply set_forces_loop_Ok in Hrun as (Hs' & Hlen & Hnamed & Hother);
      [|done..|by apply length_zeros].
    cbn [TensegritySolver.with_forces TensegritySolver.node_indices TensegritySolver.tensegrity
         TensegritySolver.dim TensegritySolver.forces] in *.
    split_and!; [by rewrite Hs' | done | |].
    + intros node force Hin. by destruct (Hnamed node force Hin) as [_ ?].
    + intros idx Hidx Hfree. rewrite Hother by done. by apply slot_zeros.
  - exact Hraise.
  - intros Hknown. split.
    + intros Hdim. rewrite set_forces_unfold.
      apply set_forces_loop_returns; [done | by apply length_zeros | done..].
    + intros (item & Hin & Hf)%Exists_exists.
      apply list_elem_of_split in Hin as (pre & post & ->). destruct item as [node force].
      apply (Hraise pre node force post); [done..|].
      intros node' Hnode'. apply list_elem_of_fmap in Hnode' as (item' & -> & Hin').
      rewrite list.Forall_forall in Hknown. apply Hknown.
      apply elem_of_app. by left.
Qed.

(** C10. [set_forces] is not atomic on error. When it raises ValueError the
    solver is left as a call with only the items before the offending one
    would leave it: the stored vector has been reset to zeros and those
    items have been written; what was stored before the call is gone. *)
Theorem set_forces_not_atomic (fs : list (string * list R)) (s s' : TensegritySolver.t) :
  solver_wf s -> node_indices_inj s -> NoDup fs.*1 ->
  TensegritySolver.set_forces fs s = (Raise ValueError, s') ->
  let d := TensegritySolver.dim s in
  let n := length (Tensegrity.nodes (TensegritySolver.tensegrity s)) in
  exists pre node force post,
    fs = pre ++ (node, force) :: post /\ length force <> d /\
    TensegritySolver.set_forces pre s = (Ok tt, s') /\
    (forall node' force', (node', force') ∈ pre ->
       exists idx, TensegritySolver.node_indices s !! node' = Some idx /\
                   slot d idx (TensegritySolver.forces s') = force') /\
    (forall idx, idx < n ->
       (forall node', TensegritySolver.node_indices s !! node' = Some idx -> node' ∉ pre.*1) ->
       slot d idx (TensegritySolver.forces s') = np.zeros d) /\
    (forall previous,
       TensegritySolver.set_forces fs (TensegritySolver.with_forces s previous)
       = (Raise ValueError, s')).
Proof.
  intros Hwf Hinj Hnd Hrun d n. pose proof Hrun as Hrun'.
  rewrite set_forces_unfold in Hrun'.
  apply set_forces_loop_raised in Hrun' as (pre & node & force & post & -> & Hf & Hpre);
    [|done|by apply length_zeros].
  exists pre, node, force, post. split_and!; [done..| | |done].
  - intros node' force' Hin.
    apply set_forces_loop_Ok in Hpre as (_ & _ & Hnamed & _);
      [|done..| |by apply length_zeros].
    + by destruct (Hnamed node' force' Hin) as [_ ?].
    + rewrite fmap_app in Hnd. by apply list.NoDup_app in Hnd as [? _].
  - intros idx Hidx Hfree.
    apply set_forces_loop_Ok in Hpre as (_ & _ & _ & Hother);
      [|done..| |by apply length_zeros].
    + cbn [TensegritySolver.with_forces TensegritySolver.node_indices
           TensegritySolver.tensegrity TensegritySolver.dim TensegritySolver.forces] in Hother.
      rewrite Hother by done. by apply slot_zeros.
    + rewrite fmap_app in Hnd. by apply list.NoDup_app in Hnd as [? _].
Qed.

(** * solve *)

(** C1. When the root finder reports failure for the initial guess and
    again for the perturbed guess, [solve] returns normally and leaves the
    store as it was: no node position and no connection force changes. *)
Theorem solve_failure_keeps_state
    (root : (list R -> result (list R)) -> list R -> string -> result OptimizeResult)
    (normal : nat -> list R) (self : TensegritySolver.t) (method : string) (w : World)
    (x0 x1 : list R) (result1 result2 : OptimizeResult) :
  TensegritySolver._create_initial_guess self w = Ok x0 ->
  root (TensegritySolver._objective self w) x0 method = Ok result1 ->
  success result1 = false ->
  np.add x0 (normal (length x0)) = Ok x1 ->
  root (TensegritySolver._objective self w) x1 method = Ok result2 ->
  success result2 = false ->
  TensegritySolver.solve root normal self method w = (Ok tt, w).
Proof.
  intros Hx0 Hr1 Hs1 Hx1 Hr2 Hs2. unfold TensegritySolver.solve.
  erewrite bindM_step by reflexivity.
  erewrite bindM_step by (unfold lift; by rewrite Hx0).
  erewrite bindM_step by (unfold lift; by rewrite Hr1).
  rewrite Hs1. cbn [negb].
  rewrite (bindM_step _ _ w w None); [reflexivity|].
  erewrite bindM_step by (unfold lift; by rewrite Hx1).
  erewrite bindM_step by (unfold lift; by rewrite Hr2).
  by rewrite Hs2.
Qed.

(** * Reduction and expansion of the unknown vector *)

(** C3, at pins that name a later node first: the vector of
    [_create_initial_guess] is expanded by [_get_nodes_from_input] to an
    array whose last row is (6, 5), while node C is at (5, 6). *)
Theorem get_nodes_from_input_unsorted_pins :
  TensegritySolver._create_initial_guess Example.Triangle.solver Example.Triangle.world
    = Ok [2; 3; 4; 6]%R /\
  TensegritySolver._get_nodes_from_input Example.Triangle.solver Example.Triangle.world
    [2; 3; 4; 6]%R = Ok [[1; 2]; [3; 4]; [6; 5]]%R /\
  [[1; 2]; [3; 4]; [6; 5]]%R
    <> (fun r => take 2 (Node.position (node_at Example.Triangle.world r))) <$> [0; 1; 2].
Proof.
  split_and!; [vm_compute; reflexivity..|].
  cbn. intros [= H _]. lra.
Qed.

(** * Deleting and re-inserting entries of a vector *)

Section InsertDeleted.
Context {A : Type}.
Implicit Types full : list A.

(** A position below the part of the vector still to scan is irrelevant. *)
Lemma drop_listed_below full (k j : nat) (obj : list nat) :
  j < k -> np.drop_listed k full (j :: obj) = np.drop_listed k full obj.
Proof.
  revert k. induction full as [|a full IH]; intros k Hj; [done|].
  cbn [np.drop_listed]. rewrite IH by lia.
  destruct (decide (k ∈ obj)) as [Hin|Hnin].
  - rewrite !bool_decide_eq_true_2; [done..|]. by apply list_elem_of_further.
  - rewrite !bool_decide_eq_false_2; [done..|].
    rewrite not_elem_of_cons. split; [lia | done].
Qed.

Lemma drop_listed_nil full (k : nat) : np.drop_listed k full [] = full.
Proof.
  revert k. induction full as [|a full IH]; intros k; [done|].
  cbn [np.drop_listed]. rewrite bool_decide_eq_false_2 by apply not_elem_of_nil.
  by rewrite IH.
Qed.

(** Re-inserting the entry at the least deleted position. *)
Lemma insert_least_deleted full (k j : nat) (v : A) (obj : list nat) :
  full !! j = Some v ->
  Forall (fun u => k + j < u) obj ->
  j <= length (np.drop_listed k full (k + j :: obj)) /\
  take j (np.drop_listed k full (k + j :: obj))
    ++ v :: drop j (np.drop_listed k full (k + j :: obj))
  = np.drop_listed k full obj.
Proof.
  revert k full. induction j as [|j IH]; intros k [|a full] Hv Hobj; try done.
  - cbn in Hv. injection Hv as ->. rewrite Nat.add_0_r.
    cbn [np.drop_listed]. rewrite bool_decide_eq_true_2 by apply list_elem_of_here.
    rewrite bool_decide_eq_false_2; cycle 1.
    { intros Hin. rewrite list.Forall_forall in Hobj. apply Hobj in Hin. lia. }
    rewrite drop_listed_below by lia. split; [lia | done].
  - cbn in Hv. cbn [np.drop_listed].
    assert (k ∉ k + S j :: obj) as Hk.
    { rewrite not_elem_of_cons. split; [lia|]. intros Hin.
      rewrite list.Forall_forall in Hobj. apply Hobj in Hin. lia. }
    rewrite bool_decide_eq_false_2 by done.
    rewrite bool_decide_eq_false_2 by (intros Hin; apply Hk; by apply list_elem_of_further).
    replace (k + S j) with (S k + j) by lia.
    destruct (IH (S k) full Hv) as [Hlen Heq].
    { eapply list.Forall_impl; [exact Hobj|]. intros; cbn in *; lia. }
    split; [cbn [length]; lia|]. cbn [take drop app length]. by rewrite Heq.
Qed.

Lemma np_insert_Ok (arr : list A) (j : nat) (v : A) :
  j <= length arr -> np.insert arr j v = Ok (take j arr ++ v :: drop j arr).
Proof. intros H. unfold np.insert. by rewrite bool_decide_eq_true_2. Qed.

(** Deleting the positions [ps.*1] and inserting them back one by one, in
    increasing order, gives the vector back. *)
Lemma insert_deleted_sorted full (ps : list (nat * A)) (later : list nat) :
  StronglySorted lt (ps.*1 ++ later) ->
  Forall (fun p => full !! p.1 = Some p.2) ps ->
  for_ ps (fun item x => np.insert x item.1 item.2)
       (np.drop_listed 0 full (ps.*1 ++ later))
  = Ok (np.drop_listed 0 full later).
Proof.
  induction ps as [|[j v] ps IH]; intros Hsorted Hgood; [done|].
  cbn [fmap list_fmap fst app] in Hsorted. apply StronglySorted_inv in Hsorted as [Hs Hj].
  apply Forall_cons in Hgood as [Hv Hgood]. cbn [fst snd] in Hv.
  cbn [for_ fmap list_fmap fst app].
  destruct (insert_least_deleted full 0 j v (ps.*1 ++ later) Hv Hj) as [Hlen Heq].
  cbn [Nat.add] in Hlen, Heq.
  cbn [fst snd]. rewrite np_insert_Ok by done. rewrite bind_Ok, Heq.
  by apply IH.
Qed.

End InsertDeleted.

(** * Rows and the flat vector *)

Section Rows.
Context {A : Type}.

Lemma np_array_Ok (d : nat) (rows : list (list A)) :
  Forall (fun row => length row = d) rows -> np.array rows = Ok rows.
Proof.
  intros H. unfold np.array. destruct rows as [|r rows]; [done|].
  rewrite (proj2 (forallb_forall _ _)); [done|].
  intros r' Hin%list_elem_of_In. apply bool_decide_eq_true.
  rewrite list.Forall_forall in H. rewrite (H r' Hin). symmetry. apply H, list_elem_of_here.
Qed.

Lemma length_concat_rows (d : nat) (rows : list (list A)) :
  Forall (fun row => length row = d) rows -> length (concat rows) = d * length rows.
Proof.
  induction 1 as [|row rows Hrow _ IH]; cbn [concat length]; [lia|].
  rewrite length_app, IH, Hrow. lia.
Qed.

Lemma rows_of_concat (d : nat) (rows : list (list A)) :
  Forall (fun row => length row = d) rows ->
  np.rows_of (length rows) d (concat rows) = rows.
Proof.
  induction 1 as [|row rows Hrow _ IH]; [done|].
  cbn [length np.rows_of concat].
  rewrite take_app_length', drop_app_length' by done. by rewrite IH.
Qed.

Lemma reshape_concat (d : nat) (rows : list (list A)) :
  d <> 0 -> Forall (fun row => length row = d) rows ->
  np.reshape (concat rows) d = Ok rows.
Proof.
  intros Hd Hrows. unfold np.reshape. rewrite (length_concat_rows d rows Hrows).
  rewrite bool_decide_eq_true_2; cycle 1.
  { split; [done|]. rewrite Nat.mul_comm. by apply Nat.Div0.mod_mul. }
  rewrite Nat.mul_comm, Nat.div_mul by done. by rewrite rows_of_concat.
Qed.

Lemma concat_rows_lookup (d : nat) (rows : list (list A)) (idx i : nat) (row : list A) (v : A) :
  Forall (fun row => length row = d) rows ->
  rows !! idx = Some row -> row !! i = Some v ->
  concat rows !! (idx * d + i) = Some v.
Proof.
  intros Hrows. revert idx. induction Hrows as [|r rows Hr _ IH]; intros idx Hrow Hv; [done|].
  destruct idx as [|idx]; cbn in Hrow |- *.
  - injection Hrow as ->. by apply lookup_app_l_Some.
  - rewrite lookup_app_r by lia. rewrite Hr.
    replace (d + idx * d + i - d) with (idx * d + i) by lia. by apply IH.
Qed.

End Rows.

(** * Reduction and expansion with pins in increasing order *)

Lemma dict_set_fresh {V} (d : list (nat * V)) (k : nat) (v : V) :
  k ∉ d.*1 -> dict_set d k v = d ++ [(k, v)].
Proof.
  induction d as [|[k' v'] d IH]; intros Hk; [done|].
  cbn [fmap list_fmap fst] in Hk. apply not_elem_of_cons in Hk as [Hne Hk].
  cbn [dict_set app]. rewrite bool_decide_eq_false_2 by done. by rewrite IH.
Qed.

Section SortedPins.
Import TensegritySolver.
Variable s : t.
Variable w : World.

Abbreviation dm := (dim s).
Abbreviation full := (concat (coordinate_array s w)).

Lemma pinned_places_of_cons (node : string) (bools : list bool) (idx k : nat)
    (axes : list nat) :
  node_indices s !! node = Some idx ->
  pinned_places_of s node bools (k :: axes)
  = (if bool_decide (bools !! k = Some true) then [idx * dm + k] else [])
    ++ pinned_places_of s node bools axes.
Proof.
  intros Hidx. unfold pinned_places_of. rewrite Hidx, filter_cons.
  case_decide; [by rewrite bool_decide_eq_true_2 | by rewrite bool_decide_eq_false_2].
Qed.

Lemma delete_axis_flag (node : string) (bools : list bool) (idx k : nat) (b : bool)
    (obj : list nat) :
  node_indices s !! node = Some idx -> bools !! k = Some b ->
  delete_axis s node bools k obj = Ok (if b then obj ++ [idx * dm + k] else obj).
Proof.
  intros Hidx Hb. unfold delete_axis.
  rewrite (proj2 (getitem_Ok _ _ _) Hb), bind_Ok. destruct b; [|done].
  by rewrite (proj2 (getkey_Ok _ _ _) Hidx), bind_Ok.
Qed.

(** The list comprehension of [_create_initial_guess], for one pin. *)
Lemma delete_axis_loop (node : string) (bools : list bool) (idx m k : nat) (obj : list nat) :
  node_indices s !! node = Some idx -> k + m <= length bools ->
  for_ (seq k m) (delete_axis s node bools) obj
  = Ok (obj ++ pinned_places_of s node bools (seq k m)).
Proof.
  intros Hidx. revert k obj. induction m as [|m IH]; intros k obj Hlen.
  { cbn. unfold pinned_places_of. rewrite Hidx. cbn. by rewrite app_nil_r. }
  cbn [seq for_]. rewrite (pinned_places_of_cons _ _ idx) by done.
  destruct (lookup_lt_is_Some_2 bools k) as [b Hb]; [lia|].
  rewrite (delete_axis_flag node bools idx k b) by done. rewrite bind_Ok, IH by lia.
  destruct b.
  - rewrite bool_decide_eq_true_2 by done. by rewrite <- app_assoc.
  - rewrite bool_decide_eq_false_2 by (rewrite Hb; congruence). done.
Qed.

Lemma delete_pin_loop (pins : list (string * list bool)) (obj : list nat) :
  Forall (pin_ok s) pins ->
  for_ pins (delete_pin s) obj
  = Ok (obj ++ concat ((fun pin : string * list bool =>
                          pinned_places_of s pin.1 pin.2 (seq 0 dm)) <$> pins)).
Proof.
  intros Hpins. revert obj. induction Hpins as [|[node bools] pins [[idx Hidx] Hlen] _ IH];
    intros obj.
  { cbn. by rewrite app_nil_r. }
  cbn [for_ fmap list_fmap concat fst snd] in *.
  change (delete_pin s (node, bools) obj)
    with (for_ (seq 0 dm) (delete_axis s node bools) obj).
  rewrite (delete_axis_loop node bools idx) by (done || lia).
  rewrite bind_Ok, IH. by rewrite <- app_assoc.
Qed.

(** The dict of [_get_nodes_from_input], for one pin. *)
Lemma ins_index_axis_loop (node : string) (bools : list bool) (idx m k : nat)
    (acc : list (nat * R)) :
  node_indices s !! node = Some idx ->
  idx < length (Tensegrity.nodes (tensegrity s)) ->
  Forall (fun row => length row = dm) (coordinate_array s w) ->
  k + m <= length bools -> k + m <= dm ->
  NoDup (acc.*1 ++ pinned_places_of s node bools (seq k m)) ->
  Forall (entry_ok s w) acc ->
  exists acc',
    for_ (seq k m) (ins_index_axis s w idx bools) acc = Ok acc' /\
    acc'.*1 = acc.*1 ++ pinned_places_of s node bools (seq k m) /\
    Forall (entry_ok s w) acc'.
Proof.
  intros Hidx Hn Hrows. revert k acc. induction m as [|m IH]; intros k acc Hlen Hdim Hnd Hacc.
  { exists acc. split_and!; [done| |done]. unfold pinned_places_of. rewrite Hidx. cbn.
    by rewrite app_nil_r. }
  cbn [seq for_] in Hnd |- *. rewrite (pinned_places_of_cons _ _ idx) in Hnd |- * by done.
  destruct (lookup_lt_is_Some_2 bools k) as [b Hb]; [lia|].
  change (ins_index_axis s w idx bools k acc)
    with (getitem bools k ≫= fun b : bool =>
            if b then
              getitem (Tensegrity.nodes (tensegrity s)) idx ≫= fun r =>
              getitem (Node.position (node_at w r)) k ≫= fun p =>
              Ok (dict_set acc (idx * dm + k) p)
            else Ok acc).
  rewrite (proj2 (getitem_Ok _ _ _) Hb), bind_Ok.
  destruct b.
  - rewrite bool_decide_eq_true_2 in Hnd |- * by done.
    destruct (lookup_lt_is_Some_2 (Tensegrity.nodes (tensegrity s)) idx) as [r Hr]; [done|].
    assert (coordinate_array s w !! idx = Some (take dm (Node.position (node_at w r)))) as Hrow.
    { unfold coordinate_array. by rewrite list_lookup_fmap, Hr. }
    assert (length (take dm (Node.position (node_at w r))) = dm) as Hrowlen.
    { rewrite list.Forall_forall in Hrows. apply Hrows. by eapply list_elem_of_lookup_2. }
    destruct (lookup_lt_is_Some_2 (take dm (Node.position (node_at w r))) k) as [p Hp];
      [lia|].
    assert (Node.position (node_at w r) !! k = Some p) as Hp'.
    { by rewrite lookup_take_lt in Hp by lia. }
    rewrite (proj2 (getitem_Ok _ _ _) Hr), bind_Ok.
    rewrite (proj2 (getitem_Ok _ _ _) Hp'), !bind_Ok.
    rewrite dict_set_fresh; cycle 1.
    { apply list.NoDup_app in Hnd as (_ & Hdisj & _). intros Hin.
      apply (Hdisj _ Hin). apply list_elem_of_here. }
    destruct (IH (S k) (acc ++ [(idx * dm + k, p)])) as (acc' & Hrun & Hkeys & Hok);
      [lia | lia | | |].
    + rewrite fmap_app. cbn [fmap list_fmap fst]. by rewrite <- app_assoc.
    + apply Forall_app. split; [done|]. constructor; [|done].
      unfold entry_ok. cbn [fst snd]. by eapply concat_rows_lookup.
    + exists acc'. split_and!; [done| |done].
      rewrite Hkeys, fmap_app. cbn [fmap list_fmap fst]. by rewrite <- !app_assoc.
  - rewrite bool_decide_eq_false_2 in Hnd |- * by (rewrite Hb; congruence).
    rewrite bind_Ok. apply IH; (lia || done).
Qed.

Lemma ins_index_pin_loop (pins : list (string * list bool)) (acc : list (nat * R)) :
  solver_wf s ->
  Forall (fun row => length row = dm) (coordinate_array s w) ->
  Forall (pin_ok s) pins ->
  NoDup (acc.*1 ++ concat ((fun pin : string * list bool =>
                              pinned_places_of s pin.1 pin.2 (seq 0 dm)) <$> pins)) ->
  Forall (entry_ok s w) acc ->
  exists acc',
    for_ pins (ins_index_pin s w) acc = Ok acc' /\
    acc'.*1 = acc.*1 ++ concat ((fun pin : string * list bool =>
                                   pinned_places_of s pin.1 pin.2 (seq 0 dm)) <$> pins) /\
    Forall (entry_ok s w) acc'.
Proof.
  intros Hwf Hrows Hpins. revert acc.
  induction Hpins as [|[node bools] pins [[idx Hidx] Hlen] _ IH]; intros acc Hnd Hacc.
  { exists acc. split_and!; [done| |done]. cbn. by rewrite app_nil_r. }
  cbn [for_ fmap list_fmap concat fst snd] in *.
  change (ins_index_pin s w (node, bools) acc)
    with (getkey (node_indices s) node ≫= fun node_index =>
            for_ (seq 0 dm) (ins_index_axis s w node_index bools) acc).
  rewrite (proj2 (getkey_Ok _ _ _) Hidx), bind_Ok.
  rewrite app_assoc in Hnd.
  destruct (ins_index_axis_loop node bools idx dm 0 acc) as (acc1 & Hrun & Hkeys & Hok);
    [done | by eapply Hwf | done | lia | lia | | done |].
  { by apply list.NoDup_app in Hnd as (? & _ & _). }
  rewrite Hrun, bind_Ok. rewrite <- Hkeys in Hnd.
  destruct (IH acc1 Hnd Hok) as (acc' & Hrun' & Hkeys' & Hok').
  exists acc'. split_and!; [done| |done]. by rewrite Hkeys', Hkeys, <- app_assoc.
Qed.

Lemma filter_seq_sorted (P : nat -> Prop) `{forall i, Decision (P i)} (k m : nat) :
  StronglySorted lt (filter P (seq k m)).
Proof.
  revert k. induction m as [|m IH]; intros k; [constructor|].
  cbn [seq]. rewrite filter_cons. case_decide; [|apply IH].
  constructor; [apply IH|]. apply list.Forall_forall. intros i Hi.
  apply list_elem_of_filter in Hi as [_ Hi]. apply elem_of_seq in Hi. lia.
Qed.

Lemma pinned_places_of_slot (node : string) (bools : list bool) (j : nat) :
  j ∈ pinned_places_of s node bools (seq 0 dm) ->
  exists idx, node_indices s !! node = Some idx /\ idx * dm <= j < idx * dm + dm.
Proof.
  unfold pinned_places_of. destruct (node_indices s !! node) as [idx|];
    [|by intros ?%elem_of_nil].
  intros (i & -> & Hi)%list_elem_of_fmap. exists idx. split; [done|].
  apply list_elem_of_filter in Hi as [_ Hi]. apply elem_of_seq in Hi. lia.
Qed.

Lemma pinned_places_of_sorted (node : string) (bools : list bool) :
  StronglySorted lt (pinned_places_of s node bools (seq 0 dm)).
Proof.
  unfold pinned_places_of. destruct (node_indices s !! node) as [idx|]; [|constructor].
  eapply StronglySorted_fmap; [|apply filter_seq_sorted]. intros; lia.
Qed.

(** Pins that list the nodes in increasing order of index list the pinned
    coordinates in increasing order of place. *)
Lemma pinned_places_sorted :
  StronglySorted lt (pin_node_indices s) -> StronglySorted lt (pinned_places s).
Proof.
  unfold pin_node_indices, pinned_places.
  induction (Tensegrity.pins (tensegrity s)) as [|[node bools] pins IH]; [constructor|].
  cbn [omap list_omap fmap list_fmap concat fst snd]. intros Hsorted.
  assert (StronglySorted lt (omap (fun pin : string * list bool => node_indices s !! pin.1) pins))
    as Htail.
  { destruct (node_indices s !! node); [|done].
    by apply StronglySorted_inv in Hsorted as [? _]. }
  apply StronglySorted_app_2; [|apply pinned_places_of_sorted|by apply IH].
  intros j1 j2 Hj1 Hj2. apply pinned_places_of_slot in Hj1 as (idx1 & Hidx1 & Hslot1).
  rewrite Hidx1 in Hsorted. apply StronglySorted_inv in Hsorted as [_ Hlt].
  apply list_elem_of_In, in_concat in Hj2 as (places & Hin & Hj2).
  apply list_elem_of_In in Hin, Hj2.
  apply list_elem_of_fmap in Hin as ([node2 bools2] & -> & Hin). cbn [fst snd] in Hj2.
  apply pinned_places_of_slot in Hj2 as (idx2 & Hidx2 & Hslot2).
  assert (idx1 < idx2) as Hidx.
  { rewrite list.Forall_forall in Hlt. apply Hlt. apply list_elem_of_omap.
    by exists (node2, bools2). }
  nia.
Qed.

(** Pins in node order. When the pin map lists its nodes in
    increasing order of index (each pin naming a node and carrying a flag for
    every axis, each node having at least [dim] coordinates), the vector of
    [_create_initial_guess] is expanded by [_get_nodes_from_input] to the
    per-node coordinate array. *)
Theorem get_nodes_from_input_sorted_pins :
  solver_wf s -> dm <> 0 ->
  Forall (fun row => length row = dm) (coordinate_array s w) ->
  Forall (pin_ok s) (Tensegrity.pins (tensegrity s)) ->
  StronglySorted lt (pin_node_indices s) ->
  exists x0,
    _create_initial_guess s w = Ok x0 /\
    _get_nodes_from_input s w x0 = Ok (coordinate_array s w).
Proof.
  intros Hwf Hdm Hrows Hpins Hsorted%pinned_places_sorted.
  exists (np.drop_listed 0 full (pinned_places s)).
  assert (Hplaces : Forall (fun j => j < length full) (pinned_places s)).
  { rewrite (length_concat_rows dm) by done. unfold coordinate_array. rewrite length_fmap.
    unfold pinned_places. apply list.Forall_forall. intros j Hj.
    apply list_elem_of_In, in_concat in Hj as (places & Hin & Hj).
    apply list_elem_of_In in Hin, Hj.
    apply list_elem_of_fmap in Hin as ([node bools] & -> & Hin).
    unfold pinned_places_of in Hj. cbn [fst snd] in Hj.
    destruct (node_indices s !! node) as [idx|] eqn:Hidx; [|by apply elem_of_nil in Hj].
    apply list_elem_of_fmap in Hj as (i & -> & Hi).
    apply list_elem_of_filter in Hi as [_ Hi]. apply elem_of_seq in Hi.
    pose proof (slot_bounds dm _ idx (Hwf _ _ Hidx)). lia. }
  split.
  - unfold _create_initial_guess. cbn zeta.
    fold (coordinate_array s w). rewrite (np_array_Ok dm) by done. rewrite bind_Ok.
    rewrite delete_pin_loop by done. rewrite bind_Ok. cbn [app].
    fold (pinned_places s). unfold np.delete, np.flatten.
    rewrite (proj2 (forallb_forall _ _)); [done|].
    intros j Hj%list_elem_of_In. apply bool_decide_eq_true.
    rewrite list.Forall_forall in Hplaces. by apply Hplaces.
  - unfold _get_nodes_from_input. cbn zeta.
    destruct (ins_index_pin_loop (Tensegrity.pins (tensegrity s)) [])
      as (ps & Hrun & Hkeys & Hok); [done..| | |].
    { cbn [fmap list_fmap app]. fold (pinned_places s).
      clear -Hsorted. induction Hsorted as [|j l _ IH Hj]; [constructor|].
      apply list.NoDup_cons. split; [|done]. intros Hin.
      rewrite list.Forall_forall in Hj. apply Hj in Hin. lia. }
    { constructor. }
    cbn [fmap list_fmap app] in Hkeys. fold (pinned_places s) in Hkeys.
    rewrite Hrun, bind_Ok.
    pose proof (insert_deleted_sorted full ps []) as Hins.
    rewrite app_nil_r, Hkeys in Hins. rewrite Hins by done.
    rewrite bind_Ok, drop_listed_nil. by apply reshape_concat.
Qed.

End SortedPins.

(** * The derivative of the length *)

Section VectorFacts.

Lemma vadd_zeros_r (v : list R) (n : nat) :
  length v = n -> zip_with Rplus v (np.zeros n) = v.
Proof.
  intros <-. unfold np.zeros. induction v as [|a v IH]; [done|].
  cbn. rewrite IH. f_equal. lra.
Qed.

Lemma vadd_zeros_l (v : list R) (n : nat) :
  length v = n -> zip_with Rplus (np.zeros n) v = v.
Proof.
  intros <-. unfold np.zeros. induction v as [|a v IH]; [done|].
  cbn. rewrite IH. f_equal. lra.
Qed.

Lemma vadd_assoc (a b c : list R) :
  zip_with Rplus (zip_with Rplus a b) c = zip_with Rplus a (zip_with Rplus b c).
Proof.
  revert b c. induction a as [|x a IH]; intros [|y b] [|z c]; try done.
  cbn. rewrite IH. f_equal. lra.
Qed.

Lemma length_at_node (d n idx : nat) (u : list R) :
  idx < n -> length u = d -> length (Spec.at_node d n idx u) = d * n.
Proof.
  intros Hidx Hu. unfold Spec.at_node. rewrite !length_app, !length_zeros.
  pose proof (slot_bounds d n idx Hidx). lia.
Qed.

Lemma length_unit_vector (p q : list R) (len : R) :
  length p = length q -> length (Spec.unit_vector p q len) = length p.
Proof.
  intros H. unfold Spec.unit_vector. rewrite length_fmap, length_zip_with. lia.
Qed.

(** [dl[idx*d : idx*d+d] += u] adds [u] at the slots of node [idx]. *)
Lemma slice_iadd_at_node (dl u : list R) (d n idx : nat) :
  length dl = d * n -> idx < n -> length u = d ->
  np.slice_iadd dl (idx * d) d u = Ok (zip_with Rplus dl (Spec.at_node d n idx u)).
Proof.
  intros Hdl Hidx Hu. pose proof (slot_bounds d n idx Hidx) as Hb.
  unfold np.slice_iadd. rewrite np_add_Ok; cycle 1.
  { rewrite length_take, length_drop. lia. }
  rewrite bind_Ok. f_equal. unfold Spec.at_node.
  rewrite <- (take_drop (idx * d) dl) at 4.
  rewrite <- (take_drop d (drop (idx * d) dl)) at 2.
  rewrite drop_drop.
  rewrite zip_with_app by (rewrite length_take, length_zeros; lia).
  rewrite zip_with_app by (rewrite length_take, length_drop; lia).
  rewrite vadd_zeros_r by (rewrite length_take; lia).
  rewrite vadd_zeros_r by (rewrite length_drop; lia).
  reflexivity.
Qed.

End VectorFacts.

Section LengthDerivative.
Import TensegritySolver.
Variable s : t.
Variable w : World.

Abbreviation d := (dim s).
Abbreviation n := (length (Tensegrity.nodes (tensegrity s))).

Lemma in_linked_solver (node1 node2 : string) :
  match Tensegrity.surface (tensegrity s) with
  | Some sf => in_linked node1 node2 (Surface.linked_nodes sf)
  | None => false
  end = in_linked node1 node2 (solver_linked s).
Proof. unfold solver_linked. by destruct (Tensegrity.surface _). Qed.

Lemma node_distance_resolved (N : list (list R)) (r1 r2 : ref) (e1 e2 : Spec.endpoint) :
  resolves s w N r1 e1 -> resolves s w N r2 e2 ->
  _node_distance s e1.1.1 e2.1.1 N = Ok (Spec.segment_length (solver_linked s) e1 e2).
Proof.
  intros (_ & Hi1 & Hn1 & Hl1) (_ & Hi2 & Hn2 & Hl2). unfold _node_distance.
  rewrite (proj2 (getkey_Ok _ _ _) Hi1), bind_Ok.
  rewrite (proj2 (getitem_Ok _ _ _) Hn1), bind_Ok.
  rewrite (proj2 (getkey_Ok _ _ _) Hi2), bind_Ok.
  rewrite (proj2 (getitem_Ok _ _ _) Hn2), bind_Ok.
  rewrite in_linked_solver. unfold Spec.segment_length.
  destruct (in_linked _ _ _); [done|].
  rewrite np_sub_Ok by congruence. done.
Qed.

Lemma length_segment_derivative (N : list (list R)) (r1 r2 : ref) (e1 e2 : Spec.endpoint) :
  solver_wf s -> resolves s w N r1 e1 -> resolves s w N r2 e2 ->
  length (Spec.segment_derivative d n (solver_linked s) e1 e2) = d * n.
Proof.
  intros Hwf (_ & Hi1 & _ & Hl1) (_ & Hi2 & _ & Hl2). unfold Spec.segment_derivative.
  cbn zeta. case_decide; [apply length_zeros|].
  rewrite length_zip_with, !length_at_node; eauto; try lia;
    rewrite length_unit_vector; congruence.
Qed.

Lemma length_length_derivative (N : list (list R)) (chain : list ref)
    (es : list Spec.endpoint) :
  solver_wf s -> Forall2 (resolves s w N) chain es ->
  length (Spec.length_derivative d n (solver_linked s) es) = d * n.
Proof.
  intros Hwf H. induction H as [|r1 e1 chain es H1 H IH]; [apply length_zeros|].
  destruct H as [|r2 e2 chain es H2 H]; [apply length_zeros|].
  change (length (zip_with Rplus (Spec.segment_derivative d n (solver_linked s) e1 e2)
            (Spec.length_derivative d n (solver_linked s) (e2 :: es))) = d * n).
  rewrite length_zip_with, IH, (length_segment_derivative N r1 r2) by done. lia.
Qed.

(** One segment, its two end points resolved. *)
Lemma length_derivative_segment_resolved (c : Connection.t) (N : list (list R))
    (pre rest : list ref) (r1 r2 : ref) (e1 e2 : Spec.endpoint) (dl : list R) :
  solver_wf s ->
  Connection.nodes c = pre ++ r1 :: r2 :: rest ->
  resolves s w N r1 e1 -> resolves s w N r2 e2 ->
  length dl = d * n ->
  length_derivative_segment s w c N (length pre) dl
  = Ok (zip_with Rplus dl (Spec.segment_derivative d n (solver_linked s) e1 e2)).
Proof.
  intros Hwf Hc H1 H2 Hdl.
  pose proof (node_distance_resolved N r1 r2 e1 e2 H1 H2) as Hdist.
  destruct H1 as (Hname1 & Hi1 & Hn1 & Hl1), H2 as (Hname2 & Hi2 & Hn2 & Hl2).
  unfold length_derivative_segment, node_name. rewrite Hc.
  replace (length pre) with (length pre + 0) at 1 by lia.
  rewrite !getitem_app_r. cbn [getitem lookup list_lookup]. rewrite !bind_Ok.
  rewrite Hname1, Hname2.
  rewrite (proj2 (getkey_Ok _ _ _) Hi1), !bind_Ok.
  rewrite (proj2 (getkey_Ok _ _ _) Hi2), !bind_Ok.
  rewrite (proj2 (getitem_Ok _ _ _) Hn1), !bind_Ok.
  rewrite (proj2 (getitem_Ok _ _ _) Hn2), !bind_Ok.
  rewrite Hdist, !bind_Ok. unfold Spec.segment_derivative. cbn zeta.
  case_decide as Hlen; [by rewrite vadd_zeros_r|].
  set (len := Spec.segment_length (solver_linked s) e1 e2) in *.
  assert (Hdiv : forall v, np.div v len = Ok ((fun a => a / len)%R <$> v)).
  { intros v. unfold np.div. by rewrite decide_False. }
  rewrite (np_sub_Ok e1.2 e2.2), bind_Ok by congruence.
  rewrite Hdiv, bind_Ok.
  rewrite (slice_iadd_at_node _ _ d n), bind_Ok; eauto; cycle 1.
  { rewrite length_fmap, length_zip_with. lia. }
  rewrite (np_sub_Ok e2.2 e1.2), bind_Ok by congruence.
  rewrite Hdiv, bind_Ok.
  rewrite (slice_iadd_at_node _ _ d n); eauto; cycle 1.
  { rewrite length_zip_with, length_at_node; eauto; [lia|].
    rewrite length_fmap, length_zip_with. lia. }
  { rewrite length_fmap, length_zip_with. lia. }
  by rewrite vadd_assoc.
Qed.

(** The loop of [_length_derivative], started in the middle of the chain. *)
Lemma length_derivative_loop (c : Connection.t) (N : list (list R))
    (chain : list ref) (es : list Spec.endpoint) (pre : list ref) (dl : list R) :
  solver_wf s ->
  Connection.nodes c = pre ++ chain ->
  Forall2 (resolves s w N) chain es ->
  length dl = d * n ->
  for_ (seq (length pre) (length chain - 1)) (length_derivative_segment s w c N) dl
  = Ok (zip_with Rplus dl (Spec.length_derivative d n (solver_linked s) es)).
Proof.
  intros Hwf Hc Hres. revert pre dl Hc.
  induction Hres as [|r1 e1 chain es H1 Hres IH]; intros pre dl Hc Hdl.
  { cbn. by rewrite vadd_zeros_r. }
  destruct Hres as [|r2 e2 chain es H2 Hres].
  { cbn. by rewrite vadd_zeros_r. }
  replace (length (r1 :: r2 :: chain) - 1) with (S (length (r2 :: chain) - 1))
    by (simpl; lia).
  rewrite <- cons_seq. cbn [for_].
  rewrite (length_derivative_segment_resolved c N pre chain r1 r2 e1 e2), bind_Ok by done.
  specialize (IH (pre ++ [r1])). rewrite length_app, Nat.add_1_r in IH.
  rewrite IH; cycle 1.
  { by rewrite <- app_assoc. }
  { rewrite length_zip_with, (length_segment_derivative N r1 r2) by done. lia. }
  f_equal. by rewrite vadd_assoc.
Qed.

(** Nothing in a segment divides by zero. *)
Lemma length_derivative_segment_no_division_by_zero (c : Connection.t)
    (N : list (list R)) (i : nat) (dl : list R) :
  length_derivative_segment s w c N i dl <> Raise FloatingPointError.
Proof.
  unfold length_derivative_segment, node_name, _node_distance, getitem, getkey,
    np.slice_iadd, np.sub, np.add, np.div.
  repeat (first
    [ progress cbn [mbind result_bind]
    | match goal with
      | |- context [match ?x with _ => _ end] => destruct x eqn:?
      | |- context [bool_decide ?P] => destruct (bool_decide P) eqn:?
      end ]); try discriminate; try done.
Qed.

End LengthDerivative.

Lemma for_not_raise {X A} (e : exn) (xs : list X) (body : X -> A -> result A) (acc : A) :
  (forall x a, body x a <> Raise e) -> for_ xs body acc <> Raise e.
Proof.
  intros Hbody. revert acc. induction xs as [|x xs IH]; intros acc; [done|].
  cbn [for_]. destruct (body x acc) as [a|e'] eqn:Hb; cbn; [apply IH|].
  intros [= ->]. by apply (Hbody x acc).
Qed.

Section Distance.

Lemma sum_squares_nonneg (v : list R) : (0 <= foldr Rplus 0 ((fun a => a * a) <$> v))%R.
Proof. induction v as [|a v IH]; cbn; [lra | nra]. Qed.

Lemma sum_squares_zero (v : list R) :
  foldr Rplus 0%R ((fun a => a * a)%R <$> v) = 0%R -> Forall (fun a => a = 0%R) v.
Proof.
  induction v as [|a v IH]; cbn; intros H; [constructor|].
  pose proof (sum_squares_nonneg v). constructor; [nra|]. apply IH. nra.
Qed.

Lemma difference_zero (p q : list R) :
  length p = length q -> Forall (fun a => a = 0%R) (zip_with Rminus p q) -> p = q.
Proof.
  revert q. induction p as [|a p IH]; intros [|b q] Hlen H; try done.
  cbn in H. inversion H as [|? ? Hab H']; subst. f_equal; [lra|].
  apply IH; [by injection Hlen | done].
Qed.

(** The distance is 0 exactly when the two points coincide. *)
Lemma euclidean_distance_zero (p q : list R) :
  length p = length q -> Spec.euclidean_distance p q = 0%R <-> p = q.
Proof.
  intros Hlen. unfold Spec.euclidean_distance. split.
  - intros H. apply difference_zero; [done|]. apply sum_squares_zero.
    apply sqrt_eq_0; [apply sum_squares_nonneg | done].
  - intros ->. replace (foldr Rplus 0%R ((fun a => a * a)%R <$> zip_with Rminus q q)) with 0%R;
      [apply sqrt_0|].
    clear Hlen. induction q as [|a q IH]; cbn; [done|]. rewrite <- IH. lra.
Qed.

End Distance.

(** * The derivative of the length with the norm that numpy computes *)

Section ComputedDerivative.
Import TensegritySolver.
Variable norm : list R -> R.
Variable s : t.
Variable w : World.

Abbreviation d := (dim s).
Abbreviation n := (length (Tensegrity.nodes (tensegrity s))).

Lemma computed_node_distance_resolved (N : list (list R)) (r1 r2 : ref)
    (e1 e2 : Spec.endpoint) :
  resolves s w N r1 e1 -> resolves s w N r2 e2 ->
  Computed._node_distance norm s e1.1.1 e2.1.1 N
  = Ok (computed_segment_length norm (solver_linked s) e1 e2).
Proof.
  intros (_ & Hi1 & Hn1 & Hl1) (_ & Hi2 & Hn2 & Hl2). unfold Computed._node_distance.
  rewrite (proj2 (getkey_Ok _ _ _) Hi1), bind_Ok.
  rewrite (proj2 (getitem_Ok _ _ _) Hn1), bind_Ok.
  rewrite (proj2 (getkey_Ok _ _ _) Hi2), bind_Ok.
  rewrite (proj2 (getitem_Ok _ _ _) Hn2), bind_Ok.
  rewrite in_linked_solver. unfold computed_segment_length.
  destruct (in_linked _ _ _); [done|].
  rewrite np_sub_Ok by congruence. done.
Qed.

Lemma length_computed_segment_derivative (N : list (list R)) (r1 r2 : ref)
    (e1 e2 : Spec.endpoint) :
  solver_wf s -> resolves s w N r1 e1 -> resolves s w N r2 e2 ->
  length (computed_segment_derivative norm d n (solver_linked s) e1 e2) = d * n.
Proof.
  intros Hwf (_ & Hi1 & _ & Hl1) (_ & Hi2 & _ & Hl2). unfold computed_segment_derivative.
  cbn zeta. case_decide; [apply length_zeros|].
  rewrite length_zip_with, !length_at_node; eauto; try lia;
    rewrite length_unit_vector; congruence.
Qed.

Lemma length_computed_length_derivative (N : list (list R)) (chain : list ref)
    (es : list Spec.endpoint) :
  solver_wf s -> Forall2 (resolves s w N) chain es ->
  length (computed_length_derivative norm d n (solver_linked s) es) = d * n.
Proof.
  intros Hwf H. induction H as [|r1 e1 chain es H1 H IH]; [apply length_zeros|].
  destruct H as [|r2 e2 chain es H2 H]; [apply length_zeros|].
  change (length (zip_with Rplus (computed_segment_derivative norm d n (solver_linked s) e1 e2)
            (computed_length_derivative norm d n (solver_linked s) (e2 :: es))) = d * n).
  rewrite length_zip_with, IH, (length_computed_segment_derivative N r1 r2) by done. lia.
Qed.

(** One segment, its two end points resolved: nothing is added when the
    computed length is 0, else the differences divided by the computed
    length. *)
Lemma computed_segment_resolved (c : Connection.t) (N : list (list R))
    (pre rest : list ref) (r1 r2 : ref) (e1 e2 : Spec.endpoint) (dl : list R) :
  solver_wf s ->
  Connection.nodes c = pre ++ r1 :: r2 :: rest ->
  resolves s w N r1 e1 -> resolves s w N r2 e2 ->
  length dl = d * n ->
  Computed.length_derivative_segment norm s w c N (length pre) dl
  = Ok (zip_with Rplus dl (computed_segment_derivative norm d n (solver_linked s) e1 e2)).
Proof.
  intros Hwf Hc H1 H2 Hdl.
  pose proof (computed_node_distance_resolved N r1 r2 e1 e2 H1 H2) as Hdist.
  destruct H1 as (Hname1 & Hi1 & Hn1 & Hl1), H2 as (Hname2 & Hi2 & Hn2 & Hl2).
  unfold Computed.length_derivative_segment, node_name. rewrite Hc.
  replace (length pre) with (length pre + 0) at 1 by lia.
  rewrite !getitem_app_r. cbn [getitem lookup list_lookup]. rewrite !bind_Ok.
  rewrite Hname1, Hname2.
  rewrite (proj2 (getkey_Ok _ _ _) Hi1), !bind_Ok.
  rewrite (proj2 (getkey_Ok _ _ _) Hi2), !bind_Ok.
  rewrite (proj2 (getitem_Ok _ _ _) Hn1), !bind_Ok.
  rewrite (proj2 (getitem_Ok _ _ _) Hn2), !bind_Ok.
  rewrite Hdist, !bind_Ok. unfold computed_segment_derivative. cbn zeta.
  case_decide as Hlen; [by rewrite vadd_zeros_r|].
  set (len := computed_segment_length norm (solver_linked s) e1 e2) in *.
  assert (Hdiv : forall v, np.div v len = Ok ((fun a => a / len)%R <$> v)).
  { intros v. unfold np.div. by rewrite decide_False. }
  rewrite (np_sub_Ok e1.2 e2.2), bind_Ok by congruence.
  rewrite Hdiv, bind_Ok.
  rewrite (slice_iadd_at_node _ _ d n), bind_Ok; eauto; cycle 1.
  { rewrite length_fmap, length_zip_with. lia. }
  rewrite (np_sub_Ok e2.2 e1.2), bind_Ok by congruence.
  rewrite Hdiv, bind_Ok.
  rewrite (slice_iadd_at_node _ _ d n); eauto; cycle 1.
  { rewrite length_zip_with, length_at_node; eauto; [lia|].
    rewrite length_fmap, length_zip_with. lia. }
  { rewrite length_fmap, length_zip_with. lia. }
  by rewrite vadd_assoc.
Qed.

(** The loop of [_length_derivative], started in the middle of the chain. *)
Lemma computed_derivative_loop (c : Connection.t) (N : list (list R))
    (chain : list ref) (es : list Spec.endpoint) (pre : list ref) (dl : list R) :
  solver_wf s ->
  Connection.nodes c = pre ++ chain ->
  Forall2 (resolves s w N) chain es ->
  length dl = d * n ->
  for_ (seq (length pre) (length chain - 1)) (Computed.length_derivative_segment norm s w c N) dl
  = Ok (zip_with Rplus dl (computed_length_derivative norm d n (solver_linked s) es)).
Proof.
  intros Hwf Hc Hres. revert pre dl Hc.
  induction Hres as [|r1 e1 chain es H1 Hres IH]; intros pre dl Hc Hdl.
  { cbn. by rewrite vadd_zeros_r. }
  destruct Hres as [|r2 e2 chain es H2 Hres].
  { cbn. by rewrite vadd_zeros_r. }
  replace (length (r1 :: r2 :: chain) - 1) with (S (length (r2 :: chain) - 1))
    by (simpl; lia).
  rewrite <- cons_seq. cbn [for_].
  rewrite (computed_segment_resolved c N pre chain r1 r2 e1 e2), bind_Ok by done.
  specialize (IH (pre ++ [r1])). rewrite length_app, Nat.add_1_r in IH.
  rewrite IH; cycle 1.
  { by rewrite <- app_assoc. }
  { rewrite length_zip_with, (length_computed_segment_derivative N r1 r2) by done. lia. }
  f_equal. by rewrite vadd_assoc.
Qed.

(** Nothing in a segment divides by zero, whatever the norm computes. *)
Lemma computed_segment_no_division_by_zero (c : Connection.t)
    (N : list (list R)) (i : nat) (dl : list R) :
  Computed.length_derivative_segment norm s w c N i dl <> Raise FloatingPointError.
Proof.
  unfold Computed.length_derivative_segment, node_name, Computed._node_distance, getitem,
    getkey, np.slice_iadd, np.sub, np.add, np.div.
  repeat (first
    [ progress cbn [mbind result_bind]
    | match goal with
      | |- context [match ?x with _ => _ end] => destruct x eqn:?
      | |- context [bool_decide ?P] => destruct (bool_decide P) eqn:?
      end ]); try discriminate; try done.
Qed.

End ComputedDerivative.

(** With the exact norm these are the functions of the solver as the other
    theorems have them. *)
Lemma computed_exact (s : TensegritySolver.t) (w : World) (c : Connection.t)
    (N : list (list R)) :
  TensegritySolver.Computed._length_derivative np.norm s w c N
  = TensegritySolver._length_derivative s w c N.
Proof. reflexivity. Qed.

Lemma sum_squares_zeros (v : list R) :
  Forall (fun a => a = 0%R) v -> foldr Rplus 0%R ((fun a => a * a)%R <$> v) = 0%R.
Proof. induction 1 as [|a v -> _ IH]; cbn; [done|]. rewrite IH. lra. Qed.

Lemma least_square_pos : (0 < least_square)%R.
Proof. unfold least_square. apply Rinv_0_lt_compat, pow_lt. lra. Qed.

Lemma underflowing_norm_zero (v : list R) :
  Forall (fun a => a = 0%R) v -> underflowing_norm v = 0%R.
Proof.
  intros Hv. unfold underflowing_norm. rewrite sum_squares_zeros by done.
  rewrite decide_True; [done|apply least_square_pos].
Qed.

Lemma difference_of_equal (p : list R) : Forall (fun a => a = 0%R) (zip_with Rminus p p).
Proof. induction p as [|a p IH]; cbn; [done|]. constructor; [lra|done]. Qed.

(** The gap of the example is positive, and its square is below the least
    square that binary64 arithmetic keeps. *)
Lemma close_gap_pos : (0 < close_gap)%R.
Proof. unfold close_gap. apply Rinv_0_lt_compat, pow_lt. lra. Qed.

Lemma close_gap_square : (close_gap * close_gap < least_square)%R.
Proof.
  unfold close_gap, least_square. rewrite <- Rinv_mult, <- pow_add.
  apply Rinv_lt_contravar.
  - apply Rmult_lt_0_compat; apply pow_lt; lra.
  - apply Rlt_pow; [lra|]. apply Nat.ltb_lt. vm_compute. reflexivity.
Qed.

Lemma underflowing_norm_close_gap : underflowing_norm [close_gap - 0; 0 - 0; 0 - 0]%R = 0%R.
Proof.
  unfold underflowing_norm. rewrite decide_True; [done|].
  cbn [fmap list_fmap foldr]. pose proof close_gap_square. lra.
Qed.

(** In binary64 arithmetic the gap is not 0, and the norm of the difference
    of the rows of D and A is 0. *)
Lemma binary64_norm_underflows :
  PrimFloat.eqb Binary64.gap PrimFloat.zero = false /\
  Binary64.norm [PrimFloat.sub Binary64.gap PrimFloat.zero;
                 PrimFloat.sub PrimFloat.zero PrimFloat.zero;
                 PrimFloat.sub PrimFloat.zero PrimFloat.zero] = PrimFloat.zero.
Proof. split; vm_compute; reflexivity. Qed.

(** With the nodes of the chain resolved, the call returns the sum of the
    contributions of the segments. *)
Lemma computed_length_derivative_returns (norm : list R -> R) (s : TensegritySolver.t)
    (w : World) (c : Connection.t) (N : list (list R)) (es : list Spec.endpoint) :
  solver_wf s -> Forall2 (resolves s w N) (Connection.nodes c) es ->
  TensegritySolver.Computed._length_derivative norm s w c N
  = Ok (computed_length_derivative norm (TensegritySolver.dim s)
          (length (Tensegrity.nodes (TensegritySolver.tensegrity s))) (solver_linked s) es).
Proof.
  intros Hwf Hres. unfold TensegritySolver.Computed._length_derivative. cbn zeta.
  pose proof (computed_derivative_loop norm s w c N (Connection.nodes c) es []
                (np.zeros (TensegritySolver.dim s
                           * length (Tensegrity.nodes (TensegritySolver.tensegrity s))))
                Hwf eq_refl Hres (length_zeros _)) as H.
  cbn [length] in H. rewrite H. f_equal. apply vadd_zeros_l.
  by eapply length_computed_length_derivative.
Qed.

(** C6 (amended). [_length_derivative] never divides by zero, whatever its
    arguments and whatever number the norm computes. When the nodes of the
    connection resolve (their names are indexed and the position array has a
    row of [dim] coordinates for each) it returns the sum of the contributions
    of the segments of the chain: a segment whose computed length is exactly 0
    contributes nothing, and every other segment contributes the difference
    of its end points divided by its computed length, at the slots of each
    end point. The computed length is 0 across a linked pair and, the norm of
    a vector of zeros being 0, between end points that coincide. *)
Theorem length_derivative_total (norm : list R -> R) (s : TensegritySolver.t) (w : World)
    (c : Connection.t) (N : list (list R)) :
  let d := TensegritySolver.dim s in
  let n := length (Tensegrity.nodes (TensegritySolver.tensegrity s)) in
  let linked := solver_linked s in
  TensegritySolver.Computed._length_derivative norm s w c N <> Raise FloatingPointError /\
  (forall es, solver_wf s -> Forall2 (resolves s w N) (Connection.nodes c) es ->
     TensegritySolver.Computed._length_derivative norm s w c N
     = Ok (computed_length_derivative norm d n linked es)) /\
  (forall e1 e2 : Spec.endpoint,
     (computed_segment_length norm linked e1 e2 = 0%R ->
      computed_segment_derivative norm d n linked e1 e2 = np.zeros (d * n)) /\
     (computed_segment_length norm linked e1 e2 <> 0%R ->
      computed_segment_derivative norm d n linked e1 e2
      = zip_with Rplus
          (Spec.at_node d n e1.1.2
             (Spec.unit_vector e1.2 e2.2 (computed_segment_length norm linked e1 e2)))
          (Spec.at_node d n e2.1.2
             (Spec.unit_vector e2.2 e1.2 (computed_segment_length norm linked e1 e2)))) /\
     (in_linked e1.1.1 e2.1.1 linked = true ->
      computed_segment_length norm linked e1 e2 = 0%R) /\
     ((forall v, Forall (fun a => a = 0%R) v -> norm v = 0%R) -> e1.2 = e2.2 ->
      computed_segment_length norm linked e1 e2 = 0%R)).
Proof.
  intros d n linked. split_and!.
  - unfold TensegritySolver.Computed._length_derivative. cbn zeta. apply for_not_raise.
    intros i dl. apply computed_segment_no_division_by_zero.
  - intros es Hwf Hres. by apply computed_length_derivative_returns.
  - intros e1 e2. unfold computed_segment_derivative. cbn zeta. split_and!.
    + intros Hlen. by rewrite decide_True.
    + intros Hlen. by rewrite decide_False.
    + intros Hlinked. unfold computed_segment_length. by rewrite Hlinked.
    + intros Hnorm Heq. unfold computed_segment_length.
      destruct (in_linked _ _ _); [done|]. rewrite Heq. apply Hnorm, difference_of_equal.
Qed.

(** * The length of the residual *)

Section NumpyLengths.

Lemma np_add_length (u v r : list R) : np.add u v = Ok r -> length r = length u.
Proof.
  unfold np.add. case_bool_decide; [|discriminate]. intros [= <-].
  rewrite length_zip_with. lia.
Qed.

Lemma item_iadd_length (arr r : list R) (i : nat) (a : R) :
  np.item_iadd arr i a = Ok r -> length r = length arr.
Proof.
  unfold np.item_iadd. intros (cur & _ & [= <-])%bind_Ok_inv. apply length_insert.
Qed.

Lemma drop_listed_length {A} (arr : list A) (obj : list nat) (k : nat) :
  length (np.drop_listed k arr obj)
  + length (filter (fun i => i ∈ obj) (seq k (length arr))) = length arr.
Proof.
  revert k. induction arr as [|a arr IH]; intros k; [done|].
  cbn [np.drop_listed length seq]. rewrite filter_cons.
  specialize (IH (S k)). case_bool_decide; case_decide; try done; cbn [length]; lia.
Qed.

(** [np.delete] by a set of positions shortens the array by the size of the set. *)
Lemma np_delete_set_length {A} (arr r : list A) (D : gset nat) :
  np.delete arr (elements D) = Ok r -> length r + size D = length arr.
Proof.
  unfold np.delete. destruct (forallb _ _) eqn:Hall; [|discriminate]. intros [= <-].
  pose proof (drop_listed_length arr (elements D) 0) as H.
  enough (length (filter (fun i => i ∈ elements D) (seq 0 (length arr))) = size D) by lia.
  unfold size, set_size. cbn. apply Permutation_length, NoDup_Permutation.
  - apply list.NoDup_filter, NoDup_seq.
  - apply NoDup_elements.
  - intros i. rewrite list_elem_of_filter, elem_of_seq. split; [by intros [? _]|].
    intros Hi. split; [done|]. split; [lia|].
    rewrite forallb_forall in Hall. cbn.
    apply list_elem_of_In, Hall, bool_decide_eq_true in Hi. lia.
Qed.

End NumpyLengths.

Section ObjectiveLength.
Import TensegritySolver.
Variable s : t.

Abbreviation dd := (dim s).

(** The inner loop of [pinned_indices], from axis [k] on. *)
Lemma pin_axis_loop (node : string) (bools : list bool) (m k : nat) (D D' : gset nat) :
  k + m = dd ->
  (forall idx j, node_indices s !! node = Some idx -> j ∈ D ->
     ~ (idx * dd + k <= j < idx * dd + dd)) ->
  for_ (seq k m) (pin_axis s node bools) D = Ok D' ->
  size D' = size D + length (filter (fun b : bool => b = true) (take m (drop k bools))) /\
  (forall j, j ∈ D' ->
     j ∈ D \/ exists idx, node_indices s !! node = Some idx /\ idx * dd <= j < idx * dd + dd).
Proof.
  revert k D. induction m as [|m IH]; intros k D Hk Hfresh Hrun.
  { injection Hrun as <-. rewrite take_0. cbn. split; [lia | auto]. }
  cbn [seq for_] in Hrun. apply bind_Ok_inv in Hrun as (D1 & Hstep & Hrun).
  unfold pin_axis in Hstep. apply bind_Ok_inv in Hstep as (b & Hb & Hstep).
  apply getitem_Ok in Hb. rewrite (drop_S _ _ _ Hb). cbn [take]. rewrite filter_cons.
  destruct b.
  - apply bind_Ok_inv in Hstep as (idx & Hidx & [= <-]). apply getkey_Ok in Hidx.
    apply IH in Hrun as [Hsize Hin]; [|lia|].
    + split.
      * rewrite Hsize, size_union, size_singleton by
          (apply disjoint_singleton_l; intros Hj; apply (Hfresh idx _ Hidx Hj); lia).
        rewrite decide_True by done. simpl. lia.
      * intros j Hj. destruct (Hin j Hj) as [[->%elem_of_singleton|?]%elem_of_union|?];
          [right|by left|by right]. exists idx. split; [done|lia].
    + intros idx' j Hidx' [->%elem_of_singleton|Hj]%elem_of_union.
      * assert (idx' = idx) as -> by congruence. lia.
      * intros ?. apply (Hfresh idx' j Hidx' Hj). lia.
  - injection Hstep as <-. apply IH in Hrun as [Hsize Hin]; [|lia|].
    + split; [|done]. rewrite Hsize, decide_False by done. done.
    + intros idx' j Hidx' Hj ?. apply (Hfresh idx' j Hidx' Hj). lia.
Qed.

(** The outer loop of [pinned_indices], the pins [done_] being treated. *)
Lemma pin_rows_loop (pins : list (string * list bool)) (done_ : list string)
    (D D' : gset nat) :
  node_indices_inj s ->
  NoDup (done_ ++ pins.*1) ->
  (forall j, j ∈ D -> exists node idx,
     node ∈ done_ /\ node_indices s !! node = Some idx /\ idx * dd <= j < idx * dd + dd) ->
  for_ pins (pin_rows s) D = Ok D' ->
  size D' = size D
    + sum_list ((fun pin : string * list bool =>
                   length (filter (fun b : bool => b = true) (take dd pin.2))) <$> pins).
Proof.
  intros Hinj. revert done_ D. induction pins as [|[node bools] pins IH];
    intros done_ D Hnd HD Hrun.
  { injection Hrun as <-. cbn. lia. }
  cbn [for_] in Hrun. apply bind_Ok_inv in Hrun as (D1 & Hstep & Hrun).
  unfold pin_rows in Hstep. cbn [fst snd] in Hstep.
  cbn [fmap list_fmap fst] in Hnd.
  apply pin_axis_loop in Hstep as [Hsize Hin]; [|lia|].
  - apply (IH (done_ ++ [node])) in Hrun.
    + rewrite Hrun, Hsize, drop_0. cbn [fmap list_fmap sum_list snd]. unfold Datatypes.id. lia.
    + by rewrite <- app_assoc.
    + intros j Hj. destruct (Hin j Hj) as [Hold|(idx & Hidx & Hslot)].
      * destruct (HD j Hold) as (node' & idx' & Hn' & Hi' & Hs').
        exists node', idx'. split_and!; [|done|lia..]. apply elem_of_app. by left.
      * exists node, idx. split_and!; [|done|lia..]. apply elem_of_app. right.
        apply list_elem_of_here.
  - intros idx j Hidx Hj Hslot. destruct (HD j Hj) as (node' & idx' & Hn' & Hi' & Hs').
    assert (idx' <> idx) as Hne.
    { intros ->. assert (node' = node) as -> by (by eapply Hinj).
      apply list.NoDup_app in Hnd as (_ & Hdisj & _). apply (Hdisj node Hn').
      apply list_elem_of_here. }
    destruct (slot_disjoint dd idx' idx Hne); lia.
Qed.

Lemma pinned_indices_size (D : gset nat) :
  node_indices_inj s -> NoDup (Tensegrity.pins (tensegrity s)).*1 ->
  pinned_indices s = Ok D -> size D = pinned_axes s.
Proof.
  intros Hinj Hnd Hrun. unfold pinned_indices in Hrun. cbn zeta in Hrun.
  apply (pin_rows_loop _ []) in Hrun; [|done..|].
  - by rewrite Hrun, size_empty.
  - intros j Hj. by apply not_elem_of_empty in Hj.
Qed.

Lemma size_add_row (j : nat) (D : gset nat) :
  size ({[j]} ∪ D) + (if bool_decide (j ∈ D) then 1 else 0) = S (size D).
Proof.
  case_bool_decide as Hj.
  - rewrite subseteq_union_1_L by set_solver. lia.
  - rewrite size_union, size_singleton by set_solver. lia.
Qed.

(** One axis of one linked pair. *)
Lemma couple_axis_spec (node1 node2 : string) (k : nat) (vw vw' : list R)
    (D D' : gset nat) :
  couple_axis s node1 node2 k (vw, D) = Ok (vw', D') ->
  length vw' = length vw /\
  D' = rows_after s node1 node2 k D /\
  size D' + (if both_removed s node1 node2 k D then 1 else 0) = S (size D).
Proof.
  unfold couple_axis, rows_after, both_removed. intros H.
  apply bind_Ok_inv in H as (i1 & Hi1 & H). apply getkey_Ok in Hi1. rewrite Hi1.
  destruct (bool_decide (i1 * dd + k ∈ D)) eqn:H1.
  - apply bind_Ok_inv in H as (i2 & Hi2 & [= <- <-]). apply getkey_Ok in Hi2. rewrite Hi2.
    split_and!; [done..|]. cbn [andb]. apply size_add_row.
  - apply bind_Ok_inv in H as (i2 & Hi2 & H). apply getkey_Ok in Hi2. rewrite Hi2.
    cbn [andb]. destruct (bool_decide (i2 * dd + k ∈ D)) eqn:H2.
    + injection H as <- <-. split_and!; [done..|].
      pose proof (size_add_row (i1 * dd + k) D) as Hs. rewrite H1 in Hs. lia.
    + apply bind_Ok_inv in H as (v2 & _ & H).
      apply bind_Ok_inv in H as (vw1 & Hvw1 & [= <- <-]).
      split_and!; [by eapply item_iadd_length | done |].
      pose proof (size_add_row (i2 * dd + k) D) as Hs. rewrite H2 in Hs. lia.
Qed.

(** The loop over the linked pairs. *)
Lemma couple_pair_loop (linked : list linked_pair) (vw vw' : list R) (D D' : gset nat) :
  for_ linked (couple_pair s) (vw, D) = Ok (vw', D') ->
  length vw' = length vw /\
  size D' + seam_overlap s linked D = size D + 2 * length linked.
Proof.
  revert vw D. induction linked as [|[node1 node2] linked IH]; intros vw D Hrun.
  { injection Hrun as <- <-. cbn. lia. }
  cbn [for_] in Hrun. apply bind_Ok_inv in Hrun as ([vw2 D2] & Hpair & Hrun).
  unfold couple_pair in Hpair. cbn [fst snd] in Hpair.
  apply bind_Ok_inv in Hpair as ([vw1 D1] & Hx & Hy).
  apply couple_axis_spec in Hx as (Hl1 & -> & Hs1).
  apply couple_axis_spec in Hy as (Hl2 & -> & Hs2).
  apply IH in Hrun as [Hl Hs]. split; [congruence|].
  cbn [seam_overlap length]. lia.
Qed.

(** The constraints of a cylinder: two for each linked pair. *)
Lemma pair_constraints_loop (r : R) (N : list (list R)) (linked : list linked_pair)
    (cs cs' : list R) :
  for_ linked (pair_constraints s r N) cs = Ok cs' ->
  length cs' = length cs + 2 * length linked.
Proof.
  revert cs. induction linked as [|[node1 node2] linked IH]; intros cs Hrun.
  { injection Hrun as <-. cbn. lia. }
  cbn [for_] in Hrun. apply bind_Ok_inv in Hrun as (cs1 & Hpair & Hrun).
  apply IH in Hrun. rewrite Hrun. cbn [length].
  unfold pair_constraints in Hpair.
  repeat (apply bind_Ok_inv in Hpair as (? & _ & Hpair)).
  injection Hpair as <-. rewrite !length_app. cbn [length]. lia.
Qed.

(** The connections leave the length of the virtual-work vector alone. *)
Lemma virtual_work_loop_length (w : World) (N : list (list R)) (conns : list ref)
    (vw vw' : list R) :
  for_ conns (fun connection virtual_work =>
    dV ← _spring_connection_energy_derivative s w (conn_at w connection) N;
    np.add virtual_work dV) vw = Ok vw' ->
  length vw' = length vw.
Proof.
  revert vw. induction conns as [|c conns IH]; intros vw Hrun.
  { by injection Hrun as <-. }
  cbn [for_] in Hrun. apply bind_Ok_inv in Hrun as (vw1 & Hstep & Hrun).
  apply bind_Ok_inv in Hstep as (dV & _ & Hadd).
  apply IH in Hrun. apply np_add_length in Hadd. congruence.
Qed.

End ObjectiveLength.

(** C2 (amended). For a structure on a surface, the residual that
    [_objective] returns has [dim * |nodes| - #pinned axes] entries plus one
    entry for every (linked pair, axis) step, x and y, that finds the rows of
    both nodes of the pair removed already; that is for a cylinder, and for
    any other surface type no constraint is appended, which makes the
    residual two entries per linked pair shorter. So the count of the claim
    holds exactly for a cylinder without such a step. *)
Theorem objective_length (s : TensegritySolver.t) (w : World) (x res : list R)
    (sf : Surface.t) :
  node_indices_inj s ->
  NoDup (Tensegrity.pins (TensegritySolver.tensegrity s)).*1 ->
  Tensegrity.surface (TensegritySolver.tensegrity s) = Some sf ->
  TensegritySolver._objective s w x = Ok res ->
  length res + pinned_axes s
    + (if bool_decide (Surface.surface_type sf = "cylinder") then 0
       else 2 * length (Surface.linked_nodes sf))
  = TensegritySolver.dim s * length (Tensegrity.nodes (TensegritySolver.tensegrity s))
    + seam_overlap s (Surface.linked_nodes sf) (removed_by_pins s).
Proof.
  intros Hinj Hnd Hsf Hobj. unfold TensegritySolver._objective in Hobj.
  cbn zeta in Hobj.
  apply bind_Ok_inv in Hobj as (N & _ & Hobj).
  apply bind_Ok_inv in Hobj as (vw1 & Hvw1 & Hobj).
  apply virtual_work_loop_length in Hvw1. rewrite length_zeros in Hvw1.
  apply bind_Ok_inv in Hobj as (vw2 & Hvw2 & Hobj). apply np_add_length in Hvw2.
  apply bind_Ok_inv in Hobj as (D0 & HD0 & Hobj).
  unfold removed_by_pins. rewrite HD0.
  apply pinned_indices_size in HD0; [|done..].
  rewrite Hsf in Hobj.
  apply bind_Ok_inv in Hobj as ([vw3 D1] & Hpairs & Hobj).
  apply couple_pair_loop in Hpairs as [Hvw3 HD1].
  apply bind_Ok_inv in Hobj as (vw4 & Hdel & Hobj). apply np_delete_set_length in Hdel.
  apply bind_Ok_inv in Hobj as (cs & Hcs & [= <-]).
  unfold TensegritySolver._surface_constraints in Hcs. cbn zeta in Hcs.
  apply bind_Ok_inv in Hcs as (N' & _ & Hcs). rewrite Hsf in Hcs.
  unfold np.append. rewrite length_app. case_bool_decide.
  - apply bind_Ok_inv in Hcs as (r & _ & Hcs). apply pair_constraints_loop in Hcs.
    rewrite Hcs. cbn [length]. lia.
  - injection Hcs as <-. cbn [length]. lia.
Qed.

(** C2, as stated, at the seam whose two nodes are both pinned in y: the
    residual has 5 entries, while dim * |nodes| - #pinned axes is 4. *)
Lemma objective_length_both_pinned :
  exists res,
    TensegritySolver._objective Example.Seam.solver Example.Seam.world Example.Seam.x0 = Ok res /\
    length res = 5 /\
    TensegritySolver.dim Example.Seam.solver
      * length (Tensegrity.nodes (TensegritySolver.tensegrity Example.Seam.solver))
      - pinned_axes Example.Seam.solver = 4 /\
    length res
    <> TensegritySolver.dim Example.Seam.solver
         * length (Tensegrity.nodes (TensegritySolver.tensegrity Example.Seam.solver))
       - pinned_axes Example.Seam.solver.
Proof.
  eexists. split_and!; [vm_compute; reflexivity | reflexivity | reflexivity | discriminate].
Qed.

(** * The theorems at concrete structures *)

(** The chain A-B-C of the unit square. *)
Lemma current_length_chain_witness :
  Connection.current_length Example.Square.nodes (Example.Square.connections 0) None
    = Ok (Spec.sum_of_distances Example.Square.nodes [0; 1; 2]) /\
  forall linked,
    Connection.current_length Example.Square.nodes (Example.Square.connections 0) (Some linked)
      = Ok (Spec.chain_length Example.Square.nodes linked [0; 1; 2]).
Proof.
  apply (current_length_chain Example.Square.nodes (Example.Square.connections 0) 3).
  repeat constructor.
Defined.


(** The chain A-B-C of the sheet on the cylinder, whose segment A-B is
    the seam, with the norm that underflows: the seam contributes nothing,
    and neither does a segment between two end points at the place of C. *)
Lemma length_derivative_total_witness :
  let c := Connection.mk [0; 1; 2] [] Connection.STRING 1 1 None None in
  let N := [[0; 0]; [1; 0]; [2; 1]]%R in
  let A : Spec.endpoint := ("A", 0, [0; 0]%R) in
  let B : Spec.endpoint := ("B", 1, [1; 0]%R) in
  let C : Spec.endpoint := ("C", 2, [2; 1]%R) in
  TensegritySolver.Computed._length_derivative underflowing_norm Example.Seam.solver
    Example.Seam.world c N
  = Ok (computed_length_derivative underflowing_norm 2 3 [("A", "B")] [A; B; C]) /\
  computed_segment_derivative underflowing_norm 2 3 [("A", "B")] A B = np.zeros 6 /\
  computed_segment_derivative underflowing_norm 2 3 [("A", "B")] C C = np.zeros 6.
Proof.
  intros c N A B C.
  destruct (length_derivative_total underflowing_norm Example.Seam.solver Example.Seam.world
              c N) as (_ & Hsum & Hseg).
  split_and!.
  - apply Hsum; [apply init_solver_wf|]. repeat constructor.
  - destruct (Hseg A B) as (Hzero & _ & Hlinked & _). apply Hzero, Hlinked. reflexivity.
  - destruct (Hseg C C) as (Hzero & _ & _ & Hsame). apply Hzero, Hsame; [|reflexivity].
    apply underflowing_norm_zero.
Defined.

(** C6, as stated, at the unit square with D moved to 2^-665 from A: the
    end points of the chain D-A do not coincide and are not linked, and the
    exact length of the segment is 2^-665, not 0. The square of the gap
    underflows, the computed length is 0 and the segment contributes
    nothing, where the unit vector has the entry 1 at the x slot of D. *)
Lemma length_derivative_skips_close_points :
  let c := Example.Square.connections 2 in
  let D : Spec.endpoint := ("D", 3, [close_gap; 0; 0]%R) in
  let A : Spec.endpoint := ("A", 0, [0; 0; 0]%R) in
  Forall2 (resolves Example.Square.solver Example.Square.world N_close)
    (Connection.nodes c) [D; A] /\
  D.2 <> A.2 /\
  in_linked "D" "A" (solver_linked Example.Square.solver) = false /\
  Spec.segment_length (solver_linked Example.Square.solver) D A = close_gap /\
  close_gap <> 0%R /\
  TensegritySolver.Computed._length_derivative underflowing_norm Example.Square.solver
    Example.Square.world c N_close = Ok (np.zeros 12) /\
  Spec.length_derivative 3 4 (solver_linked Example.Square.solver) [D; A] !! 9 = Some 1%R.
Proof.
  intros c D A. pose proof close_gap_pos as Hpos.
  assert (Hres : Forall2 (resolves Example.Square.solver Example.Square.world N_close)
                   (Connection.nodes c) [D; A]) by (repeat constructor).
  assert (Hexact : Spec.segment_length (solver_linked Example.Square.solver) D A = close_gap).
  { unfold Spec.segment_length, Spec.euclidean_distance. cbn.
    replace ((close_gap - 0) * (close_gap - 0)
             + ((0 - 0) * (0 - 0) + ((0 - 0) * (0 - 0) + 0)))%R
      with (close_gap * close_gap)%R by lra.
    apply sqrt_square. lra. }
  split_and!; try done.
  - intros [= H]. lra.
  - lra.
  - rewrite (computed_length_derivative_returns _ _ _ _ _ [D; A]); [|apply init_solver_wf|done].
    f_equal. cbn [computed_length_derivative]. unfold computed_segment_derivative.
    cbn zeta. unfold computed_segment_length. cbn [in_linked].
    change (in_linked D.1.1 A.1.1 (solver_linked Example.Square.solver)) with false.
    cbn iota. change (zip_with Rminus D.2 A.2) with [close_gap - 0; 0 - 0; 0 - 0]%R.
    rewrite underflowing_norm_close_gap, decide_True by done.
    apply vadd_zeros_r. reflexivity.
  - cbn [Spec.length_derivative]. unfold Spec.segment_derivative. cbn zeta.
    rewrite Hexact, decide_False by lra. cbn. f_equal. field. lra.
Qed.

(** Outside the data model: [Connection] accepts a negative stiffness. At
    a STRING of stiffness -1 and rest length 1 whose current length is 0 the
    length is below the rest length and the stored force is 1, not 0. *)
Lemma update_force_negative_stiffness :
  let c := Connection.mk [0; 1] [] Connection.STRING (-1) 1 None None in
  (0 < Connection.initial_length c)%R /\
  Connection.force (Connection.update_force c 0) = Some 1%R /\
  Connection.force (Connection.update_force c 0) <> Some 0%R.
Proof.
  cbn. unfold py_max0.
  destruct (decide (0 < -1 * (0 - 1))%R) as [_|Hn]; [|exfalso; lra].
  split_and!; [lra | f_equal; lra | intros [= H]; lra].
Qed.

(** The unit square with a root finder that fails twice. *)
Lemma solve_failure_keeps_state_witness :
  TensegritySolver.solve Example.Square.root_fails Example.Square.no_noise
    Example.Square.solver "lm" Example.Square.world
  = (Ok tt, Example.Square.world).
Proof.
  eapply (solve_failure_keeps_state Example.Square.root_fails Example.Square.no_noise
            Example.Square.solver "lm" Example.Square.world);
    [vm_compute; reflexivity | reflexivity | reflexivity
    | vm_compute; reflexivity | reflexivity | reflexivity].
Defined.

(** The seam: 5 entries, 2 pinned axes, 3 nodes of 2 coordinates, 1 step
    that finds both rows removed. *)
Lemma objective_length_witness :
  exists res,
    TensegritySolver._objective Example.Seam.solver Example.Seam.world Example.Seam.x0 = Ok res /\
    length res + 2 + 0 = 2 * 3 + 1.
Proof.
  eexists. split; [vm_compute; reflexivity|].
  apply (objective_length Example.Seam.solver Example.Seam.world Example.Seam.x0 _
           Example.Seam.cylinder);
    [apply init_node_indices_inj | compute_done | reflexivity | vm_compute; reflexivity].
Defined.

(** The unit square: its one control is lengthened by 1/2. *)
Lemma change_control_lengths_witness :
  exists w',
    Tensegrity.change_control_lengths Example.Square.tensegrity [1 / 2]%R Example.Square.world
      = (Ok tt, w') /\
    node_at w' = node_at Example.Square.world /\
    Connection.initial_length (conn_at w' 0) = (2 + 1 / 2)%R.
Proof.
  destruct (change_control_lengths_spec Example.Square.tensegrity [1 / 2]%R
              Example.Square.world) as (_ & _ & Hmatch).
  destruct (Hmatch eq_refl) as (w' & Hrun & Hnodes & _ & _ & Hith).
  exists w'. split_and!; [done..|].
  apply (Hith ltac:(compute_done) 0 0 (1 / 2)%R); reflexivity.
Defined.

(** The triangle: forces on A and C are stored; with a force on C of one
    component instead of two the call raises. *)
Lemma set_forces_replaces_witness :
  let s := Example.Triangle.solver in
  let fs := [("A", [1; 2]%R); ("C", [7; 8]%R)] in
  (exists s',
     TensegritySolver.set_forces fs s = (Ok tt, s') /\
     (forall node force, (node, force) ∈ fs ->
        exists idx, TensegritySolver.node_indices s !! node = Some idx /\
                    slot 2 idx (TensegritySolver.forces s') = force) /\
     (forall idx, idx < 3 ->
        (forall node, TensegritySolver.node_indices s !! node = Some idx -> node ∉ fs.*1) ->
        slot 2 idx (TensegritySolver.forces s') = np.zeros 2)) /\
  (TensegritySolver.set_forces [("A", [1; 2]%R); ("C", [7]%R)] s).1 = Raise ValueError.
Proof.
  intros s fs. split.
  - destruct (set_forces_replaces fs s) as (_ & Hstored & _ & Hknown);
      [apply init_solver_wf | apply init_node_indices_inj | compute_done |].
    destruct Hknown as [Hreturns _]; [repeat constructor; by eexists|].
    destruct Hreturns as [s' Hrun]; [by repeat constructor|].
    exists s'. destruct (Hstored s' Hrun) as (_ & _ & Hnamed & Hother). by split_and!.
  - destruct (set_forces_replaces [("A", [1; 2]%R); ("C", [7]%R)] s) as (_ & _ & _ & Hknown);
      [apply init_solver_wf | apply init_node_indices_inj | compute_done |].
    destruct Hknown as [_ Hraises]; [repeat constructor; by eexists|].
    apply Hraises. apply Exists_cons_tl, Exists_cons_hd. cbn. lia.
Defined.

(** The unit square, built, driven through three calls, and reset. *)
Lemma reset_control_lengths_restores_witness :
  let init := Tensegrity.__init__ [0; 1; 2; 3] [0; 1; 2; 3; 4] None (Some [0]) None None
                Example.Square.world in
  let calls := [Change [1 / 2]%R;
                Solve Example.Square.solver "lm" Example.Square.no_noise;
                Change [1; 2]%R] in
  exists w',
    Tensegrity.reset_control_lengths Example.Square.tensegrity
      (run_calls Example.Square.root_stays Example.Square.tensegrity init.2 calls)
    = (Ok tt, w') /\
    forall control, control ∈ Tensegrity.controls Example.Square.tensegrity ->
      Connection.initial_length (conn_at w' control)
      = Connection.initial_length (conn_at Example.Square.world control).
Proof.
  intros init calls.
  apply (reset_control_lengths_restores Example.Square.root_stays
           [0; 1; 2; 3] [0; 1; 2; 3; 4] None (Some [0]) None None
           Example.Square.world init.2 Example.Square.tensegrity calls).
  fold init. rewrite (surjective_pairing init) at 1.
  f_equal; vm_compute; reflexivity.
Defined.

(** The triangle with nines stored, then a call that fails at C. *)
Lemma set_forces_not_atomic_witness :
  let s := TensegritySolver.with_forces Example.Triangle.solver [9; 9; 9; 9; 9; 9]%R in
  let fs := [("A", [1; 2]%R); ("C", [7]%R)] in
  exists pre node force post,
    fs = pre ++ (node, force) :: post /\ length force <> 2 /\
    TensegritySolver.set_forces pre s = (Ok tt, (TensegritySolver.set_forces fs s).2).
Proof.
  intros s fs.
  destruct (set_forces_not_atomic fs s (TensegritySolver.set_forces fs s).2)
    as (pre & node & force & post & Hfs & Hlen & Hpre & _);
    [apply init_solver_wf | apply init_node_indices_inj | compute_done | |].
  - rewrite (surjective_pairing (TensegritySolver.set_forces fs s)) at 1.
    f_equal; vm_compute; reflexivity.
  - by exists pre, node, force, post.
Defined.

(** What the failed call of the last lemma leaves: the nines stored before
    are gone, the force of A has been written. *)
Example set_forces_loses_previous_forces :
  TensegritySolver.forces
    (TensegritySolver.set_forces [("A", [1; 2]%R); ("C", [7]%R)]
       (TensegritySolver.with_forces Example.Triangle.solver [9; 9; 9; 9; 9; 9]%R)).2
  = [1; 2; 0; 0; 0; 0]%R.
Proof. vm_compute. reflexivity. Qed.

(** The seam, whose pins are in node order. *)
Lemma get_nodes_from_input_sorted_pins_witness :
  exists x0,
    TensegritySolver._create_initial_guess Example.Seam.solver Example.Seam.world = Ok x0 /\
    TensegritySolver._get_nodes_from_input Example.Seam.solver Example.Seam.world x0
    = Ok (coordinate_array Example.Seam.solver Example.Seam.world).
Proof.
  apply get_nodes_from_input_sorted_pins.
  - apply init_solver_wf.
  - discriminate.
  - repeat constructor.
  - repeat constructor; by eexists.
  - repeat constructor.
Defined.

(** * The unit square of tests/test_optimization.py *)

Ltac sqrt_of_one :=
  repeat match goal with
         | |- context [sqrt ?x] =>
             replace (sqrt x) with 1%R
               by (symmetry; replace x with 1%R by lra; apply sqrt_1)
         end.

(** test_node_distance: the distance between A and B is 1. *)
Example node_distance_A_B :
  TensegritySolver._node_distance Example.Square.solver "A" "B" Example.Square.N = Ok 1%R.
Proof.
  etrans.
  { apply (node_distance_resolved Example.Square.solver Example.Square.world
             Example.Square.N 0 1 ("A", 0, [0; 0; 0]%R) ("B", 1, [1; 0; 0]%R));
      repeat constructor. }
  f_equal. unfold Spec.segment_length, Spec.euclidean_distance. cbn.
  sqrt_of_one. reflexivity.
Qed.

(** test_node_distance: the distance between A and C is the square root of 2. *)
Example node_distance_A_C :
  TensegritySolver._node_distance Example.Square.solver "A" "C" Example.Square.N
  = Ok (sqrt 2).
Proof.
  etrans.
  { apply (node_distance_resolved Example.Square.solver Example.Square.world
             Example.Square.N 0 2 ("A", 0, [0; 0; 0]%R) ("C", 2, [1; 1; 0]%R));
      repeat constructor. }
  f_equal. unfold Spec.segment_length, Spec.euclidean_distance. cbn. f_equal. lra.
Qed.

(** test_connection_length, on the data structure: the chain A-B-C has length 2. *)
Example current_length_A_B_C :
  Connection.current_length Example.Square.nodes (Example.Square.connections 0) None
  = Ok 2%R.
Proof.
  rewrite (current_length_default _ _ 3) by (repeat constructor).
  f_equal. cbn. unfold Spec.euclidean_distance. cbn. sqrt_of_one. lra.
Qed.

(** * update_forces *)

Section UpdateForces.
Variable t : Tensegrity.t.

Lemma with_connections_id : with_connections t (Tensegrity.connections t) = t.
Proof. by destruct t. Qed.

Lemma update_forces_cons (c : ref) (conns : list ref) (w : World) :
  Tensegrity.update_forces (with_connections t (c :: conns)) w =
  match Connection.current_length (node_at w) (conn_at w c) (surface_links t) with
  | Ok L =>
      Tensegrity.update_forces (with_connections t conns)
        (set_conn c (Connection.update_force (conn_at w c) L) w)
  | Raise e => (Raise e, w)
  end.
Proof.
  unfold Tensegrity.update_forces. cbn [with_connections Tensegrity.connections
    Tensegrity.surface for_M]. fold (surface_links t).
  unfold mbind at 1, M_bind at 1. unfold mbind at 1, M_bind at 1. cbn [get].
  unfold mbind at 1, M_bind at 1. unfold lift at 1.
  by destruct (Connection.current_length _ _ _).
Qed.

(** Whatever its outcome, [update_forces] writes nothing but forces. *)
Lemma update_forces_frame (conns : list ref) (w w' : World) (r : result unit) :
  Tensegrity.update_forces (with_connections t conns) w = (r, w') ->
  node_at w' = node_at w /\
  forall c, conn_at w' c = Connection.set_force (conn_at w c) (Connection.force (conn_at w' c)).
Proof.
  revert w. induction conns as [|c0 conns IH]; intros w Hrun.
  { injection Hrun as <- <-. split; [done|]. intros c. by destruct (conn_at w c). }
  rewrite update_forces_cons in Hrun.
  destruct (Connection.current_length _ _ _) as [L|e].
  - apply IH in Hrun as [Hn Hc]. split; [done|]. intros c. rewrite Hc at 1.
    rewrite conn_at_set_conn. destruct (decide (c0 = c)) as [->|]; [|done].
    by destruct (conn_at w c).
  - injection Hrun as <- <-. split; [done|]. intros c. by destruct (conn_at w c).
Qed.

(** When it returns, every connection of the list has the force of the
    force law at its current length, and no other connection has changed. *)
Lemma update_forces_Ok (conns : list ref) (w w' : World) :
  Tensegrity.update_forces (with_connections t conns) w = (Ok tt, w') ->
  (forall c, c ∈ conns ->
     exists L, Connection.current_length (node_at w) (conn_at w c) (surface_links t) = Ok L /\
               conn_at w' c = Connection.update_force (conn_at w c) L) /\
  (forall c, c ∉ conns -> conn_at w' c = conn_at w c).
Proof.
  revert w. induction conns as [|c0 conns IH]; intros w Hrun.
  { injection Hrun as <-. split; [|done]. by intros c ?%elem_of_nil. }
  rewrite update_forces_cons in Hrun.
  destruct (Connection.current_length _ _ _) as [L0|e] eqn:HL0; [|discriminate].
  destruct (IH _ Hrun) as [Hin Hout]. split.
  - intros c Hc. destruct (decide (c ∈ conns)) as [Hc'|Hc'].
    + destruct (Hin c Hc') as (L & HL & Hupd). exists L. rewrite Hupd.
      cbn [node_at set_conn] in HL. rewrite conn_at_set_conn in HL |- *.
      by destruct (decide (c0 = c)) as [->|].
    + apply elem_of_cons in Hc as [->|]; [|done]. exists L0. split; [done|].
      rewrite Hout, conn_at_set_conn by done. by rewrite decide_True.
  - intros c [Hne Hc]%not_elem_of_cons. rewrite Hout, conn_at_set_conn by done.
    by rewrite decide_False.
Qed.

(** It returns when every connection of the list has a length. *)
Lemma update_forces_runs (conns : list ref) (w : World) :
  (forall c, c ∈ conns ->
     exists L, Connection.current_length (node_at w) (conn_at w c) (surface_links t) = Ok L) ->
  exists w', Tensegrity.update_forces (with_connections t conns) w = (Ok tt, w').
Proof.
  revert w. induction conns as [|c0 conns IH]; intros w Hlen.
  { by exists w. }
  rewrite update_forces_cons.
  destruct (Hlen c0) as [L0 HL0]; [apply list_elem_of_here|]. rewrite HL0.
  apply IH. intros c Hc. destruct (Hlen c) as [L HL]; [by apply list_elem_of_further|].
  exists L. cbn [node_at set_conn]. rewrite conn_at_set_conn.
  by destruct (decide (c0 = c)) as [->|].
Qed.

End UpdateForces.


(** X2. Calling [update_forces] again, the nodes not having moved, returns
    again and leaves every connection as the first call left it. *)
Theorem update_forces_idempotent (t : Tensegrity.t) (w w1 : World) :
  Tensegrity.update_forces t w = (Ok tt, w1) ->
  exists w2,
    Tensegrity.update_forces t w1 = (Ok tt, w2) /\
    node_at w2 = node_at w1 /\
    forall c, conn_at w2 c = conn_at w1 c.
Proof.
  intros Hrun. rewrite <- (with_connections_id t) in Hrun at 1.
  pose proof (update_forces_frame t _ _ _ _ Hrun) as [Hn Hforce].
  pose proof (update_forces_Ok t _ _ _ Hrun) as [Hin Hout].
  assert (Hsame : forall c L,
            Connection.current_length (node_at w) (conn_at w c) (surface_links t) = Ok L ->
            Connection.current_length (node_at w1) (conn_at w1 c) (surface_links t) = Ok L).
  { intros c L HL. by rewrite Hn, Hforce. }
  destruct (update_forces_runs t (Tensegrity.connections t) w1) as [w2 Hrun2].
  { intros c Hc. destruct (Hin c Hc) as (L & HL & _). exists L. by apply Hsame. }
  exists w2. pose proof (update_forces_frame t _ _ _ _ Hrun2) as [Hn2 _].
  pose proof (update_forces_Ok t _ _ _ Hrun2) as [Hin2 Hout2].
  rewrite (with_connections_id t) in Hrun2. split_and!; [done..|].
  intros c. destruct (decide (c ∈ Tensegrity.connections t)) as [Hc|Hc]; [|by apply Hout2].
  destruct (Hin c Hc) as (L & HL & Hupd). destruct (Hin2 c Hc) as (L2 & HL2 & Hupd2).
  rewrite (Hsame c L HL) in HL2. injection HL2 as <-.
  rewrite Hupd2, Hupd. by destruct (conn_at w c).
Qed.

(** The unit square, its forces updated once. *)
Lemma update_forces_idempotent_witness :
  let w1 := (Tensegrity.update_forces Example.Square.tensegrity Example.Square.world).2 in
  exists w2,
    Tensegrity.update_forces Example.Square.tensegrity w1 = (Ok tt, w2) /\
    node_at w2 = node_at w1 /\
    forall c, conn_at w2 c = conn_at w1 c.
Proof.
  intros w1. apply (update_forces_idempotent _ Example.Square.world).
  unfold w1.
  rewrite (surjective_pairing
             (Tensegrity.update_forces Example.Square.tensegrity Example.Square.world)) at 1.
  f_equal; vm_compute; reflexivity.
Defined.


(** * The constructors *)

Lemma enumerate_from_app {X} (k : nat) (xs ys : list X) :
  enumerate_from k (xs ++ ys) = enumerate_from k xs ++ enumerate_from (k + length xs) ys.
Proof.
  revert k. induction xs as [|x xs IH]; intros k; cbn.
  - by rewrite Nat.add_0_r.
  - rewrite IH. do 3 f_equal. lia.
Qed.

Lemma node_indices_init_iff (w : World) (t : Tensegrity.t) (name : string) (i : nat) :
  TensegritySolver.node_indices (TensegritySolver.__init__ w t) !! name = Some i <->
  (exists r, Tensegrity.nodes t !! i = Some r /\ Node.name (node_at w r) = name) /\
  (forall j r, i < j -> Tensegrity.nodes t !! j = Some r -> Node.name (node_at w r) <> name).
Proof.
  cbn [TensegritySolver.__init__ TensegritySolver.node_indices]. unfold enumerate.
  induction (Tensegrity.nodes t) as [|x l IH] using rev_ind.
  { cbn. rewrite lookup_empty. split; [done|]. by intros [(r & Hr & _) _]. }
  rewrite enumerate_from_app, foldl_app. cbn [enumerate_from foldl Nat.add].
  rewrite lookup_insert. case_decide as Hname.
  - split.
    + intros [= <-]. split.
      * exists x. split; [|done]. by rewrite lookup_app_r, Nat.sub_diag by lia.
      * intros j r Hj Hr. apply lookup_lt_Some in Hr. rewrite length_app in Hr. cbn in Hr. lia.
    + intros [(r & Hr & _) Hlast]. f_equal.
      pose proof (lookup_lt_Some _ _ _ Hr) as Hlt. rewrite length_app in Hlt. cbn in Hlt.
      destruct (decide (i = length l)) as [|Hne]; [done|]. exfalso.
      apply (Hlast (length l) x); [lia| |done].
      by rewrite lookup_app_r, Nat.sub_diag by lia.
  - rewrite IH. split.
    + intros [(r & Hr & Hn) Hlast]. split.
      * exists r. split; [|done]. by apply lookup_app_l_Some.
      * intros j r' Hj Hr'. destruct (decide (j < length l)) as [Hlt|Hge].
        -- rewrite lookup_app_l in Hr' by done. by eapply Hlast.
        -- rewrite lookup_app_r in Hr' by lia.
           destruct (j - length l) as [|k]; [|done]. injection Hr' as <-. congruence.
    + intros [(r & Hr & Hn) Hlast].
      destruct (decide (i < length l)) as [Hlt|Hge].
      * rewrite lookup_app_l in Hr by done. split; [by exists r|].
        intros j r' Hj Hr'. apply (Hlast j r'); [done|]. by apply lookup_app_l_Some.
      * rewrite lookup_app_r in Hr by lia.
        destruct (i - length l) as [|k]; [|done]. injection Hr as <-. congruence.
Qed.

(** X3. The solver's index maps a name to the place of the LAST node of the
    structure that has this name: a name is indexed exactly when a node has
    it, and of two nodes of one name the later one is found. *)
Theorem solver_init_node_indices (w : World) (t : Tensegrity.t) (name : string) (i : nat) :
  TensegritySolver.node_indices (TensegritySolver.__init__ w t) !! name = Some i <->
  (exists r, Tensegrity.nodes t !! i = Some r /\ Node.name (node_at w r) = name) /\
  (forall j r, i < j -> Tensegrity.nodes t !! j = Some r -> Node.name (node_at w r) <> name).
Proof. apply node_indices_init_iff. Qed.

Lemma Node_copy_Ok (n : Node.t) (d : nat) :
  d = 2 \/ d = 3 -> length (Node.position n) = d -> Node.copy n = Ok n.
Proof.
  intros Hd Hlen. unfold Node.copy, Node.__init__.
  rewrite bool_decide_eq_false_2 by lia. by destruct n.
Qed.

Lemma copies_loop (node_at : ref -> Node.t) (d : nat) (nodes : list ref)
    (copies : list Node.t) :
  d = 2 \/ d = 3 ->
  Forall (fun r => length (Node.position (node_at r)) = d) nodes ->
  for_ nodes (fun node copies => c ← Node.copy (node_at node); Ok (copies ++ [c])) copies
  = Ok (copies ++ (node_at <$> nodes)).
Proof.
  intros Hd Hnodes. revert copies.
  induction Hnodes as [|r nodes Hr _ IH]; intros copies; cbn [for_ fmap list_fmap].
  - by rewrite app_nil_r.
  - rewrite (Node_copy_Ok _ d), !bind_Ok, IH, <- app_assoc by done. done.
Qed.

(** X4. A connection made without a rest length, over nodes of one
    dimensionality (2 or 3), is made at rest: its rest length is the sum of
    the distances along its chain, which is its current length, so that the
    force that [update_force] stores at this length is 0, for a string and
    for a bar; it keeps the nodes as they are at this moment and has no
    force yet. *)
Theorem Connection_init_at_rest (node_at : ref -> Node.t) (nodes : list ref)
    (connection_type : Connection.ConnectionType) (stiffness : R) (name : option string)
    (d : nat) :
  d = 2 \/ d = 3 ->
  Forall (fun r => length (Node.position (node_at r)) = d) nodes ->
  exists c,
    Connection.__init__ node_at nodes connection_type stiffness None name = Ok c /\
    Connection.nodes c = nodes /\
    Connection.nodes_original c = node_at <$> nodes /\
    Connection.force c = None /\
    Connection.initial_length c = Spec.sum_of_distances node_at nodes /\
    Connection.current_length node_at c None = Ok (Connection.initial_length c) /\
    Connection.force (Connection.update_force c (Connection.initial_length c)) = Some 0%R.
Proof.
  intros Hd Hnodes. unfold Connection.__init__.
  rewrite (copies_loop node_at d) by done. rewrite bind_Ok. cbn [app].
  rewrite (current_length_default node_at _ d) by done. rewrite bind_Ok.
  cbn [default Connection.nodes]. rewrite chain_length_no_links.
  eexists. split; [done|]. cbn [Connection.nodes Connection.nodes_original Connection.force
    Connection.initial_length]. split_and!; try done.
  - rewrite (current_length_default node_at _ d) by done.
    cbn [default Connection.nodes]. by rewrite chain_length_no_links.
  - unfold Connection.update_force. cbn [Connection.connection_type Connection.stiffness
      Connection.initial_length Connection.set_force Connection.force].
    rewrite Rminus_diag, Rmult_0_r. f_equal.
    destruct connection_type; [|done]. unfold py_max0. rewrite decide_False; [done|lra].
Qed.

(** The chain A-B-C of the unit square, as a string. *)
Lemma Connection_init_at_rest_witness :
  exists c,
    Connection.__init__ Example.Square.nodes [0; 1; 2] Connection.STRING 1 None None = Ok c /\
    Connection.nodes c = [0; 1; 2] /\
    Connection.nodes_original c = Example.Square.nodes <$> [0; 1; 2] /\
    Connection.force c = None /\
    Connection.initial_length c = Spec.sum_of_distances Example.Square.nodes [0; 1; 2] /\
    Connection.current_length Example.Square.nodes c None = Ok (Connection.initial_length c) /\
    Connection.force (Connection.update_force c (Connection.initial_length c)) = Some 0%R.
Proof.
  apply (Connection_init_at_rest Example.Square.nodes [0; 1; 2] Connection.STRING 1 None 3).
  - right. reflexivity.
  - repeat constructor.
Defined.

(** X5. The dimension that a structure made without one hands to its solver:
    2 on a surface; without a surface, over at least one node, the common
    number [d] of coordinates of the nodes, so that every row of the
    coordinate array then has [d] entries. The constructor moves no node. *)
Theorem Tensegrity_init_dim nodes connections pins controls surface (w0 w1 : World)
    (t : Tensegrity.t) (d : nat) :
  Tensegrity.__init__ nodes connections pins controls surface None w0 = (Ok t, w1) ->
  nodes <> [] ->
  d = 2 \/ d = 3 ->
  Forall (fun r => length (Node.position (node_at w0 r)) = d) nodes ->
  let solver := TensegritySolver.__init__ w1 t in
  node_at w1 = node_at w0 /\
  TensegritySolver.dim solver = match surface with Some _ => 2 | None => d end /\
  (surface = None -> Forall (fun row => length row = d) (coordinate_array solver w1)).
Proof.
  intros Hinit Hne Hd Hnodes solver.
  assert (Hdim : node_at w1 = node_at w0 /\ Tensegrity.nodes t = nodes /\
                 Tensegrity.dim t
                 = match surface with
                   | Some _ => Tensegrity.Dim2_5
                   | None => if decide (d = 2) then Tensegrity.Dim2 else Tensegrity.Dim3
                   end).
  { unfold Tensegrity.__init__ in Hinit.
    apply bindM_Ok_inv in Hinit as (w & s1 & Hget & H). injection Hget as <- <-.
    apply bindM_Ok_inv in H as ([] & s2 & Hupd & H).
    apply bindM_Ok_inv in H as (w & s3 & Hget & H). injection Hget as <- <-.
    injection H as <- <-.
    apply (update_forces_frame _ connections) in Hupd as [Hn _].
    split_and!; [done..|]. cbn [Tensegrity.dim].
    destruct surface as [sf|]; [done|]. cbn [bool_decide is_Some decide_rel].
    rewrite bool_decide_eq_false_2 by (by intros [? [=]]).
    rewrite Hn. destruct nodes as [|r nodes]; [done|].
    pose proof (proj1 (list.Forall_cons _ _ _) Hnodes) as [Hr _]. destruct Hd as [->| ->].
    - cbn [existsb]. by rewrite Hr, bool_decide_eq_true_2.
    - rewrite decide_False by lia.
      replace (existsb _ _) with false; [done|]. symmetry.
      apply not_true_is_false. intros (r' & Hin & Hlen)%existsb_exists.
      apply bool_decide_eq_true_1 in Hlen. rewrite Forall_forall in Hnodes.
      specialize (Hnodes r' ltac:(by apply list_elem_of_In)). cbn beta in Hnodes, Hlen. by rewrite Hnodes in Hlen. }
  destruct Hdim as (Hn & Hnodes' & Hdim). split; [done|].
  assert (Hs : TensegritySolver.dim solver = match surface with Some _ => 2 | None => d end).
  { subst solver. cbn [TensegritySolver.__init__ TensegritySolver.dim]. rewrite Hdim.
    destruct surface; [done|]. destruct Hd as [->| ->]; done. }
  split; [done|]. intros ->. unfold coordinate_array.
  rewrite Forall_fmap. subst solver. cbn [TensegritySolver.__init__ TensegritySolver.tensegrity].
  rewrite Hnodes', Hn. eapply Forall_impl; [exact Hnodes|]. intros r Hr. cbn.
  cbn in Hs. cbn beta in Hr. rewrite Hs, length_take, Hr. lia.
Qed.

(** The unit square, built without a dimension. *)
Lemma Tensegrity_init_dim_witness :
  let init := Tensegrity.__init__ [0; 1; 2; 3] [0; 1; 2; 3; 4] None (Some [0]) None None
                Example.Square.world in
  let solver := TensegritySolver.__init__ init.2 Example.Square.tensegrity in
  node_at init.2 = node_at Example.Square.world /\
  TensegritySolver.dim solver = 3 /\
  (@None Surface.t = None -> Forall (fun row => length row = 3) (coordinate_array solver init.2)).
Proof.
  intros init.
  apply (Tensegrity_init_dim [0; 1; 2; 3] [0; 1; 2; 3; 4] None (Some [0]) None
           Example.Square.world init.2 Example.Square.tensegrity 3).
  - rewrite (surjective_pairing init) at 1. f_equal; vm_compute; reflexivity.
  - done.
  - right. reflexivity.
  - repeat constructor.
Defined.

(** * Distances and lengths as the solver computes them *)

Lemma same_set_sym (n1 n2 : string) (p : linked_pair) : same_set n1 n2 p = same_set n2 n1 p.
Proof. unfold same_set. apply bool_decide_ext. tauto. Qed.

Lemma in_linked_sym (n1 n2 : string) (linked : list linked_pair) :
  in_linked n1 n2 linked = in_linked n2 n1 linked.
Proof.
  unfold in_linked. induction linked as [|p linked IH]; [done|].
  cbn [existsb]. by rewrite IH, same_set_sym.
Qed.

Lemma euclidean_distance_sym (p q : list R) :
  Spec.euclidean_distance p q = Spec.euclidean_distance q p.
Proof.
  unfold Spec.euclidean_distance. f_equal. revert q.
  induction p as [|a p IH]; intros [|b q]; cbn; [done..|]. rewrite IH. lra.
Qed.

Lemma euclidean_distance_nonneg (p q : list R) : (0 <= Spec.euclidean_distance p q)%R.
Proof. apply sqrt_pos. Qed.

(** X6. A distance that [_node_distance] returns is not negative, and the
    two nodes taken in the other order have the same distance. *)
Theorem node_distance_symmetric (s : TensegritySolver.t) (node1 node2 : string)
    (N : list (list R)) (dist : R) :
  TensegritySolver._node_distance s node1 node2 N = Ok dist ->
  TensegritySolver._node_distance s node2 node1 N = Ok dist /\ (0 <= dist)%R.
Proof.
  unfold TensegritySolver._node_distance. intros H.
  apply bind_Ok_inv in H as (i1 & Hi1 & H). apply bind_Ok_inv in H as (N1 & HN1 & H).
  apply bind_Ok_inv in H as (i2 & Hi2 & H). apply bind_Ok_inv in H as (N2 & HN2 & H).
  rewrite Hi2, bind_Ok, HN2, bind_Ok, Hi1, bind_Ok, HN1, bind_Ok.
  replace (match Tensegrity.surface (TensegritySolver.tensegrity s) with
           | Some sf => in_linked node2 node1 (Surface.linked_nodes sf)
           | None => false
           end)
    with (match Tensegrity.surface (TensegritySolver.tensegrity s) with
          | Some sf => in_linked node1 node2 (Surface.linked_nodes sf)
          | None => false
          end)
    by (destruct (Tensegrity.surface _); [apply in_linked_sym | done]).
  destruct (match Tensegrity.surface _ with Some _ => _ | None => _ end).
  { injection H as <-. split; [done | lra]. }
  apply bind_Ok_inv in H as (dv & Hsub & [= <-]).
  pose proof (norm_sub_distance _ _ _ Hsub) as Hnorm.
  unfold np.sub in Hsub |- *. case_bool_decide as Hlen; [|done].
  rewrite bool_decide_eq_true_2 by done. rewrite bind_Ok.
  rewrite Hnorm. split; [|apply euclidean_distance_nonneg].
  f_equal. unfold np.norm. apply euclidean_distance_sym.
Qed.

(** The nodes A and B of the unit square. *)
Lemma node_distance_symmetric_witness :
  TensegritySolver._node_distance Example.Square.solver "B" "A" Example.Square.N = Ok 1%R
  /\ (0 <= 1)%R.
Proof.
  apply (node_distance_symmetric Example.Square.solver "A" "B" Example.Square.N 1%R).
  apply node_distance_A_B.
Defined.

Section ConnectionLength.
Import TensegritySolver.
Variable s : t.
Variable w : World.
Variable N : list (list R).

Lemma row_holds_resolves (r : ref) :
  row_holds s w N r ->
  exists i, resolves s w N r (Node.name (node_at w r), i, Node.position (node_at w r)).
Proof. intros (i & Hi & Hrow & Hlen). exists i. by repeat split. Qed.

Lemma node_distance_row_holds (r1 r2 : ref) :
  row_holds s w N r1 -> row_holds s w N r2 ->
  _node_distance s (Node.name (node_at w r1)) (Node.name (node_at w r2)) N
  = Ok (if in_linked (Node.name (node_at w r1)) (Node.name (node_at w r2)) (solver_linked s)
        then 0%R
        else Spec.euclidean_distance (Node.position (node_at w r1))
               (Node.position (node_at w r2))).
Proof.
  intros [i1 H1]%row_holds_resolves [i2 H2]%row_holds_resolves.
  apply (node_distance_resolved s w N r1 r2 _ _ H1 H2).
Qed.

Lemma node_name_at (c : Connection.t) (pre rest : list ref) (r : ref) :
  Connection.nodes c = pre ++ r :: rest ->
  node_name w c (length pre) = Ok (Node.name (node_at w r)).
Proof.
  intros Hc. unfold node_name. rewrite Hc.
  replace (length pre) with (length pre + 0) by lia.
  by rewrite getitem_app_r.
Qed.

(** The loop of [_connection_length], started in the middle of the chain. *)
Lemma connection_length_loop (c : Connection.t) (chain pre : list ref) (acc : R) :
  Connection.nodes c = pre ++ chain ->
  Forall (row_holds s w N) chain ->
  for_ (seq (length pre) (length chain - 1)) (fun i length =>
    name1 ← node_name w c i;
    name2 ← node_name w c (i + 1);
    d ← _node_distance s name1 name2 N;
    Ok (length + d)%R) acc
  = Ok (acc + Spec.chain_length (node_at w) (solver_linked s) chain)%R.
Proof.
  intros Hc Hrows. revert pre acc Hc.
  induction Hrows as [|r1 chain H1 Hrows IH]; intros pre acc Hc.
  { cbn. f_equal. lra. }
  destruct Hrows as [|r2 chain H2 Hrows].
  { cbn. f_equal. lra. }
  replace (length (r1 :: r2 :: chain) - 1) with (S (length (r2 :: chain) - 1))
    by (simpl; lia).
  rewrite <- cons_seq. cbn [for_].
  rewrite (node_name_at c pre (r2 :: chain) r1), bind_Ok by done.
  assert (Hc' : Connection.nodes c = (pre ++ [r1]) ++ r2 :: chain) by (by rewrite <- app_assoc).
  pose proof (node_name_at c _ _ _ Hc') as Hname2.
  rewrite length_app in Hname2. cbn [length] in Hname2.
  rewrite Hname2, bind_Ok.
  rewrite node_distance_row_holds, !bind_Ok by done.
  specialize (IH (pre ++ [r1])). rewrite length_app, Nat.add_1_r in IH.
  rewrite IH by done.
  rewrite chain_length_cons2. f_equal. lra.
Qed.

Lemma connection_length_chain (c : Connection.t) :
  Forall (row_holds s w N) (Connection.nodes c) ->
  _connection_length s w c N
  = Ok (Spec.chain_length (node_at w) (solver_linked s) (Connection.nodes c)).
Proof.
  intros Hrows. unfold _connection_length.
  pose proof (connection_length_loop c (Connection.nodes c) [] 0%R eq_refl Hrows) as H.
  cbn [length] in H. rewrite H. f_equal. lra.
Qed.

End ConnectionLength.

(** X7. Where the position array holds the positions of the nodes of a
    connection, the length that the solver computes for it
    ([_connection_length]) is the length that the data structure computes
    ([current_length] with the linked pairs of the surface), the one from
    which [update_forces] takes the force. *)
Theorem connection_length_current_length (s : TensegritySolver.t) (w : World)
    (N : list (list R)) (c : Connection.t) :
  Forall (row_holds s w N) (Connection.nodes c) ->
  TensegritySolver._connection_length s w c N
  = Connection.current_length (node_at w) c (surface_links (TensegritySolver.tensegrity s)).
Proof.
  intros Hrows. rewrite connection_length_chain by done.
  rewrite (current_length_default _ _ (TensegritySolver.dim s)); cycle 1.
  { eapply Forall_impl; [exact Hrows|]. by intros r (i & _ & _ & Hlen). }
  do 2 f_equal. unfold solver_linked, surface_links.
  by destruct (Tensegrity.surface _).
Qed.

Lemma Square_row_holds (r : ref) :
  r < 4 -> row_holds Example.Square.solver Example.Square.world Example.Square.N r.
Proof.
  intros Hr. destruct r as [|[|[|[|r]]]]; [| | | |lia].
  - exists 0. by repeat split.
  - exists 1. by repeat split.
  - exists 2. by repeat split.
  - exists 3. by repeat split.
Qed.

(** The chain A-B-C of the unit square. *)
Lemma connection_length_current_length_witness :
  TensegritySolver._connection_length Example.Square.solver Example.Square.world
    (Example.Square.connections 0) Example.Square.N
  = Connection.current_length Example.Square.nodes (Example.Square.connections 0) None.
Proof.
  apply (connection_length_current_length Example.Square.solver Example.Square.world
           Example.Square.N (Example.Square.connections 0)).
  repeat (apply Forall_cons; split; [apply Square_row_holds; lia|]). apply Forall_nil_2.
Defined.

(** * The energy of a connection *)

Lemma relaxed_energy_derivative (s : TensegritySolver.t) (w : World) (c : Connection.t)
    (N : list (list R)) (L : R) (dV : list R) :
  TensegritySolver._connection_length s w c N = Ok L ->
  relaxed c L ->
  TensegritySolver._spring_connection_energy_derivative s w c N = Ok dV ->
  Forall (fun a => a = 0%R) dV.
Proof.
  intros HL Hrel. unfold TensegritySolver._spring_connection_energy_derivative.
  rewrite HL, bind_Ok.
  destruct (match Connection.connection_type c with
            | Connection.STRING => _ | Connection.BAR => _ end) eqn:Hslack.
  { intros [= <-]. unfold np.zeros. apply Forall_replicate. done. }
  cbn zeta. intros H. apply bind_Ok_inv in H as (dl & _ & [= <-]).
  assert (L = Connection.initial_length c) as ->.
  { destruct Hrel as [|[Hs Hlt]]; [done|]. rewrite Hs in Hslack.
    by rewrite bool_decide_eq_true_2 in Hslack. }
  unfold np.scale. rewrite Forall_fmap. apply Forall_true. intros a. cbn. nra.
Qed.

(** X8. The energy that [_spring_connection_energy] returns is not negative
    when the stiffness is not; a relaxed connection (at its rest length, or a
    slack string) stores no energy, and with a positive stiffness no other one
    does; and for a relaxed connection the vector that
    [_spring_connection_energy_derivative] returns is 0 in every entry. *)
Theorem spring_energy_relaxed (s : TensegritySolver.t) (w : World) (c : Connection.t)
    (N : list (list R)) (L : R) :
  TensegritySolver._connection_length s w c N = Ok L ->
  exists E,
    TensegritySolver._spring_connection_energy s w c N = Ok E /\
    ((0 <= Connection.stiffness c)%R -> (0 <= E)%R) /\
    (relaxed c L -> E = 0%R) /\
    ((0 < Connection.stiffness c)%R -> E = 0%R -> relaxed c L) /\
    (relaxed c L -> forall dV,
       TensegritySolver._spring_connection_energy_derivative s w c N = Ok dV ->
       Forall (fun a => a = 0%R) dV).
Proof.
  intros HL. unfold TensegritySolver._spring_connection_energy. rewrite HL, bind_Ok.
  destruct (match Connection.connection_type c with
            | Connection.STRING => _ | Connection.BAR => _ end) eqn:Hslack.
  - exists 0%R. split_and!; [done|lra|done| |].
    + intros _ _. right. destruct (Connection.connection_type c); [|done].
      by apply bool_decide_eq_true_1 in Hslack.
    + intros Hrel dV. by apply relaxed_energy_derivative with (L := L).
  - eexists. split; [done|]. split_and!.
    + intros Hk. pose proof (pow2_ge_0 (L - Connection.initial_length c)). nra.
    + intros [->|[Hs Hlt]]; [lra|]. rewrite Hs in Hslack.
      by rewrite bool_decide_eq_true_2 in Hslack.
    + intros Hk HE. left.
      assert ((L - Connection.initial_length c) ^ 2 = 0)%R as H0 by nra.
      cbn [pow] in H0. nra.
    + intros Hrel dV. by apply relaxed_energy_derivative with (L := L).
Qed.

Lemma Square_chain_length_A_B_C :
  TensegritySolver._connection_length Example.Square.solver Example.Square.world
    (Example.Square.connections 0) Example.Square.N = Ok 2%R.
Proof.
  rewrite connection_length_chain; cycle 1.
  { repeat (apply Forall_cons; split; [apply Square_row_holds; lia|]). apply Forall_nil_2. }
  f_equal. cbn. unfold Spec.euclidean_distance. cbn. sqrt_of_one. lra.
Qed.

(** The chain A-B-C of the unit square, a string at its rest length 2. *)
Lemma spring_energy_relaxed_witness :
  let s := Example.Square.solver in
  let w := Example.Square.world in
  let c := Example.Square.connections 0 in
  let N := Example.Square.N in
  exists E,
    TensegritySolver._spring_connection_energy s w c N = Ok E /\
    ((0 <= Connection.stiffness c)%R -> (0 <= E)%R) /\
    (relaxed c 2 -> E = 0%R) /\
    ((0 < Connection.stiffness c)%R -> E = 0%R -> relaxed c 2) /\
    (relaxed c 2 -> forall dV,
       TensegritySolver._spring_connection_energy_derivative s w c N = Ok dV ->
       Forall (fun a => a = 0%R) dV).
Proof.
  intros s w c N. apply (spring_energy_relaxed s w c N 2%R).
  apply Square_chain_length_A_B_C.
Defined.

(** * Expansion of any reduced vector *)

Section InsertSorted.
Context {A : Type}.

(** Deleting positions above [k + j] leaves entry [j] in place. *)
Lemma drop_listed_lookup_below (full : list A) (k j : nat) (obj : list nat) :
  Forall (fun u => k + j < u) obj -> np.drop_listed k full obj !! j = full !! j.
Proof.
  revert k full. induction j as [|j IH]; intros k [|a full] Hobj; try done.
  - cbn [np.drop_listed]. rewrite bool_decide_eq_false_2; [done|].
    intros Hin. rewrite list.Forall_forall in Hobj. apply Hobj in Hin. lia.
  - cbn [np.drop_listed]. rewrite bool_decide_eq_false_2; cycle 1.
    { intros Hin. rewrite list.Forall_forall in Hobj. apply Hobj in Hin. lia. }
    cbn. apply IH. eapply list.Forall_impl; [exact Hobj|]. intros; cbn in *; lia.
Qed.

Lemma sorted_below_bound (j b : nat) (l : list nat) :
  StronglySorted lt (j :: l) -> Forall (fun u => u < b) (j :: l) -> j + length (j :: l) <= b.
Proof.
  revert j. induction l as [|u l IH]; intros j Hs Hb.
  - apply Forall_cons in Hb as [Hj _]. cbn. lia.
  - apply StronglySorted_inv in Hs as [Hs Hj]. apply Forall_cons in Hb as [_ Hb].
    apply Forall_cons in Hj as [Hju _]. specialize (IH u Hs Hb). cbn [length] in *. lia.
Qed.

(** Inserting entries one by one at increasing positions, into any vector
    that they fill up without a gap: the entries land at their positions and
    the vector is what is left when they are deleted again. *)
Lemma insert_sorted_any (ps : list (nat * A)) (x : list A) :
  StronglySorted lt ps.*1 ->
  Forall (fun j => j < length x + length ps) ps.*1 ->
  exists full,
    for_ ps (fun item x => np.insert x item.1 item.2) x = Ok full /\
    length full = length x + length ps /\
    np.drop_listed 0 full ps.*1 = x /\
    Forall (fun p => full !! p.1 = Some p.2) ps.
Proof.
  revert x. induction ps as [|[j v] ps IH]; intros x Hs Hb.
  { exists x. split_and!; [done|cbn; lia|apply drop_listed_nil|done]. }
  cbn [fmap list_fmap fst] in Hs, Hb.
  assert (Hj : j <= length x).
  { pose proof (sorted_below_bound j _ _ Hs Hb) as H.
    cbn [length] in H. rewrite length_fmap in H. lia. }
  apply StronglySorted_inv in Hs as [Hs Hlt]. apply Forall_cons in Hb as [_ Hb].
  cbn [for_ fst snd]. rewrite np_insert_Ok, bind_Ok by done.
  set (x1 := take j x ++ v :: drop j x).
  assert (Hx1 : length x1 = S (length x)).
  { unfold x1. rewrite length_app, length_take. cbn [length]. rewrite length_drop. lia. }
  destruct (IH x1 Hs) as (full & Hrun & Hlen & Hdrop & Hvals).
  { eapply list.Forall_impl; [exact Hb|]. intros u Hu. cbn in *. lia. }
  assert (Hfj : full !! j = Some v).
  { rewrite <- (drop_listed_lookup_below full 0 j ps.*1) by done. rewrite Hdrop.
    unfold x1. rewrite lookup_app_r by (rewrite length_take; lia).
    rewrite length_take. by replace (j - j `min` length x) with 0 by lia. }
  exists full. split_and!; [done|cbn [length]; lia| |by constructor].
  cbn [fmap list_fmap fst].
  destruct (insert_least_deleted full 0 j v ps.*1 Hfj Hlt) as [Hle Heq].
  cbn [Nat.add] in Hle, Heq. rewrite Hdrop in Heq. unfold x1 in Heq.
  apply app_inj_1 in Heq as [Ht Hd]; cycle 1.
  { rewrite !length_take. lia. }
  injection Hd as Hd.
  rewrite <- (take_drop j (np.drop_listed 0 full (j :: ps.*1))), Ht, Hd.
  apply take_drop.
Qed.

Lemma length_rows_of (n d : nat) (l : list A) : length (np.rows_of n d l) = n.
Proof. revert l. induction n as [|n IH]; intros l; cbn; [done|]. by rewrite IH. Qed.

Lemma rows_of_row_length (n d : nat) (l : list A) :
  length l = d * n -> Forall (fun row => length row = d) (np.rows_of n d l).
Proof.
  revert l. induction n as [|n IH]; intros l Hl; cbn [np.rows_of]; [done|].
  constructor.
  - rewrite length_take. lia.
  - apply IH. rewrite length_drop. lia.
Qed.

Lemma concat_rows_of (n d : nat) (l : list A) :
  length l = d * n -> concat (np.rows_of n d l) = l.
Proof.
  revert l. induction n as [|n IH]; intros l Hl; cbn [np.rows_of concat].
  - destruct l; [done|]. cbn in Hl. lia.
  - rewrite IH by (rewrite length_drop; lia). apply take_drop.
Qed.

Lemma np_reshape_Ok (n d : nat) (l : list A) :
  d <> 0 -> length l = d * n -> np.reshape l d = Ok (np.rows_of n d l).
Proof.
  intros Hd Hl. unfold np.reshape. rewrite Hl.
  rewrite bool_decide_eq_true_2; cycle 1.
  { split; [done|]. rewrite Nat.mul_comm. by apply Nat.Div0.mod_mul. }
  by rewrite Nat.mul_comm, Nat.div_mul.
Qed.

End InsertSorted.

(** * The unknown vector and the residual of a structure without a surface *)

Lemma filter_flags_length (bools : list bool) (k m : nat) :
  length (filter (fun i => bools !! i = Some true) (seq k m))
  = length (filter (fun b : bool => b = true) (take m (drop k bools))).
Proof.
  revert k. induction m as [|m IH]; intros k; [by rewrite take_0|].
  cbn [seq]. rewrite filter_cons. destruct (bools !! k) as [b|] eqn:Hb.
  - rewrite (drop_S _ _ _ Hb). cbn [take]. rewrite filter_cons.
    destruct b.
    + rewrite !decide_True by done. cbn [length]. by rewrite IH.
    + rewrite !decide_False by done. by rewrite IH.
  - rewrite decide_False by done. rewrite IH.
    apply lookup_ge_None in Hb. rewrite !drop_ge by lia. by rewrite !take_nil.
Qed.

Lemma zeros_all_zero (n : nat) : Forall (fun a => a = 0%R) (np.zeros n).
Proof. by apply Forall_replicate. Qed.

Lemma all_zero_zeros (v : list R) : Forall (fun a => a = 0%R) v -> v = np.zeros (length v).
Proof. induction 1 as [|a v -> _ IH]; [done|]. cbn. by rewrite IH at 1. Qed.

Lemma drop_listed_Forall {A} (P : A -> Prop) (arr : list A) (obj : list nat) (k : nat) :
  Forall P arr -> Forall P (np.drop_listed k arr obj).
Proof.
  intros H. revert k. induction H as [|a arr Ha _ IH]; intros k; [done|].
  cbn [np.drop_listed]. case_bool_decide; [apply IH | constructor; [done | apply IH]].
Qed.

(** [np.delete] looks only at which positions are listed. *)
Lemma drop_listed_same_members {A} (arr : list A) (obj obj' : list nat) (k : nat) :
  (forall j, j ∈ obj <-> j ∈ obj') -> np.drop_listed k arr obj = np.drop_listed k arr obj'.
Proof.
  intros Hsame. revert k. induction arr as [|a arr IH]; intros k; [done|].
  cbn [np.drop_listed]. rewrite IH. by rewrite (bool_decide_ext _ _ (Hsame k)).
Qed.

Lemma np_delete_Ok {A} (arr : list A) (obj : list nat) :
  Forall (fun j => j < length arr) obj -> np.delete arr obj = Ok (np.drop_listed 0 arr obj).
Proof.
  intros H. unfold np.delete. rewrite (proj2 (forallb_forall _ _)); [done|].
  intros j Hj%list_elem_of_In. apply bool_decide_eq_true.
  rewrite list.Forall_forall in H. by apply H.
Qed.

Lemma sorted_NoDup (l : list nat) : StronglySorted lt l -> NoDup l.
Proof.
  induction 1 as [|j l _ IH Hj]; [constructor|].
  apply list.NoDup_cons. split; [|done]. intros Hin.
  rewrite list.Forall_forall in Hj. apply Hj in Hin. lia.
Qed.

Lemma drop_listed_NoDup_length {A} (arr : list A) (obj : list nat) :
  NoDup obj -> Forall (fun j => j < length arr) obj ->
  length (np.drop_listed 0 arr obj) + length obj = length arr.
Proof.
  intros Hnd Hb. pose proof (drop_listed_length arr obj 0) as H.
  enough (length (filter (fun i => i ∈ obj) (seq 0 (length arr))) = length obj) by lia.
  apply Permutation_length, NoDup_Permutation; [apply list.NoDup_filter, NoDup_seq|done|].
  intros i. rewrite list_elem_of_filter, elem_of_seq. split; [by intros [? _]|].
  intros Hi. split; [done|]. rewrite list.Forall_forall in Hb. apply Hb in Hi. lia.
Qed.

Section Unknowns.
Import TensegritySolver.
Variable s : t.
Variable w : World.

Abbreviation dm := (dim s).
Abbreviation nn := (length (Tensegrity.nodes (tensegrity s))).
Abbreviation full := (concat (coordinate_array s w)).

Hypothesis Hwf : solver_wf s.
Hypothesis Hpins : Forall (pin_ok s) (Tensegrity.pins (tensegrity s)).

Lemma pinned_places_bound : Forall (fun j => j < dm * nn) (pinned_places s).
Proof.
  unfold pinned_places. apply list.Forall_forall. intros j Hj.
  apply list_elem_of_In, in_concat in Hj as (places & Hin & Hj).
  apply list_elem_of_In in Hin, Hj.
  apply list_elem_of_fmap in Hin as ([node bools] & -> & Hin).
  apply pinned_places_of_slot in Hj as (idx & Hidx & Hslot).
  pose proof (slot_bounds dm _ idx (Hwf _ _ Hidx)). lia.
Qed.

Lemma length_pinned_places : length (pinned_places s) = pinned_axes s.
Proof.
  unfold pinned_places, pinned_axes. pose proof Hpins as H. revert H.
  generalize (Tensegrity.pins (tensegrity s)). intros pins H.
  induction H as [|[node bools] pins [[idx Hidx] Hlen] _ IH]; [done|].
  cbn [fmap list_fmap concat sum_list sum_list_with fst snd] in *.
  rewrite length_app, IH. f_equal.
  unfold pinned_places_of. rewrite Hidx, length_fmap.
  by rewrite filter_flags_length, drop_0.
Qed.

Lemma pin_axis_flag (node : string) (bools : list bool) (idx k : nat) (b : bool)
    (D : gset nat) :
  node_indices s !! node = Some idx -> bools !! k = Some b ->
  pin_axis s node bools k D = Ok (if b then {[idx * dm + k]} ∪ D else D).
Proof.
  intros Hidx Hb. unfold pin_axis.
  rewrite (proj2 (getitem_Ok _ _ _) Hb), bind_Ok. destruct b; [|done].
  by rewrite (proj2 (getkey_Ok _ _ _) Hidx), bind_Ok.
Qed.

(** The set that [_objective] collects for the pins holds the places that
    [_create_initial_guess] deletes. *)
Lemma pin_axis_loop_places (node : string) (bools : list bool) (idx m k : nat)
    (D : gset nat) :
  node_indices s !! node = Some idx -> k + m <= length bools ->
  for_ (seq k m) (pin_axis s node bools) D
  = Ok (list_to_set (pinned_places_of s node bools (seq k m)) ∪ D).
Proof.
  intros Hidx. revert k D. induction m as [|m IH]; intros k D Hlen.
  { cbn. unfold pinned_places_of. rewrite Hidx. cbn. f_equal.
    by rewrite (left_id_L ∅ (∪)). }
  cbn [seq for_]. rewrite (pinned_places_of_cons s _ _ idx) by done.
  destruct (lookup_lt_is_Some_2 bools k) as [b Hb]; [lia|].
  rewrite (pin_axis_flag node bools idx k b) by done. rewrite bind_Ok, IH by lia.
  destruct b.
  - rewrite bool_decide_eq_true_2 by done. f_equal. cbn [app].
    rewrite list_to_set_cons. apply set_eq. intros j.
    rewrite !elem_of_union. tauto.
  - rewrite bool_decide_eq_false_2 by (rewrite Hb; congruence). done.
Qed.

Lemma pin_rows_loop_places (pins : list (string * list bool)) (D : gset nat) :
  Forall (pin_ok s) pins ->
  for_ pins (pin_rows s) D
  = Ok (list_to_set (concat ((fun pin : string * list bool =>
                                pinned_places_of s pin.1 pin.2 (seq 0 dm)) <$> pins)) ∪ D).
Proof.
  intros Hok. revert D. induction Hok as [|[node bools] pins [[idx Hidx] Hlen] _ IH]; intros D.
  { cbn. f_equal. by rewrite (left_id_L ∅ (∪)). }
  cbn [for_ fmap list_fmap concat fst snd] in *.
  change (pin_rows s (node, bools) D) with (for_ (seq 0 dm) (pin_axis s node bools) D).
  rewrite (pin_axis_loop_places node bools idx) by (done || lia).
  rewrite bind_Ok, IH. f_equal. rewrite list_to_set_app_L. apply set_eq. intros j.
  rewrite !elem_of_union. tauto.
Qed.

Lemma pinned_indices_places : pinned_indices s = Ok (list_to_set (pinned_places s)).
Proof.
  unfold pinned_indices. rewrite pin_rows_loop_places by done. f_equal.
  fold (pinned_places s). by rewrite (right_id_L ∅ (∪)).
Qed.

Lemma delete_pinned_indices {A} (arr : list A) :
  length arr = dm * nn ->
  np.delete arr (elements (list_to_set (C := gset nat) (pinned_places s)))
  = Ok (np.drop_listed 0 arr (pinned_places s)).
Proof.
  intros Hlen. rewrite np_delete_Ok; cycle 1.
  { apply list.Forall_forall. intros j Hj%elem_of_elements%elem_of_list_to_set.
    pose proof pinned_places_bound as Hb. rewrite list.Forall_forall in Hb.
    rewrite Hlen. by apply Hb. }
  f_equal. apply drop_listed_same_members. intros j.
  by rewrite elem_of_elements, elem_of_list_to_set.
Qed.

Hypothesis Hrows : Forall (fun row => length row = dm) (coordinate_array s w).

Lemma length_full : length full = dm * nn.
Proof.
  rewrite (length_concat_rows dm) by done. unfold coordinate_array. by rewrite length_fmap.
Qed.

Lemma create_initial_guess_Ok :
  _create_initial_guess s w = Ok (np.drop_listed 0 full (pinned_places s)).
Proof.
  unfold _create_initial_guess. cbn zeta.
  fold (coordinate_array s w). rewrite (np_array_Ok dm) by done. rewrite bind_Ok.
  rewrite delete_pin_loop by done. rewrite bind_Ok. cbn [app].
  fold (pinned_places s). unfold np.flatten. apply np_delete_Ok.
  rewrite length_full. apply pinned_places_bound.
Qed.

Hypothesis Hdm : dm <> 0.
Hypothesis Hsorted : StronglySorted lt (pin_node_indices s).

Lemma pinned_places_NoDup : NoDup (pinned_places s).
Proof. by apply sorted_NoDup, pinned_places_sorted. Qed.

Lemma ins_index_Ok :
  exists ps,
    for_ (Tensegrity.pins (tensegrity s)) (ins_index_pin s w) [] = Ok ps /\
    ps.*1 = pinned_places s /\
    Forall (entry_ok s w) ps.
Proof.
  destruct (ins_index_pin_loop s w (Tensegrity.pins (tensegrity s)) [])
    as (ps & Hrun & Hkeys & Hok); [done..| | |].
  { cbn [fmap list_fmap app]. fold (pinned_places s). apply pinned_places_NoDup. }
  { constructor. }
  exists ps. by split_and!.
Qed.

(** [_get_nodes_from_input] on any vector of the reduced length. *)
Lemma get_nodes_from_input_Ok (x : list R) :
  length x + pinned_axes s = dm * nn ->
  exists N,
    _get_nodes_from_input s w x = Ok N /\
    length N = nn /\
    Forall (fun row => length row = dm) N /\
    np.drop_listed 0 (concat N) (pinned_places s) = x /\
    Forall (fun j => concat N !! j = full !! j) (pinned_places s).
Proof.
  intros Hx. destruct ins_index_Ok as (ps & Hrun & Hkeys & Hok).
  assert (Hps : length ps = pinned_axes s).
  { by rewrite <- length_pinned_places, <- Hkeys, length_fmap. }
  destruct (insert_sorted_any ps x) as (flat & Hins & Hlen & Hdrop & Hvals).
  { rewrite Hkeys. by apply pinned_places_sorted. }
  { rewrite Hkeys, Hps, Hx. apply pinned_places_bound. }
  rewrite Hps, Hx in Hlen.
  exists (np.rows_of nn dm flat). unfold _get_nodes_from_input. cbn zeta.
  rewrite Hrun, bind_Ok, Hins, bind_Ok.
  split; [by apply np_reshape_Ok|]. split; [apply length_rows_of|].
  split; [by apply rows_of_row_length|].
  rewrite concat_rows_of by done. split; [by rewrite <- Hkeys|].
  rewrite <- Hkeys, Forall_fmap. rewrite list.Forall_forall in Hvals, Hok.
  apply list.Forall_forall. intros p Hp. cbn.
  rewrite (Hvals p Hp). symmetry. by apply Hok.
Qed.

End Unknowns.

Section Residual.
Import TensegritySolver.
Variable s : t.
Variable w : World.

Abbreviation dm := (dim s).
Abbreviation nn := (length (Tensegrity.nodes (tensegrity s))).

Hypothesis Hwf : solver_wf s.

Section Rows.
Variable N : list (list R).
Hypothesis HN : length N = nn.
Hypothesis HNrows : Forall (fun row => length row = dm) N.

Lemma resolves_exists (chain : list ref) :
  Forall (fun r => is_Some (node_indices s !! Node.name (node_at w r))) chain ->
  exists es, Forall2 (resolves s w N) chain es.
Proof.
  induction 1 as [|r chain [i Hi] _ [es IH]]; [by exists []|].
  destruct (lookup_lt_is_Some_2 N i) as [row Hrow].
  { rewrite HN. by eapply Hwf. }
  exists ((Node.name (node_at w r), i, row) :: es). constructor; [|done].
  repeat split; [done..|]. cbn. rewrite list.Forall_forall in HNrows.
  apply HNrows. by eapply list_elem_of_lookup_2.
Qed.

Lemma connection_length_loop_returns (c : Connection.t) (chain : list ref)
    (es : list Spec.endpoint) (pre : list ref) (acc : R) :
  Connection.nodes c = pre ++ chain ->
  Forall2 (resolves s w N) chain es ->
  exists L,
    for_ (seq (length pre) (length chain - 1)) (fun i length =>
      name1 ← node_name w c i;
      name2 ← node_name w c (i + 1);
      d ← _node_distance s name1 name2 N;
      Ok (length + d)%R) acc = Ok L.
Proof.
  intros Hc Hres. revert pre acc Hc.
  induction Hres as [|r1 e1 chain es H1 Hres IH]; intros pre acc Hc; [by eexists|].
  destruct Hres as [|r2 e2 chain es H2 Hres]; [by eexists|].
  replace (length (r1 :: r2 :: chain) - 1) with (S (length (r2 :: chain) - 1))
    by (simpl; lia).
  rewrite <- cons_seq. cbn [for_].
  rewrite (node_name_at w c pre (r2 :: chain) r1), bind_Ok by done.
  assert (Hc' : Connection.nodes c = (pre ++ [r1]) ++ r2 :: chain) by (by rewrite <- app_assoc).
  pose proof (node_name_at w c _ _ _ Hc') as Hname2.
  rewrite length_app in Hname2. cbn [length] in Hname2.
  rewrite Hname2, bind_Ok.
  pose proof (node_distance_resolved s w N r1 r2 e1 e2 H1 H2) as Hdist.
  destruct H1 as (Hn1 & _), H2 as (Hn2 & _).
  rewrite Hn1, Hn2, Hdist, !bind_Ok.
  specialize (IH (pre ++ [r1])). rewrite length_app, Nat.add_1_r in IH.
  by apply IH.
Qed.

Lemma energy_derivative_returns (c : Connection.t) :
  Forall (fun r => is_Some (node_indices s !! Node.name (node_at w r))) (Connection.nodes c) ->
  exists dV,
    _spring_connection_energy_derivative s w c N = Ok dV /\ length dV = dm * nn.
Proof.
  intros [es Hres]%resolves_exists.
  destruct (connection_length_loop_returns c (Connection.nodes c) es [] 0%R eq_refl Hres)
    as [L HL].
  cbn [length] in HL. unfold _spring_connection_energy_derivative, _connection_length.
  rewrite HL, bind_Ok.
  destruct (match Connection.connection_type c with
            | Connection.STRING => _ | Connection.BAR => _ end).
  { eexists. split; [done|]. apply length_zeros. }
  cbn zeta. unfold _length_derivative. cbn zeta.
  pose proof (length_derivative_loop s w c N (Connection.nodes c) es []
                (np.zeros (dm * nn)) Hwf eq_refl Hres (length_zeros _)) as Hdl.
  cbn [length] in Hdl. rewrite Hdl, bind_Ok.
  eexists. split; [done|]. unfold np.scale.
  rewrite length_fmap, length_zip_with, length_zeros.
  rewrite (length_length_derivative s w N (Connection.nodes c) es) by done. lia.
Qed.

Lemma virtual_work_returns (conns : list ref) (vw : list R) :
  Forall (fun c => Forall (fun r => is_Some (node_indices s !! Node.name (node_at w r)))
                     (Connection.nodes (conn_at w c))) conns ->
  length vw = dm * nn ->
  exists vw',
    for_ conns (fun connection virtual_work =>
      dV ← _spring_connection_energy_derivative s w (conn_at w connection) N;
      np.add virtual_work dV) vw = Ok vw' /\
    length vw' = dm * nn.
Proof.
  intros Hconns. revert vw. induction Hconns as [|c conns Hc _ IH]; intros vw Hvw.
  { by exists vw. }
  cbn [for_]. destruct (energy_derivative_returns _ Hc) as (dV & -> & HdV).
  rewrite bind_Ok, np_add_Ok, bind_Ok by congruence.
  apply IH. rewrite length_zip_with. lia.
Qed.

(** The same loop when no connection pulls or pushes. *)
Lemma virtual_work_relaxed (conns : list ref) :
  Forall (fun c => Forall (fun r => is_Some (node_indices s !! Node.name (node_at w r)))
                     (Connection.nodes (conn_at w c))) conns ->
  Forall (fun c => exists L, _connection_length s w (conn_at w c) N = Ok L /\
                             relaxed (conn_at w c) L) conns ->
  for_ conns (fun connection virtual_work =>
    dV ← _spring_connection_energy_derivative s w (conn_at w connection) N;
    np.add virtual_work dV) (np.zeros (dm * nn)) = Ok (np.zeros (dm * nn)).
Proof.
  intros Hconns Hrel. induction Hconns as [|c conns Hc _ IH]; [done|].
  apply Forall_cons in Hrel as [(L & HL & Hrelaxed) Hrel].
  cbn [for_]. destruct (energy_derivative_returns _ Hc) as (dV & HdV & Hlen).
  pose proof (relaxed_energy_derivative s w _ N L dV HL Hrelaxed HdV) as Hzero.
  apply all_zero_zeros in Hzero. rewrite Hlen in Hzero.
  rewrite HdV, bind_Ok, np_add_Ok, bind_Ok by (rewrite Hzero, !length_zeros; done).
  rewrite Hzero, vadd_zeros_r by apply length_zeros. by apply IH.
Qed.

End Rows.

Hypothesis Hpins : Forall (pin_ok s) (Tensegrity.pins (tensegrity s)).
Hypothesis Hrows : Forall (fun row => length row = dm) (coordinate_array s w).
Hypothesis Hdm : dm <> 0.
Hypothesis Hsorted : StronglySorted lt (pin_node_indices s).
Hypothesis Hsurf : Tensegrity.surface (tensegrity s) = None.
Hypothesis Hforces : length (forces s) = dm * nn.
Hypothesis Hconn : connections_indexed s w.

(** Without a surface the residual is the virtual work of the connections
    plus the external forces, less the entries at the pinned places. *)
Lemma objective_no_surface (x : list R) :
  length x + pinned_axes s = dm * nn ->
  exists N vw,
    _get_nodes_from_input s w x = Ok N /\
    length N = nn /\ Forall (fun row => length row = dm) N /\
    for_ (Tensegrity.connections (tensegrity s)) (fun connection virtual_work =>
      dV ← _spring_connection_energy_derivative s w (conn_at w connection) N;
      np.add virtual_work dV) (np.zeros (dm * nn)) = Ok vw /\
    length vw = dm * nn /\
    _objective s w x
    = Ok (np.drop_listed 0 (zip_with Rplus vw (forces s)) (pinned_places s)).
Proof.
  intros Hx.
  destruct (get_nodes_from_input_Ok s w Hwf Hpins Hrows Hdm Hsorted x Hx)
    as (N & HN & HlenN & HrowsN & _).
  destruct (virtual_work_returns N HlenN HrowsN (Tensegrity.connections (tensegrity s))
              (np.zeros (dm * nn))) as (vw & Hvw & Hlenvw).
  { apply list.Forall_forall. intros c Hc. by apply Hconn. }
  { apply length_zeros. }
  exists N, vw. split_and!; [done..|].
  unfold _objective. cbn zeta. rewrite HN, bind_Ok, Hvw, bind_Ok.
  rewrite np_add_Ok, bind_Ok by congruence.
  rewrite pinned_indices_places, bind_Ok, Hsurf by done.
  apply delete_pinned_indices; [done|]. rewrite length_zip_with. lia.
Qed.

End Residual.

(** X9. [_get_nodes_from_input] on any vector of the reduced length, for
    pins that list the nodes in increasing order of index: the result has a
    row of [dim] coordinates for every node; the pinned coordinates are those
    of the nodes at this moment, and the other coordinates are the entries of
    the vector, in order. *)
Theorem get_nodes_from_input_expands (s : TensegritySolver.t) (w : World) (x : list R) :
  solver_wf s -> TensegritySolver.dim s <> 0 ->
  Forall (fun row => length row = TensegritySolver.dim s) (coordinate_array s w) ->
  Forall (pin_ok s) (Tensegrity.pins (TensegritySolver.tensegrity s)) ->
  StronglySorted lt (pin_node_indices s) ->
  length x + pinned_axes s
  = TensegritySolver.dim s * length (Tensegrity.nodes (TensegritySolver.tensegrity s)) ->
  exists N,
    TensegritySolver._get_nodes_from_input s w x = Ok N /\
    length N = length (Tensegrity.nodes (TensegritySolver.tensegrity s)) /\
    Forall (fun row => length row = TensegritySolver.dim s) N /\
    np.drop_listed 0 (concat N) (pinned_places s) = x /\
    Forall (fun j => concat N !! j = concat (coordinate_array s w) !! j) (pinned_places s).
Proof. intros. by apply get_nodes_from_input_Ok. Qed.

(** The truss, its three unknowns set to 7, 8 and 9. *)
Lemma get_nodes_from_input_expands_witness :
  exists N,
    TensegritySolver._get_nodes_from_input Example.Truss.solver Example.Truss.world [7; 8; 9]%R
    = Ok N /\
    length N = 3 /\
    Forall (fun row => length row = 2) N /\
    np.drop_listed 0 (concat N) (pinned_places Example.Truss.solver) = [7; 8; 9]%R /\
    Forall (fun j => concat N !! j
                     = concat (coordinate_array Example.Truss.solver Example.Truss.world) !! j)
           (pinned_places Example.Truss.solver).
Proof.
  apply (get_nodes_from_input_expands Example.Truss.solver Example.Truss.world [7; 8; 9]%R).
  - apply init_solver_wf.
  - discriminate.
  - repeat constructor.
  - repeat constructor; by eexists.
  - repeat constructor.
  - reflexivity.
Defined.

(** X10. The vector of [_create_initial_guess] has one entry for every
    coordinate that no pin fixes: its length is [dim * |nodes|] less the
    number of pinned axes. *)
Theorem create_initial_guess_length (s : TensegritySolver.t) (w : World) :
  solver_wf s -> TensegritySolver.dim s <> 0 ->
  Forall (fun row => length row = TensegritySolver.dim s) (coordinate_array s w) ->
  Forall (pin_ok s) (Tensegrity.pins (TensegritySolver.tensegrity s)) ->
  StronglySorted lt (pin_node_indices s) ->
  exists x0,
    TensegritySolver._create_initial_guess s w = Ok x0 /\
    length x0 + pinned_axes s
    = TensegritySolver.dim s * length (Tensegrity.nodes (TensegritySolver.tensegrity s)).
Proof.
  intros Hwf Hdm Hrows Hpins Hsorted. eexists. split; [by apply create_initial_guess_Ok|].
  rewrite <- length_pinned_places, <- (length_full s w) by done.
  apply drop_listed_NoDup_length; [by apply pinned_places_NoDup|].
  rewrite length_full by done. by apply pinned_places_bound.
Qed.

(** The truss: 3 unknowns, 3 pinned axes, 3 nodes in the plane. *)
Lemma create_initial_guess_length_witness :
  exists x0,
    TensegritySolver._create_initial_guess Example.Truss.solver Example.Truss.world = Ok x0 /\
    length x0 + pinned_axes Example.Truss.solver = 2 * 3.
Proof.
  apply (create_initial_guess_length Example.Truss.solver Example.Truss.world).
  - apply init_solver_wf.
  - discriminate.
  - repeat constructor.
  - repeat constructor; by eexists.
  - repeat constructor.
Defined.

(** X11. Without a surface, on any vector of the reduced length, [_objective]
    returns, and its residual has as many entries as the vector has unknowns:
    the system handed to the root finder is square. The pins list the nodes
    in increasing order of index, the forces have one entry per coordinate and
    the connections join indexed nodes. *)
Theorem objective_square (s : TensegritySolver.t) (w : World) (x : list R) :
  solver_wf s -> TensegritySolver.dim s <> 0 ->
  Forall (fun row => length row = TensegritySolver.dim s) (coordinate_array s w) ->
  Forall (pin_ok s) (Tensegrity.pins (TensegritySolver.tensegrity s)) ->
  StronglySorted lt (pin_node_indices s) ->
  Tensegrity.surface (TensegritySolver.tensegrity s) = None ->
  length (TensegritySolver.forces s)
  = TensegritySolver.dim s * length (Tensegrity.nodes (TensegritySolver.tensegrity s)) ->
  connections_indexed s w ->
  length x + pinned_axes s
  = TensegritySolver.dim s * length (Tensegrity.nodes (TensegritySolver.tensegrity s)) ->
  exists res, TensegritySolver._objective s w x = Ok res /\ length res = length x.
Proof.
  intros Hwf Hdm Hrows Hpins Hsorted Hsurf Hforces Hconn Hx.
  destruct (objective_no_surface s w Hwf Hpins Hrows Hdm Hsorted Hsurf Hforces Hconn x Hx)
    as (N & vw & _ & _ & _ & _ & Hvw & Hobj).
  eexists. split; [exact Hobj|].
  pose proof (drop_listed_NoDup_length (zip_with Rplus vw (TensegritySolver.forces s))
                (pinned_places s)) as Hlen.
  rewrite length_zip_with, Hvw, Hforces, Nat.min_id in Hlen.
  rewrite length_pinned_places in Hlen by done.
  specialize (Hlen (pinned_places_NoDup s Hsorted) (pinned_places_bound s Hwf)). lia.
Qed.

Lemma Truss_connections_indexed :
  connections_indexed Example.Truss.solver Example.Truss.world.
Proof.
  intros c Hc. cbn in Hc.
  repeat (apply elem_of_cons in Hc as [->|Hc]); [| | |by apply elem_of_nil in Hc];
    repeat constructor; by eexists.
Qed.

(** The truss, its three unknowns set to 7, 8 and 9. *)
Lemma objective_square_witness :
  exists res,
    TensegritySolver._objective Example.Truss.solver Example.Truss.world [7; 8; 9]%R = Ok res /\
    length res = 3.
Proof.
  apply (objective_square Example.Truss.solver Example.Truss.world [7; 8; 9]%R).
  - apply init_solver_wf.
  - discriminate.
  - repeat constructor.
  - repeat constructor; by eexists.
  - repeat constructor.
  - reflexivity.
  - reflexivity.
  - apply Truss_connections_indexed.
  - reflexivity.
Defined.

(** * The structure at rest *)

Lemma connections_held_indexed (s : TensegritySolver.t) (w : World) :
  connections_held s w -> connections_indexed s w.
Proof.
  intros Hheld c Hc. eapply Forall_impl; [by apply Hheld|].
  intros r (i & Hi & _). by exists i.
Qed.

(** X12. A structure at rest is in equilibrium, when its pins list the
    nodes in increasing order of index. Without a surface and without
    external forces, when every connection is relaxed at the positions of the
    nodes (at its rest length, or a slack string), the residual of
    [_objective] at the vector of [_create_initial_guess] is 0 in every
    entry: the initial guess is a root. Each pin names a node and has a flag
    for every axis, and the coordinate array holds the position, of [dim]
    coordinates, of every node of every connection. (With pins in another
    order the expansion misplaces the pinned coordinates and the residual at
    rest need not vanish.) *)
Theorem rest_is_equilibrium (s : TensegritySolver.t) (w : World) :
  solver_wf s -> TensegritySolver.dim s <> 0 ->
  Forall (fun row => length row = TensegritySolver.dim s) (coordinate_array s w) ->
  Forall (pin_ok s) (Tensegrity.pins (TensegritySolver.tensegrity s)) ->
  StronglySorted lt (pin_node_indices s) ->
  Tensegrity.surface (TensegritySolver.tensegrity s) = None ->
  TensegritySolver.forces s
  = np.zeros (TensegritySolver.dim s
              * length (Tensegrity.nodes (TensegritySolver.tensegrity s))) ->
  connections_held s w ->
  at_rest s w ->
  exists x0,
    TensegritySolver._create_initial_guess s w = Ok x0 /\
    TensegritySolver._objective s w x0 = Ok (np.zeros (length x0)).
Proof.
  intros Hwf Hdm Hrows Hpins Hsorted Hsurf Hforces Hheld Hrest.
  destruct (get_nodes_from_input_sorted_pins s w Hwf Hdm Hrows Hpins Hsorted)
    as (x0 & Hguess & Hexpand).
  exists x0. split; [done|].
  assert (Hx0 : length x0 + pinned_axes s = TensegritySolver.dim s * length (Tensegrity.nodes (TensegritySolver.tensegrity s))).
  { rewrite create_initial_guess_Ok in Hguess by done. injection Hguess as <-.
    rewrite <- length_pinned_places, <- (length_full s w) by done.
    apply drop_listed_NoDup_length; [by apply pinned_places_NoDup|].
    rewrite length_full by done. by apply pinned_places_bound. }
  assert (Hlenf : length (TensegritySolver.forces s) = TensegritySolver.dim s * length (Tensegrity.nodes (TensegritySolver.tensegrity s))).
  { rewrite Hforces. apply length_zeros. }
  destruct (objective_no_surface s w Hwf Hpins Hrows Hdm Hsorted Hsurf Hlenf
              (connections_held_indexed s w Hheld) x0 Hx0)
    as (N & vw & HN & HlenN & HrowsN & Hvw & Hlenvw & Hobj).
  rewrite Hexpand in HN. injection HN as <-.
  rewrite (virtual_work_relaxed s w Hwf (coordinate_array s w) HlenN HrowsN) in Hvw; cycle 1.
  { apply list.Forall_forall. intros c Hc. by apply connections_held_indexed. }
  { apply list.Forall_forall. intros c Hc. destruct (Hrest c Hc) as (L & HL & Hrel).
    exists L. split; [|done]. rewrite connection_length_chain by (by apply Hheld).
    rewrite (current_length_default _ _ (TensegritySolver.dim s)) in HL; cycle 1.
    { eapply Forall_impl; [by apply Hheld|]. by intros r (i & _ & _ & Hlen). }
    rewrite <- HL. do 2 f_equal. unfold solver_linked, surface_links.
    by destruct (Tensegrity.surface _). }
  injection Hvw as <-. rewrite Hobj. f_equal.
  rewrite Hforces. rewrite vadd_zeros_r by apply length_zeros.
  pose proof (drop_listed_NoDup_length (np.zeros (TensegritySolver.dim s * length (Tensegrity.nodes (TensegritySolver.tensegrity s)))) (pinned_places s)
                (pinned_places_NoDup s Hsorted)) as Hlen.
  rewrite length_zeros, length_pinned_places in Hlen by done.
  specialize (Hlen (pinned_places_bound s Hwf)).
  replace (length x0) with (length (np.drop_listed 0 (np.zeros (TensegritySolver.dim s * length (Tensegrity.nodes (TensegritySolver.tensegrity s)))) (pinned_places s)))
    by lia.
  apply all_zero_zeros, drop_listed_Forall, zeros_all_zero.
Qed.

Lemma Truss_row_holds (r : ref) :
  r < 3 ->
  row_holds Example.Truss.solver Example.Truss.world
    (coordinate_array Example.Truss.solver Example.Truss.world) r.
Proof.
  intros Hr. destruct r as [|[|[|r]]]; [| | |lia].
  - exists 0. by repeat split.
  - exists 1. by repeat split.
  - exists 2. by repeat split.
Qed.

Lemma Truss_connections_held : connections_held Example.Truss.solver Example.Truss.world.
Proof.
  intros c Hc. cbn in Hc.
  repeat (apply elem_of_cons in Hc as [->|Hc]); [| | |by apply elem_of_nil in Hc];
    repeat (apply Forall_cons; split; [apply Truss_row_holds; lia|]); apply Forall_nil_2.
Qed.

Lemma Truss_at_rest : at_rest Example.Truss.solver Example.Truss.world.
Proof.
  intros c Hc. cbn in Hc.
  repeat (apply elem_of_cons in Hc as [->|Hc]); [| | |by apply elem_of_nil in Hc].
  - exists 1%R. split; [|by left].
    rewrite (current_length_default _ _ 2) by (repeat constructor).
    f_equal. cbn. unfold Spec.euclidean_distance. cbn. sqrt_of_one. lra.
  - exists 1%R. split; [|by left].
    rewrite (current_length_default _ _ 2) by (repeat constructor).
    f_equal. cbn. unfold Spec.euclidean_distance. cbn. sqrt_of_one. lra.
  - exists (sqrt 2). split; [|by left].
    rewrite (current_length_default _ _ 2) by (repeat constructor).
    f_equal. cbn. unfold Spec.euclidean_distance. cbn. rewrite Rplus_0_r. f_equal. lra.
Qed.

(** The truss: its bars and its string are at their rest lengths. *)
Lemma rest_is_equilibrium_witness :
  exists x0,
    TensegritySolver._create_initial_guess Example.Truss.solver Example.Truss.world = Ok x0 /\
    TensegritySolver._objective Example.Truss.solver Example.Truss.world x0
    = Ok (np.zeros (length x0)).
Proof.
  apply (rest_is_equilibrium Example.Truss.solver Example.Truss.world).
  - apply init_solver_wf.
  - discriminate.
  - repeat constructor.
  - repeat constructor; by eexists.
  - repeat constructor.
  - reflexivity.
  - reflexivity.
  - apply Truss_connections_held.
  - apply Truss_at_rest.
Defined.

(** * What solve writes *)

Lemma node_at_set_node (r r' : ref) (n : Node.t) (w : World) :
  node_at (set_node r n w) r' = if decide (r = r') then n else node_at w r'.
Proof. reflexivity. Qed.

Lemma enumerate_from_snd {X} (k : nat) (xs : list X) : (enumerate_from k xs).*2 = xs.
Proof. revert k. induction xs as [|x xs IH]; intros k; cbn; [done|]. by rewrite IH. Qed.

Lemma moves_only_refl (t : Tensegrity.t) (w : World) : moves_only t w w.
Proof. split_and!; [done..|]. intros c. by destruct (conn_at w c). Qed.

Section SolveWrites.
Variable root : (list R -> result (list R)) -> list R -> string -> result OptimizeResult.
Variable normal : nat -> list R.
Variable s : TensegritySolver.t.

Abbreviation t := (TensegritySolver.tensegrity s).
Abbreviation dm := (TensegritySolver.dim s).
Abbreviation nn := (length (Tensegrity.nodes t)).

Lemma store_positions_cons (N : list (list R)) (i : nat) (node : ref)
    (items : list (nat * ref)) (w : World) :
  store_positions N ((i, node) :: items) w =
  match N !! i with
  | Some p => store_positions N items (set_node node (Node.set_position (node_at w node) p) w)
  | None => (Raise IndexError, w)
  end.
Proof.
  unfold store_positions. cbn [for_M].
  unfold mbind at 1, M_bind at 1. unfold mbind at 1, M_bind at 1.
  unfold lift, getitem. by destruct (N !! i).
Qed.

Lemma store_positions_frame (N : list (list R)) (items : list (nat * ref)) (w w' : World)
    (r : result unit) :
  store_positions N items w = (r, w') ->
  conn_at w' = conn_at w /\
  (forall node, Node.name (node_at w' node) = Node.name (node_at w node)) /\
  (forall node, node ∉ items.*2 -> node_at w' node = node_at w node).
Proof.
  revert w. induction items as [|[i node] items IH]; intros w Hrun.
  { injection Hrun as <- <-. done. }
  rewrite store_positions_cons in Hrun. destruct (N !! i) as [p|].
  - apply IH in Hrun as (Hc & Hname & Hout). split_and!; [done| |].
    + intros node'. rewrite Hname, node_at_set_node. by destruct (decide (node = node')) as [->|].
    + intros node' [Hne Hnin]%not_elem_of_cons. cbn in Hne.
      rewrite Hout, node_at_set_node by done. by rewrite decide_False.
  - injection Hrun as <- <-. done.
Qed.


(** [solve] either leaves the store as it is, or ends in the loop that
    stores the rows of an expanded vector and in [update_forces]. *)
Lemma solve_cases (method : string) (w w' : World) (r : result unit) :
  TensegritySolver.solve root normal s method w = (r, w') ->
  w' = w \/
  exists x0 x1 res N,
    TensegritySolver._create_initial_guess s w = Ok x0 /\
    length x1 = length x0 /\
    root (TensegritySolver._objective s w) x1 method = Ok res /\
    success res = true /\
    TensegritySolver._get_nodes_from_input s w (x res) = Ok N /\
    (_ ← store_positions N (enumerate (Tensegrity.nodes t)); Tensegrity.update_forces t) w
    = (r, w').
Proof.
  assert (Hfinish : forall x0 x1 res,
    TensegritySolver._create_initial_guess s w = Ok x0 ->
    length x1 = length x0 ->
    root (TensegritySolver._objective s w) x1 method = Ok res ->
    success res = true ->
    (N ← lift (TensegritySolver._get_nodes_from_input s w (x res));
     _ ← store_positions N (enumerate (Tensegrity.nodes t));
     Tensegrity.update_forces t) w = (r, w') ->
    w' = w \/
    exists x0 x1 res N,
      TensegritySolver._create_initial_guess s w = Ok x0 /\
      length x1 = length x0 /\
      root (TensegritySolver._objective s w) x1 method = Ok res /\
      success res = true /\
      TensegritySolver._get_nodes_from_input s w (x res) = Ok N /\
      (_ ← store_positions N (enumerate (Tensegrity.nodes t)); Tensegrity.update_forces t) w
      = (r, w')).
  { intros x0 x1 res Hx0 Hx1 Hres Hs. unfold mbind at 1, M_bind at 1. unfold lift at 1.
    destruct (TensegritySolver._get_nodes_from_input s w (x res)) as [N|e] eqn:HN;
      [|left; congruence].
    intros H. right. by exists x0, x1, res, N. }
  unfold TensegritySolver.solve.
  unfold mbind at 1, M_bind at 1. unfold get at 1. cbn beta iota.
  unfold mbind at 1, M_bind at 1. unfold lift at 1.
  destruct (TensegritySolver._create_initial_guess s w) as [x0|e] eqn:Hx0; [|left; congruence].
  unfold mbind at 1, M_bind at 1. unfold lift at 1.
  destruct (root _ x0 method) as [res|e] eqn:Hres; [|left; congruence].
  unfold mbind at 1, M_bind at 1.
  destruct (success res) eqn:Hs; cbn [negb].
  { unfold mret at 1, M_ret at 1. by apply (Hfinish x0 x0 res). }
  unfold mbind at 1, M_bind at 1. unfold lift at 1.
  destruct (np.add x0 (normal (length x0))) as [x1|e] eqn:Hx1; [|left; congruence].
  unfold mbind at 1, M_bind at 1. unfold lift at 1.
  destruct (root _ x1 method) as [res2|e] eqn:Hres2; [|left; congruence].
  destruct (success res2) eqn:Hs2; cbn [negb].
  - unfold mret at 1, M_ret at 1. apply (Hfinish x0 x1 res2); try done.
    by apply np_add_length in Hx1.
  - unfold mret, M_ret. left. congruence.
Qed.

(** The end of [solve]: whatever its outcome, it writes positions of nodes
    of the structure and forces. *)
Lemma finish_frame (N : list (list R)) (w w' : World) (r : result unit) :
  (_ ← store_positions N (enumerate (Tensegrity.nodes t)); Tensegrity.update_forces t) w
  = (r, w') ->
  moves_only t w w'.
Proof.
  unfold mbind, M_bind.
  destruct (store_positions N (enumerate (Tensegrity.nodes t)) w) as [r1 w1] eqn:Hstore.
  apply store_positions_frame in Hstore as (Hc & Hname & Hout).
  unfold enumerate in Hout. rewrite enumerate_from_snd in Hout.
  destruct r1 as [[]|e].
  - intros Hupd. rewrite <- (with_connections_id t) in Hupd.
    apply update_forces_frame in Hupd as [Hn Hforce].
    split_and!.
    + intros node. by rewrite Hn.
    + intros node Hnode. rewrite Hn. by apply Hout.
    + intros c. rewrite Hforce at 1. by rewrite Hc.
  - intros [= <- <-]. split_and!; [done..|]. intros c. rewrite Hc. by destruct (conn_at w c).
Qed.

Hypothesis Hwf : solver_wf s.
Hypothesis Hdm : dm <> 0.
Hypothesis Hpins : Forall (pin_ok s) (Tensegrity.pins t).
Hypothesis Hsorted : StronglySorted lt (pin_node_indices s).
Hypothesis Hnd : NoDup (Tensegrity.nodes t).


End SolveWrites.

(** X13. Whatever [solve] does and however it ends, it writes nothing but
    positions of nodes of its structure and forces of connections: every node
    keeps its name, a node outside the structure keeps its position, and
    a connection keeps its nodes, type, stiffness, rest length and name. *)
Theorem solve_moves_only
    (root : (list R -> result (list R)) -> list R -> string -> result OptimizeResult)
    (normal : nat -> list R) (s : TensegritySolver.t) (method : string) (w : World) :
  moves_only (TensegritySolver.tensegrity s) w
    (TensegritySolver.solve root normal s method w).2.
Proof.
  destruct (TensegritySolver.solve root normal s method w) as [r w'] eqn:Hrun.
  apply solve_cases in Hrun as [->|(x0 & x1 & res & N & _ & _ & _ & _ & _ & Hfinish)].
  - apply moves_only_refl.
  - by apply finish_frame in Hfinish.
Qed.




(** * The outcome of set_forces *)

Lemma set_forces_outcome_with_forces (s : TensegritySolver.t) (f : list R)
    (fs : list (string * list R)) :
  set_forces_outcome (TensegritySolver.with_forces s f) fs = set_forces_outcome s fs.
Proof. induction fs as [|[node force] fs IH]; [done|]. cbn. by rewrite IH. Qed.

Lemma set_forces_loop_outcome (fs : list (string * list R)) (s : TensegritySolver.t) :
  solver_wf s ->
  length (TensegritySolver.forces s)
  = TensegritySolver.dim s * length (Tensegrity.nodes (TensegritySolver.tensegrity s)) ->
  (for_M fs TensegritySolver.set_forces_item s).1 = set_forces_outcome s fs.
Proof.
  revert s. induction fs as [|[node force] fs IH]; intros s Hwf Hlen; [done|].
  cbn [for_M set_forces_outcome].
  destruct (set_forces_item_cases s node force Hwf Hlen)
    as [[Hf He]|[(Hf & Hnone & He)|(idx & Hf & Hidx & He)]].
  - erewrite bindM_raise by exact He. by rewrite bool_decide_eq_true_2.
  - erewrite bindM_raise by exact He.
    rewrite bool_decide_eq_false_2 by (intros ?; done). by rewrite Hnone.
  - erewrite bindM_step by exact He.
    rewrite bool_decide_eq_false_2 by (intros ?; done). rewrite Hidx.
    pose proof (slot_bounds (TensegritySolver.dim s) _ idx (Hwf _ _ Hidx)) as Hb.
    rewrite <- Hlen in Hb. rewrite IH; [apply set_forces_outcome_with_forces|done|].
    cbn [TensegritySolver.with_forces TensegritySolver.forces TensegritySolver.dim
         TensegritySolver.tensegrity].
    rewrite written_length by done. exact Hlen.
Qed.

(** X15. How [set_forces] ends is decided by the first item of the dict that
    is not usable, whatever forces were stored: ValueError when its force has
    not [dim] entries, else KeyError when its name is not a node of the
    structure (the length is tested before the name is looked up); with no
    such item the call returns. It raises nothing else: writing a force of
    [dim] entries at the slots of an indexed node cannot fail. *)
Theorem set_forces_outcome_spec (fs : list (string * list R)) (s : TensegritySolver.t) :
  solver_wf s ->
  (TensegritySolver.set_forces fs s).1 = set_forces_outcome s fs /\
  ((TensegritySolver.set_forces fs s).1 = Ok tt <->
   Forall (fun item : string * list R =>
             length item.2 = TensegritySolver.dim s /\
             is_Some (TensegritySolver.node_indices s !! item.1)) fs) /\
  (forall e, (TensegritySolver.set_forces fs s).1 = Raise e -> e = ValueError \/ e = KeyError).
Proof.
  intros Hwf.
  assert (Hout : (TensegritySolver.set_forces fs s).1 = set_forces_outcome s fs).
  { rewrite set_forces_unfold.
    rewrite set_forces_loop_outcome;
      [apply set_forces_outcome_with_forces | done | apply length_zeros]. }
  split; [done|]. rewrite Hout. clear Hout. split.
  - induction fs as [|[node force] fs IH]; [done|].
    cbn [set_forces_outcome]. rewrite list.Forall_cons. cbn [fst snd].
    case_bool_decide as Hf.
    { split; [done|]. by intros [[? _] _]. }
    destruct (TensegritySolver.node_indices s !! node) as [idx|].
    + rewrite IH. split; [|by intros [_ ?]]. intros ?. split; [|done]. split; [|done].
      by destruct (decide (length force = TensegritySolver.dim s)).
    + split; [done|]. by intros [[_ [? ?]] _].
  - intros e. induction fs as [|[node force] fs IH]; [done|].
    cbn [set_forces_outcome]. case_bool_decide.
    { intros [= <-]. by left. }
    destruct (TensegritySolver.node_indices s !! node); [done|].
    intros [= <-]. by right.
Qed.

(** The triangle: the second item names no node. *)
Lemma set_forces_outcome_spec_witness :
  let s := Example.Triangle.solver in
  let fs := [("A", [1; 2]%R); ("Z", [7; 8]%R); ("B", [9]%R)] in
  (TensegritySolver.set_forces fs s).1 = Raise KeyError /\
  ((TensegritySolver.set_forces fs s).1 = Ok tt <->
   Forall (fun item : string * list R =>
             length item.2 = TensegritySolver.dim s /\
             is_Some (TensegritySolver.node_indices s !! item.1)) fs) /\
  (forall e, (TensegritySolver.set_forces fs s).1 = Raise e -> e = ValueError \/ e = KeyError).
Proof.
  intros s fs. apply (set_forces_outcome_spec fs s). apply init_solver_wf.
Defined.

(** * The wrap of the plane on the cylinder *)

Lemma wrap_period (a b : R) :
  a = (b + 2 * PI)%R \/ a = (b - 2 * PI)%R -> cos a = cos b /\ sin a = sin b.
Proof.
  intros [-> | ->].
  - rewrite cos_plus, sin_plus, cos_2PI, sin_2PI. split; lra.
  - rewrite cos_minus, sin_minus, cos_2PI, sin_2PI. split; lra.
Qed.

(** X16. On a cylinder of radius [r], not 0, [transform] sends the point
    (x, y) of the plane to a point of the cylinder of radius [r] around the
    z axis, at height y. *)
Theorem transform_on_cylinder (sf : Surface.t) (r x y z : R) :
  Surface.surface_type sf = "cylinder" ->
  Surface.properties sf !! "radius" = Some r ->
  r <> 0%R ->
  exists X Y,
    Visualization.transform (Some sf) x y z = Ok [X; Y; y] /\
    (X * X + Y * Y = r * r)%R.
Proof.
  intros Hty Hr Hr0. unfold Visualization.transform.
  rewrite bool_decide_eq_true_2 by done.
  rewrite (proj2 (getkey_Ok _ _ _) Hr), bind_Ok, decide_False by done.
  eexists _, _. split; [done|].
  pose proof (sin2_cos2 (x / r)) as H. unfold Rsqr in H. nra.
Qed.

(** The cylinder of radius 1 of the seam. *)
Lemma transform_on_cylinder_witness :
  exists X Y,
    Visualization.transform (Some Example.Seam.cylinder) 2 1 0 = Ok [X; Y; 1%R] /\
    (X * X + Y * Y = 1 * 1)%R.
Proof.
  apply (transform_on_cylinder Example.Seam.cylinder 1 2 1 0).
  - reflexivity.
  - reflexivity.
  - lra.
Defined.

Lemma transform_seam (sf : Surface.t) (r x1 y1 x2 y2 : R) :
  Surface.surface_type sf = "cylinder" ->
  Surface.properties sf !! "radius" = Some r ->
  r <> 0%R ->
  (y1 - y2)%R = 0%R -> (Rabs (x1 - x2) - 2 * PI * r)%R = 0%R ->
  exists p,
    Visualization.transform (Some sf) x1 y1 0 = Ok p /\
    Visualization.transform (Some sf) x2 y2 0 = Ok p.
Proof.
  intros Hty Hr Hr0 Hy Hx. unfold Visualization.transform.
  rewrite bool_decide_eq_true_2 by done.
  rewrite (proj2 (getkey_Ok _ _ _) Hr), !bind_Ok.
  rewrite decide_False by done.
  destruct (wrap_period (x1 / r) (x2 / r)) as [Hcos Hsin].
  { unfold Rabs in Hx. destruct (Rcase_abs (x1 - x2)).
    - right. field_simplify_eq; [lra|done].
    - left. field_simplify_eq; [lra|done]. }
  eexists. split; [done|]. rewrite decide_False by done.
  rewrite Hcos, Hsin. by replace y1 with y2 by lra.
Qed.

Lemma pair_constraints_Ok (s : TensegritySolver.t) (r : R) (N : list (list R))
    (pair : linked_pair) (cs cs' : list R) :
  TensegritySolver.pair_constraints s r N pair cs = Ok cs' ->
  exists i1 i2 x1 y1 rest1 x2 y2 rest2,
    TensegritySolver.node_indices s !! pair.1 = Some i1 /\ N !! i1 = Some (x1 :: y1 :: rest1) /\
    TensegritySolver.node_indices s !! pair.2 = Some i2 /\ N !! i2 = Some (x2 :: y2 :: rest2) /\
    cs' = cs ++ [(y1 - y2)%R; (Rabs (x1 - x2) - 2 * PI * r)%R].
Proof.
  destruct pair as [node1 node2]. unfold TensegritySolver.pair_constraints. intros H.
  apply bind_Ok_inv in H as (i1 & Hi1%getkey_Ok & H).
  apply bind_Ok_inv in H as (N1 & HN1%getitem_Ok & H).
  apply bind_Ok_inv in H as (i2 & Hi2%getkey_Ok & H).
  apply bind_Ok_inv in H as (N2 & HN2%getitem_Ok & H).
  apply bind_Ok_inv in H as (y1 & Hy1%getitem_Ok & H).
  apply bind_Ok_inv in H as (y2 & Hy2%getitem_Ok & H).
  cbn zeta in H.
  apply bind_Ok_inv in H as (x1 & Hx1%getitem_Ok & H).
  apply bind_Ok_inv in H as (x2 & Hx2%getitem_Ok & H).
  injection H as <-.
  destruct N1 as [|x1' [|y1' rest1]]; try done.
  destruct N2 as [|x2' [|y2' rest2]]; try done.
  cbn in Hx1, Hy1, Hx2, Hy2. injection Hx1 as ->. injection Hy1 as ->.
  injection Hx2 as ->. injection Hy2 as ->.
  exists i1, i2, x1, y1, rest1, x2, y2, rest2. split_and!; [done..|].
  by rewrite <- app_assoc.
Qed.

Lemma pair_constraints_closed (s : TensegritySolver.t) (sf : Surface.t) (r : R)
    (N : list (list R)) (linked : list linked_pair) (cs cs' : list R) :
  Surface.surface_type sf = "cylinder" ->
  Surface.properties sf !! "radius" = Some r ->
  r <> 0%R ->
  for_ linked (TensegritySolver.pair_constraints s r N) cs = Ok cs' ->
  Forall (fun a => a = 0%R) cs' ->
  Forall (wrapped_together s sf N) linked.
Proof.
  intros Hty Hr Hr0. revert cs. induction linked as [|pair linked IH]; intros cs Hrun Hzero;
    [done|].
  cbn [for_] in Hrun. apply bind_Ok_inv in Hrun as (cs1 & Hpair & Hrun).
  constructor; [|by eapply IH].
  apply pair_constraints_Ok in Hpair
    as (i1 & i2 & x1 & y1 & rest1 & x2 & y2 & rest2 & Hi1 & HN1 & Hi2 & HN2 & ->).
  enough (exists p, Visualization.transform (Some sf) x1 y1 0 = Ok p /\
                    Visualization.transform (Some sf) x2 y2 0 = Ok p) as (p & Hp1 & Hp2).
  { exists i1, i2, x1, y1, rest1, x2, y2, rest2, p. by split_and!. }
  pose proof (pair_constraints_loop s r N linked _ _ Hrun) as Hlen.
  assert (Hpre : exists tail, cs' = (cs ++ [(y1 - y2)%R; (Rabs (x1 - x2) - 2 * PI * r)%R]) ++ tail).
  { clear -Hrun. revert Hrun. generalize (cs ++ [(y1 - y2)%R; (Rabs (x1 - x2) - 2 * PI * r)%R]).
    induction linked as [|pair linked IH]; intros acc Hrun.
    - injection Hrun as <-. exists []. by rewrite app_nil_r.
    - cbn [for_] in Hrun. apply bind_Ok_inv in Hrun as (acc1 & Hpair & Hrun).
      apply pair_constraints_Ok in Hpair as (? & ? & ? & ? & ? & ? & ? & ? & _ & _ & _ & _ & ->).
      destruct (IH _ Hrun) as [tail ->]. eexists. by rewrite <- !app_assoc. }
  destruct Hpre as [tail ->].
  apply Forall_app in Hzero as [Hzero _]. apply Forall_app in Hzero as [_ Hzero].
  apply Forall_cons in Hzero as [Hy Hzero]. apply Forall_cons in Hzero as [Hx _].
  by apply (transform_seam sf r).
Qed.

(** X17. A root of the seam constraints closes the seam. When every entry
    of the vector that [_surface_constraints] returns for a cylinder of
    radius [r], not 0, is 0, the two nodes of every linked pair have rows for
    which [transform] returns one and the same point of the cylinder. (For
    the radius 0 [transform] divides by zero.) *)
Theorem seam_closes (s : TensegritySolver.t) (w : World) (sf : Surface.t) (r : R)
    (x cs : list R) (N : list (list R)) :
  Tensegrity.surface (TensegritySolver.tensegrity s) = Some sf ->
  Surface.surface_type sf = "cylinder" ->
  Surface.properties sf !! "radius" = Some r ->
  r <> 0%R ->
  TensegritySolver._get_nodes_from_input s w x = Ok N ->
  TensegritySolver._surface_constraints s w x = Ok cs ->
  Forall (fun a => a = 0%R) cs ->
  Forall (wrapped_together s sf N) (Surface.linked_nodes sf).
Proof.
  intros Hsf Hty Hr Hr0 HN Hcs Hzero. unfold TensegritySolver._surface_constraints in Hcs.
  rewrite HN, bind_Ok, Hsf in Hcs. rewrite bool_decide_eq_true_2 in Hcs by done.
  rewrite (proj2 (getkey_Ok _ _ _) Hr), bind_Ok in Hcs.
  by apply (pair_constraints_closed s sf r N _ [] cs).
Qed.

Lemma Seam_closed_constraints :
  Forall (fun a => a = 0%R) [(0 - 0)%R; (Rabs (0 - 2 * PI) - 2 * PI * 1)%R].
Proof.
  repeat constructor; [lra|]. pose proof PI_RGT_0.
  rewrite Rabs_left by lra. lra.
Qed.

(** The seam, its node B moved once around the cylinder of radius 1. *)
Lemma seam_closes_witness :
  Forall (wrapped_together Example.Seam.solver Example.Seam.cylinder
            [[0; 0]; [2 * PI; 0]; [2; 1]]%R)
         (Surface.linked_nodes Example.Seam.cylinder).
Proof.
  apply (seam_closes Example.Seam.solver Example.Seam.world Example.Seam.cylinder 1
           [0; 2 * PI; 2; 1]%R [(0 - 0)%R; (Rabs (0 - 2 * PI) - 2 * PI * 1)%R]).
  - reflexivity.
  - reflexivity.
  - reflexivity.
  - lra.
  - vm_compute; reflexivity.
  - vm_compute; reflexivity.
  - apply Seam_closed_constraints.
Defined.

(** * The balance of the internal forces *)

Section AxisSum.
Variables d n k : nat.
Hypothesis Hk : k < d.

Lemma axis_sum_pointwise (f g : nat -> R) (l : list nat) :
  foldr Rplus 0%R ((fun i => f i + g i)%R <$> l)
  = (foldr Rplus 0 (f <$> l) + foldr Rplus 0 (g <$> l))%R.
Proof. induction l as [|i l IH]; cbn; [lra|]. rewrite IH. lra. Qed.

Lemma axis_sum_add (u v : list R) :
  length u = length v ->
  axis_sum d n k (zip_with Rplus u v) = (axis_sum d n k u + axis_sum d n k v)%R.
Proof.
  intros Hlen. unfold axis_sum. rewrite <- axis_sum_pointwise. f_equal.
  apply list_fmap_ext. intros _ i _. rewrite lookup_zip_with.
  destruct (u !! (i * d + k)) as [a|] eqn:Hu; cbn.
  - destruct (lookup_lt_is_Some_2 v (i * d + k)) as [b ->]; [|done].
    rewrite <- Hlen. by eapply lookup_lt_Some.
  - rewrite (proj2 (lookup_ge_None v _)); [cbn; lra|].
    rewrite <- Hlen. by apply lookup_ge_None.
Qed.

Lemma axis_sum_all_zero (v : list R) :
  Forall (fun a => a = 0%R) v -> axis_sum d n k v = 0%R.
Proof.
  intros Hv. unfold axis_sum. generalize (seq 0 n). intros l.
  induction l as [|i l IH]; cbn; [done|]. rewrite IH.
  destruct (v !! (i * d + k)) as [a|] eqn:Ha; cbn; [|lra].
  rewrite list.Forall_forall in Hv. rewrite (Hv a); [lra|]. by eapply list_elem_of_lookup_2.
Qed.

Lemma axis_sum_scale (c : R) (v : list R) :
  axis_sum d n k (np.scale c v) = (c * axis_sum d n k v)%R.
Proof.
  unfold axis_sum, np.scale. generalize (seq 0 n). intros l.
  induction l as [|i l IH]; cbn; [lra|]. rewrite IH, list_lookup_fmap.
  destruct (v !! (i * d + k)); cbn; lra.
Qed.

Lemma at_node_lookup (idx i : nat) (u : list R) :
  idx < n -> i < n -> length u = d ->
  default 0%R (Spec.at_node d n idx u !! (i * d + k))
  = if decide (i = idx) then default 0%R (u !! k) else 0%R.
Proof.
  intros Hidx Hi Hu. unfold Spec.at_node.
  pose proof (slot_bounds d n idx Hidx) as Hb.
  destruct (decide (i = idx)) as [->|Hne].
  - rewrite lookup_app_r by (rewrite length_zeros; lia).
    rewrite length_zeros, lookup_app_l by lia. f_equal. f_equal. lia.
  - destruct (decide (i < idx)) as [Hlt|Hge].
    + rewrite lookup_app_l by (rewrite length_zeros; nia).
      unfold np.zeros. rewrite lookup_replicate_2 by nia. done.
    + rewrite lookup_app_r by (rewrite length_zeros; nia).
      rewrite lookup_app_r by (rewrite length_zeros; nia).
      rewrite length_zeros. unfold np.zeros.
      destruct (replicate _ _ !! _) as [a|] eqn:Ha; [|done].
      by apply lookup_replicate in Ha as [-> _].
Qed.

Lemma sum_indicator (idx : nat) (a : R) (start len : nat) :
  foldr Rplus 0%R ((fun i => if decide (i = idx) then a else 0%R) <$> seq start len)
  = if bool_decide (start <= idx < start + len) then a else 0%R.
Proof.
  revert start. induction len as [|len IH]; intros start; cbn [seq fmap list_fmap foldr].
  { by rewrite bool_decide_eq_false_2 by lia. }
  rewrite IH. case_decide as Hi.
  - subst. rewrite bool_decide_eq_false_2 by lia. rewrite bool_decide_eq_true_2 by lia. lra.
  - case_bool_decide.
    + rewrite bool_decide_eq_true_2 by lia. lra.
    + rewrite bool_decide_eq_false_2 by lia. lra.
Qed.

Lemma axis_sum_at_node (idx : nat) (u : list R) :
  idx < n -> length u = d ->
  axis_sum d n k (Spec.at_node d n idx u) = default 0%R (u !! k).
Proof.
  intros Hidx Hu. unfold axis_sum.
  rewrite (list_fmap_ext _ (fun i => if decide (i = idx) then default 0%R (u !! k) else 0%R));
    cycle 1.
  { intros j i Hi. apply at_node_lookup; [done| |done].
    apply lookup_seq in Hi. lia. }
  rewrite sum_indicator. by rewrite bool_decide_eq_true_2 by lia.
Qed.

Lemma unit_vectors_opposite (p q : list R) (len : R) :
  length p = length q ->
  (default 0 (Spec.unit_vector p q len !! k) + default 0 (Spec.unit_vector q p len !! k))%R
  = 0%R.
Proof.
  intros Hlen. unfold Spec.unit_vector. rewrite !list_lookup_fmap, !lookup_zip_with.
  destruct (p !! k) as [a|] eqn:Hp; cbn.
  - destruct (lookup_lt_is_Some_2 q k) as [b ->]; [|cbn; lra].
    rewrite <- Hlen. by eapply lookup_lt_Some.
  - rewrite (proj2 (lookup_ge_None q _)); [cbn; lra|].
    rewrite <- Hlen. by apply lookup_ge_None.
Qed.

End AxisSum.

Section Balance.
Import TensegritySolver.
Variable s : t.
Variable w : World.
Variable N : list (list R).

Abbreviation dm := (dim s).
Abbreviation nn := (length (Tensegrity.nodes (tensegrity s))).

Hypothesis Hwf : solver_wf s.

Lemma axis_sum_segment_derivative (k : nat) (r1 r2 : ref) (e1 e2 : Spec.endpoint) :
  k < dm -> resolves s w N r1 e1 -> resolves s w N r2 e2 ->
  axis_sum dm nn k (Spec.segment_derivative dm nn (solver_linked s) e1 e2) = 0%R.
Proof.
  intros Hk (_ & Hi1 & _ & Hl1) (_ & Hi2 & _ & Hl2). unfold Spec.segment_derivative.
  cbn zeta. case_decide; [apply axis_sum_all_zero, zeros_all_zero|].
  rewrite axis_sum_add; cycle 1.
  { rewrite !length_at_node; eauto; rewrite length_unit_vector; congruence. }
  rewrite !axis_sum_at_node; eauto; try (rewrite length_unit_vector; congruence).
  apply unit_vectors_opposite. congruence.
Qed.

Lemma axis_sum_length_derivative (k : nat) (chain : list ref) (es : list Spec.endpoint) :
  k < dm -> Forall2 (resolves s w N) chain es ->
  axis_sum dm nn k (Spec.length_derivative dm nn (solver_linked s) es) = 0%R.
Proof.
  intros Hk H. induction H as [|r1 e1 chain es H1 H IH];
    [apply axis_sum_all_zero, zeros_all_zero|].
  destruct H as [|r2 e2 chain es H2 H]; [apply axis_sum_all_zero, zeros_all_zero|].
  change (axis_sum dm nn k
            (zip_with Rplus (Spec.segment_derivative dm nn (solver_linked s) e1 e2)
               (Spec.length_derivative dm nn (solver_linked s) (e2 :: es))) = 0%R).
  rewrite axis_sum_add; cycle 1.
  { rewrite (length_segment_derivative s w N r1 r2 e1 e2 Hwf H1 H2).
    by rewrite (length_length_derivative s w N (r2 :: chain) (e2 :: es) Hwf)
      by (by constructor). }
  rewrite (axis_sum_segment_derivative k r1 r2), IH by done. lra.
Qed.

Hypothesis HN : length N = nn.
Hypothesis HNrows : Forall (fun row => length row = dm) N.

Lemma energy_derivative_balance (c : Connection.t) :
  Forall (fun r => is_Some (node_indices s !! Node.name (node_at w r))) (Connection.nodes c) ->
  exists dV,
    _spring_connection_energy_derivative s w c N = Ok dV /\
    forall k, k < dm -> axis_sum dm nn k dV = 0%R.
Proof.
  intros Hidx. destruct (resolves_exists s w Hwf N HN HNrows _ Hidx) as [es Hres].
  destruct (energy_derivative_returns s w Hwf N HN HNrows c Hidx) as (dV & HdV & _).
  exists dV. split; [done|]. intros k Hk.
  unfold _spring_connection_energy_derivative in HdV.
  apply bind_Ok_inv in HdV as (L & _ & HdV).
  destruct (match Connection.connection_type c with
            | Connection.STRING => _ | Connection.BAR => _ end).
  { injection HdV as <-. apply axis_sum_all_zero, zeros_all_zero. }
  cbn zeta in HdV. apply bind_Ok_inv in HdV as (dl & Hdl & [= <-]).
  unfold _length_derivative in Hdl. cbn zeta in Hdl.
  pose proof (length_derivative_loop s w c N (Connection.nodes c) es []
                (np.zeros (dm * nn)) Hwf eq_refl Hres (length_zeros _)) as Hloop.
  cbn [length] in Hloop. rewrite Hloop in Hdl. injection Hdl as <-.
  rewrite axis_sum_scale, axis_sum_add; cycle 1.
  { by rewrite length_zeros, (length_length_derivative s w N (Connection.nodes c) es Hwf). }
  rewrite (axis_sum_all_zero _ _ _ _ (zeros_all_zero _)).
  rewrite (axis_sum_length_derivative k (Connection.nodes c)) by done. lra.
Qed.

End Balance.

(** X18. The internal forces balance. The vector that
    [_spring_connection_energy_derivative] returns for a connection between
    indexed nodes sums to 0 over the nodes on every axis: what a connection
    exerts on one end of a segment it exerts, reversed, on the other end.
    The position array has a row of [dim] coordinates for every node. *)
Theorem internal_forces_balance (s : TensegritySolver.t) (w : World) (N : list (list R))
    (c : Connection.t) :
  solver_wf s ->
  length N = length (Tensegrity.nodes (TensegritySolver.tensegrity s)) ->
  Forall (fun row => length row = TensegritySolver.dim s) N ->
  Forall (fun r => is_Some (TensegritySolver.node_indices s !! Node.name (node_at w r)))
         (Connection.nodes c) ->
  exists dV,
    TensegritySolver._spring_connection_energy_derivative s w c N = Ok dV /\
    forall k, k < TensegritySolver.dim s ->
      axis_sum (TensegritySolver.dim s)
        (length (Tensegrity.nodes (TensegritySolver.tensegrity s))) k dV = 0%R.
Proof. intros. by apply energy_derivative_balance. Qed.

(** The chain A-B-C of the unit square, stretched: D is where it is, the
    rows of A, B and C are moved apart. *)
Lemma internal_forces_balance_witness :
  let N := [[0; 0; 0]; [2; 0; 0]; [2; 3; 0]; [0; 1; 0]]%R in
  exists dV,
    TensegritySolver._spring_connection_energy_derivative Example.Square.solver
      Example.Square.world (Example.Square.connections 0) N = Ok dV /\
    forall k, k < 3 -> axis_sum 3 4 k dV = 0%R.
Proof.
  intros N.
  apply (internal_forces_balance Example.Square.solver Example.Square.world N
           (Example.Square.connections 0)).
  - apply init_solver_wf.
  - reflexivity.
  - repeat constructor.
  - repeat constructor; by eexists.
Defined.

(** * The exceptions of the residual *)

Section RaisesOnly.
Variable P : exn -> Prop.

Lemma raises_only_Ok {A} (a : A) : raises_only P (Ok a).
Proof. by intros e. Qed.

Lemma raises_only_bind {A B} (m : result A) (f : A -> result B) :
  raises_only P m -> (forall a, raises_only P (f a)) -> raises_only P (m ≫= f).
Proof.
  intros Hm Hf e. destruct m as [a|e']; intros H; [exact (Hf a e H)|].
  injection H as <-. exact (Hm e' eq_refl).
Qed.

Lemma raises_only_for {X A} (xs : list X) (body : X -> A -> result A) (acc : A) :
  (forall x a, raises_only P (body x a)) -> raises_only P (for_ xs body acc).
Proof.
  intros Hbody. revert acc. induction xs as [|x xs IH]; intros acc; [apply raises_only_Ok|].
  cbn [for_]. by apply raises_only_bind.
Qed.

End RaisesOnly.

Ltac raise_cases :=
  intros ?;
  repeat (first
    [ progress cbn [mbind result_bind]
    | match goal with
      | |- context [match ?x with _ => _ end] => destruct x eqn:?
      | |- context [bool_decide ?P] => destruct (bool_decide P) eqn:?
      end ]);
  try (intros [= <-]; unfold lookup_or_shape; tauto);
  try done.

Section ObjectiveExceptions.
Import TensegritySolver.
Variable s : t.
Variable w : World.

Lemma getitem_raises {X} (xs : list X) (i : nat) : raises_only lookup_or_shape (getitem xs i).
Proof. unfold raises_only, getitem. raise_cases. Qed.

Lemma getkey_raises {V} (m : gmap string V) (k : string) :
  raises_only lookup_or_shape (getkey m k).
Proof. unfold raises_only, getkey. raise_cases. Qed.

Lemma np_add_raises (u v : list R) : raises_only lookup_or_shape (np.add u v).
Proof. unfold raises_only, np.add. raise_cases. Qed.

Lemma np_delete_raises {A} (arr : list A) (obj : list nat) :
  raises_only lookup_or_shape (np.delete arr obj).
Proof. unfold raises_only, np.delete. raise_cases. Qed.

Lemma get_nodes_from_input_raises (x : list R) :
  raises_only lookup_or_shape (_get_nodes_from_input s w x).
Proof.
  unfold _get_nodes_from_input. apply raises_only_bind.
  { apply raises_only_for. intros pin acc. unfold ins_index_pin.
    apply raises_only_bind; [apply getkey_raises|]. intros idx.
    apply raises_only_for. intros i acc'. unfold raises_only, ins_index_axis, getitem.
    raise_cases. }
  intros ps. apply raises_only_bind.
  { apply raises_only_for. intros item x'. unfold raises_only, np.insert. raise_cases. }
  intros x'. unfold raises_only, np.reshape. raise_cases.
Qed.

Lemma node_distance_raises (node1 node2 : string) (N : list (list R)) :
  raises_only lookup_or_shape (_node_distance s node1 node2 N).
Proof. unfold raises_only, _node_distance, getkey, getitem, np.sub. raise_cases. Qed.

Lemma connection_length_raises (c : Connection.t) (N : list (list R)) :
  raises_only lookup_or_shape (_connection_length s w c N).
Proof.
  unfold _connection_length. apply raises_only_for. intros i acc.
  apply raises_only_bind; [unfold raises_only, node_name, getitem; raise_cases|]. intros n1.
  apply raises_only_bind; [unfold raises_only, node_name, getitem; raise_cases|]. intros n2.
  apply raises_only_bind; [apply node_distance_raises|]. intros dist. apply raises_only_Ok.
Qed.

(** The quotient by a length is computed only for a length that is not 0. *)
Lemma length_derivative_segment_raises (c : Connection.t) (N : list (list R)) (i : nat)
    (dl : list R) :
  raises_only lookup_or_shape (length_derivative_segment s w c N i dl).
Proof.
  unfold length_derivative_segment.
  apply raises_only_bind; [unfold raises_only, node_name, getitem; raise_cases|]. intros n1.
  apply raises_only_bind; [apply getkey_raises|]. intros i1.
  apply raises_only_bind; [unfold raises_only, node_name, getitem; raise_cases|]. intros n2.
  apply raises_only_bind; [apply getkey_raises|]. intros i2.
  apply raises_only_bind; [apply getitem_raises|]. intros N1.
  apply raises_only_bind; [apply getitem_raises|]. intros N2.
  apply raises_only_bind; [apply node_distance_raises|]. intros dist.
  case_decide as Hdist; [apply raises_only_Ok|].
  assert (Hdiv : forall v, raises_only lookup_or_shape (np.div v dist)).
  { intros v. unfold np.div. rewrite decide_False by done. apply raises_only_Ok. }
  assert (Hsub : forall u v, raises_only lookup_or_shape (np.sub u v)).
  { intros u v. unfold raises_only, np.sub. raise_cases. }
  assert (Hiadd : forall a start len v, raises_only lookup_or_shape (np.slice_iadd a start len v)).
  { intros a start len v. unfold raises_only, np.slice_iadd, np.add. raise_cases. }
  apply raises_only_bind; [apply Hsub|]. intros d12.
  apply raises_only_bind; [apply Hdiv|]. intros u12.
  apply raises_only_bind; [apply Hiadd|]. intros dl'.
  apply raises_only_bind; [apply Hsub|]. intros d21.
  apply raises_only_bind; [apply Hdiv|]. intros u21. apply Hiadd.
Qed.

Lemma energy_derivative_raises (c : Connection.t) (N : list (list R)) :
  raises_only lookup_or_shape (_spring_connection_energy_derivative s w c N).
Proof.
  unfold _spring_connection_energy_derivative.
  apply raises_only_bind; [apply connection_length_raises|]. intros L.
  destruct (match Connection.connection_type c with
            | Connection.STRING => _ | Connection.BAR => _ end); [apply raises_only_Ok|].
  cbn zeta. apply raises_only_bind; [|intros; apply raises_only_Ok].
  unfold _length_derivative. cbn zeta. apply raises_only_for.
  intros i dl. apply length_derivative_segment_raises.
Qed.

Lemma surface_constraints_raises (x : list R) :
  is_Some (Tensegrity.surface (tensegrity s)) ->
  raises_only lookup_or_shape (_surface_constraints s w x).
Proof.
  intros [sf Hsf]. unfold _surface_constraints. rewrite Hsf.
  apply raises_only_bind; [apply get_nodes_from_input_raises|]. intros N.
  case_bool_decide; [|apply raises_only_Ok].
  apply raises_only_bind; [apply getkey_raises|]. intros r.
  apply raises_only_for. intros [node1 node2] cs.
  unfold raises_only, pair_constraints, getkey, getitem. raise_cases.
Qed.

Lemma objective_raises (x : list R) : raises_only lookup_or_shape (_objective s w x).
Proof.
  unfold _objective.
  apply raises_only_bind; [apply get_nodes_from_input_raises|]. intros N. cbn zeta.
  apply raises_only_bind.
  { apply raises_only_for. intros c vw.
    apply raises_only_bind; [apply energy_derivative_raises|]. intros dV.
    apply np_add_raises. }
  intros vw. apply raises_only_bind; [apply np_add_raises|]. intros vw'.
  apply raises_only_bind.
  { unfold pinned_indices. apply raises_only_for. intros pin D. unfold pin_rows.
    apply raises_only_for. intros i D'.
    unfold raises_only, pin_axis, getitem, getkey. raise_cases. }
  intros D. destruct (Tensegrity.surface (tensegrity s)) as [sf|] eqn:Hsf;
    [|apply np_delete_raises].
  apply raises_only_bind.
  { apply raises_only_for. intros pair [vw1 D1]. unfold couple_pair.
    apply raises_only_bind.
    - unfold raises_only, couple_axis, getkey, getitem, np.item_iadd, getitem. raise_cases.
    - intros [vw2 D2].
      unfold raises_only, couple_axis, getkey, getitem, np.item_iadd, getitem. raise_cases. }
  intros [vw1 D1]. apply raises_only_bind; [apply np_delete_raises|]. intros vw2.
  apply raises_only_bind; [|intros; apply raises_only_Ok].
  apply surface_constraints_raises. rewrite Hsf. by eexists.
Qed.

End ObjectiveExceptions.

(** X19. What [_objective] can raise. Whatever the structure and the vector,
    it raises nothing but KeyError, IndexError and ValueError (an unknown
    name, a missing row or flag, a shape mismatch): it never divides by a
    length that is 0, and it asks for the constraints of the surface only
    when there is a surface. *)
Theorem objective_exceptions (s : TensegritySolver.t) (w : World) (x : list R) (e : exn) :
  TensegritySolver._objective s w x = Raise e ->
  e = KeyError \/ e = IndexError \/ e = ValueError.
Proof. apply objective_raises. Qed.

(** The triangle, with no unknowns: the first pinned coordinate has no
    place to go. *)
Lemma objective_exceptions_witness :
  IndexError = KeyError \/ IndexError = IndexError \/ IndexError = ValueError.
Proof.
  apply (objective_exceptions Example.Triangle.solver Example.Triangle.world [] IndexError).
  vm_compute; reflexivity.
Defined.

(** * What reset_control_lengths writes *)

(** X20. [reset_control_lengths], on a structure as its constructor made it
    and in any store, returns and writes nothing but the rest lengths of the
    controls: no node moves, a connection that is not a control is unchanged,
    and a control keeps its nodes, type, stiffness, name and its force, which
    is not recomputed for the restored rest length. A second call changes
    nothing more. *)
Theorem reset_control_lengths_writes nodes connections pins controls surface dim
    (w0 w1 w : World) (t : Tensegrity.t) :
  Tensegrity.__init__ nodes connections pins controls surface dim w0 = (Ok t, w1) ->
  exists w',
    Tensegrity.reset_control_lengths t w = (Ok tt, w') /\
    node_at w' = node_at w /\
    (forall c, c ∉ Tensegrity.controls t -> conn_at w' c = conn_at w c) /\
    (forall c, c ∈ Tensegrity.controls t ->
       conn_at w' c = Connection.set_initial_length (conn_at w c)
                        (Connection.initial_length (conn_at w0 c))) /\
    (forall c, Connection.force (conn_at w' c) = Connection.force (conn_at w c)) /\
    exists w'',
      Tensegrity.reset_control_lengths t w' = (Ok tt, w'') /\
      node_at w'' = node_at w' /\ forall c, conn_at w'' c = conn_at w' c.
Proof.
  intros Hinit. apply Tensegrity_init_inv in Hinit as (_ & _ & _ & Hc & _ & Hs).
  unfold Tensegrity.reset_control_lengths. rewrite Hs, Hc.
  set (start := fun control => Connection.initial_length (conn_at w0 control)).
  destruct (reset_loop start (default [] controls) [] w) as (w' & Hrun & Hn & Hconn).
  destruct (reset_loop start (default [] controls) [] w') as (w'' & Hrun' & Hn' & Hconn').
  exists w'. split_and!; [exact Hrun|done| | | |].
  - intros c Hnin. by rewrite Hconn, bool_decide_eq_false_2.
  - intros c Hin. by rewrite Hconn, bool_decide_eq_true_2.
  - intros c. rewrite Hconn. by case_bool_decide.
  - exists w''. split_and!; [exact Hrun'|done|].
    intros c. rewrite Hconn', Hconn. case_bool_decide; [|done].
    by destruct (conn_at w c).
Qed.

(** The unit square, after its control has been lengthened. *)
Lemma reset_control_lengths_writes_witness :
  let init := Tensegrity.__init__ [0; 1; 2; 3] [0; 1; 2; 3; 4] None (Some [0]) None None
                Example.Square.world in
  let t := Example.Square.tensegrity in
  let w := (Tensegrity.change_control_lengths t [1 / 2]%R init.2).2 in
  exists w',
    Tensegrity.reset_control_lengths t w = (Ok tt, w') /\
    node_at w' = node_at w /\
    (forall c, c ∉ Tensegrity.controls t -> conn_at w' c = conn_at w c) /\
    (forall c, c ∈ Tensegrity.controls t ->
       conn_at w' c = Connection.set_initial_length (conn_at w c)
                        (Connection.initial_length (conn_at Example.Square.world c))) /\
    (forall c, Connection.force (conn_at w' c) = Connection.force (conn_at w c)) /\
    exists w'',
      Tensegrity.reset_control_lengths t w' = (Ok tt, w'') /\
      node_at w'' = node_at w' /\ forall c, conn_at w'' c = conn_at w' c.
Proof.
  intros init t w.
  apply (reset_control_lengths_writes [0; 1; 2; 3] [0; 1; 2; 3; 4] None (Some [0]) None None
           Example.Square.world init.2 w t).
  rewrite (surjective_pairing init) at 1.
  f_equal; vm_compute; reflexivity.
Defined.

(** * Construction, then reset *)

(** X21. [reset_control_lengths] right after the constructor is the identity:
    it returns and leaves every node and every connection as the constructor
    left them. *)
Theorem reset_after_init nodes connections pins controls surface dim
    (w0 w1 : World) (t : Tensegrity.t) :
  Tensegrity.__init__ nodes connections pins controls surface dim w0 = (Ok t, w1) ->
  exists w',
    Tensegrity.reset_control_lengths t w1 = (Ok tt, w') /\
    node_at w' = node_at w1 /\ forall c, conn_at w' c = conn_at w1 c.
Proof.
  intros Hinit.
  assert (Hrest : forall c, Connection.initial_length (conn_at w1 c)
                            = Connection.initial_length (conn_at w0 c)).
  { unfold Tensegrity.__init__ in Hinit.
    apply bindM_Ok_inv in Hinit as (w & s1 & Hget & H). injection Hget as <- <-.
    apply bindM_Ok_inv in H as ([] & s2 & Hupd & H).
    apply bindM_Ok_inv in H as (w & s3 & Hget & H). injection Hget as <- <-.
    injection H as _ <-.
    apply (update_forces_frame _ connections) in Hupd as [_ Hforce].
    intros c. by rewrite Hforce. }
  apply Tensegrity_init_inv in Hinit as (_ & _ & _ & Hc & _ & Hs).
  unfold Tensegrity.reset_control_lengths. rewrite Hs, Hc.
  destruct (reset_loop (fun control => Connection.initial_length (conn_at w0 control))
              (default [] controls) [] w1) as (w' & Hrun & Hn & Hconn).
  exists w'. split_and!; [exact Hrun|done|].
  intros c. rewrite Hconn. case_bool_decide; [|done].
  apply set_initial_length_id. by rewrite Hrest.
Qed.

(** The unit square. *)
Lemma reset_after_init_witness :
  let init := Tensegrity.__init__ [0; 1; 2; 3] [0; 1; 2; 3; 4] None (Some [0]) None None
                Example.Square.world in
  exists w',
    Tensegrity.reset_control_lengths Example.Square.tensegrity init.2 = (Ok tt, w') /\
    node_at w' = node_at init.2 /\ forall c, conn_at w' c = conn_at init.2 c.
Proof.
  intros init.
  apply (reset_after_init [0; 1; 2; 3] [0; 1; 2; 3; 4] None (Some [0]) None None
           Example.Square.world init.2 Example.Square.tensegrity).
  rewrite (surjective_pairing init) at 1.
  f_equal; vm_compute; reflexivity.
Defined.

(** * The external forces in the residual *)

Lemma drop_listed_zip_with {A} (f : A -> A -> A) (u v : list A) (obj : list nat) (k : nat) :
  np.drop_listed k (zip_with f u v) obj
  = zip_with f (np.drop_listed k u obj) (np.drop_listed k v obj).
Proof.
  revert v k. induction u as [|a u IH]; intros [|b v] k; cbn [zip_with np.drop_listed].
  - done.
  - done.
  - case_bool_decide; [|done]. by destruct (np.drop_listed (S k) u obj).
  - rewrite IH. by case_bool_decide.
Qed.

(** X22. The external forces enter the residual by addition. Without a
    surface, the residual of a solver is the residual of the same solver with
    zero forces plus the stored forces at the coordinates that no pin fixes. *)
Theorem objective_forces_additive (s : TensegritySolver.t) (w : World) (x : list R) :
  solver_wf s -> TensegritySolver.dim s <> 0 ->
  Forall (fun row => length row = TensegritySolver.dim s) (coordinate_array s w) ->
  Forall (pin_ok s) (Tensegrity.pins (TensegritySolver.tensegrity s)) ->
  StronglySorted lt (pin_node_indices s) ->
  Tensegrity.surface (TensegritySolver.tensegrity s) = None ->
  length (TensegritySolver.forces s)
  = TensegritySolver.dim s * length (Tensegrity.nodes (TensegritySolver.tensegrity s)) ->
  connections_indexed s w ->
  length x + pinned_axes s
  = TensegritySolver.dim s * length (Tensegrity.nodes (TensegritySolver.tensegrity s)) ->
  let unloaded :=
    TensegritySolver.with_forces s
      (np.zeros (TensegritySolver.dim s
                 * length (Tensegrity.nodes (TensegritySolver.tensegrity s)))) in
  exists res0,
    TensegritySolver._objective unloaded w x = Ok res0 /\
    TensegritySolver._objective s w x
    = Ok (zip_with Rplus res0
            (np.drop_listed 0 (TensegritySolver.forces s) (pinned_places s))).
Proof.
  intros Hwf Hdm Hrows Hpins Hsorted Hsurf Hforces Hconn Hx unloaded.
  destruct (objective_no_surface s w Hwf Hpins Hrows Hdm Hsorted Hsurf Hforces Hconn x Hx)
    as (N & vw & HN & _ & _ & Hvw & Hlenvw & Hobj).
  destruct (objective_no_surface unloaded w Hwf Hpins Hrows Hdm Hsorted Hsurf
              (length_zeros _) Hconn x Hx)
    as (N' & vw' & HN' & _ & _ & Hvw' & _ & Hobj').
  change (TensegritySolver._get_nodes_from_input unloaded w x)
    with (TensegritySolver._get_nodes_from_input s w x) in HN'.
  rewrite HN in HN'. injection HN' as <-.
  change (for_ (Tensegrity.connections (TensegritySolver.tensegrity s))
            (fun connection virtual_work =>
               dV ← TensegritySolver._spring_connection_energy_derivative s w
                      (conn_at w connection) N;
               np.add virtual_work dV)
            (np.zeros (TensegritySolver.dim s
                       * length (Tensegrity.nodes (TensegritySolver.tensegrity s))))
          = Ok vw') in Hvw'.
  rewrite Hvw in Hvw'. injection Hvw' as <-.
  eexists. split; [exact Hobj'|]. rewrite Hobj. f_equal.
  cbn [TensegritySolver.forces unloaded TensegritySolver.with_forces].
  rewrite vadd_zeros_r by done.
  change (pinned_places unloaded) with (pinned_places s).
  apply drop_listed_zip_with.
Qed.

(** The truss, loaded at C, its three unknowns set to 7, 8 and 9. *)
Lemma objective_forces_additive_witness :
  let s := TensegritySolver.with_forces Example.Truss.solver [0; 0; 0; 0; 3; -4]%R in
  let unloaded := TensegritySolver.with_forces s (np.zeros (2 * 3)) in
  exists res0,
    TensegritySolver._objective unloaded Example.Truss.world [7; 8; 9]%R = Ok res0 /\
    TensegritySolver._objective s Example.Truss.world [7; 8; 9]%R
    = Ok (zip_with Rplus res0
            (np.drop_listed 0 (TensegritySolver.forces s) (pinned_places s))).
Proof.
  intros s.
  apply (objective_forces_additive s Example.Truss.world [7; 8; 9]%R).
  - apply (init_solver_wf Example.Truss.world Example.Truss.tensegrity).
  - discriminate.
  - repeat constructor.
  - repeat constructor; by eexists.
  - repeat constructor.
  - reflexivity.
  - reflexivity.
  - apply Truss_connections_indexed.
  - reflexivity.
Defined.

(** * The energy and its derivative *)

Lemma half_bound (k h eps : R) :
  (0 < eps)%R -> (Rabs h < eps / (Rabs k + 1))%R -> (Rabs (1 / 2 * k * h) < eps)%R.
Proof.
  intros Heps Hh. pose proof (Rabs_pos k) as Hk. pose proof (Rabs_pos h) as Hh0.
  rewrite !Rabs_mult. rewrite (Rabs_pos_eq (1 / 2)) by lra.
  assert (Hprod : (Rabs h * (Rabs k + 1) < eps)%R).
  { pose proof (Rmult_lt_compat_r (Rabs k + 1) _ _ ltac:(lra) Hh) as H.
    replace (eps / (Rabs k + 1) * (Rabs k + 1))%R with eps in H by (field; lra).
    exact H. }
  nra.
Qed.

Lemma energy_at_derivable (c : Connection.t) (L : R) :
  derivable_pt_lim (energy_at c) L (energy_slope c L).
Proof.
  set (k := Connection.stiffness c). set (L0 := Connection.initial_length c).
  intros eps Heps.
  assert (HD1 : (0 < eps / (Rabs k + 1))%R).
  { pose proof (Rabs_pos k). apply Rdiv_lt_0_compat; lra. }
  set (D2 := if decide (L = L0) then 1%R else Rabs (L - L0)).
  assert (HD2 : (0 < D2)%R).
  { unfold D2. case_decide; [lra|]. apply Rabs_pos_lt. lra. }
  assert (Hmin : (0 < Rmin (eps / (Rabs k + 1)) D2)%R) by (by apply Rmin_pos).
  exists (mkposreal _ Hmin). cbn [pos]. intros h Hh0 Hh.
  assert (Hh1 : (Rabs h < eps / (Rabs k + 1))%R).
  { eapply Rlt_le_trans; [exact Hh|apply Rmin_l]. }
  assert (Hh2 : (Rabs h < D2)%R).
  { eapply Rlt_le_trans; [exact Hh|apply Rmin_r]. }
  pose proof (half_bound k h eps Heps Hh1) as Hhalf.
  assert (Hzero : (Rabs 0 < eps)%R) by (rewrite Rabs_R0; lra).
  assert (Hquad : forall l, ((1 / 2 * k * (l + h - L0) ^ 2 - 1 / 2 * k * (l - L0) ^ 2) / h
                             - k * (l - L0) = 1 / 2 * k * h)%R).
  { intros l. field. done. }
  assert (Hhalf' : (0.5 = 1 / 2)%R) by lra.
  unfold energy_at, energy_slope, slack. fold k L0. rewrite !Hhalf'.
  destruct (Connection.connection_type c).
  - destruct (Rtotal_order L L0) as [Hlt|[Heq|Hgt]].
    + (* a slack string stays slack *)
      unfold D2 in Hh2. rewrite decide_False in Hh2 by lra.
      rewrite (Rabs_left (L - L0)) in Hh2 by lra.
      assert (L + h < L0)%R.
      { unfold Rabs in Hh2. destruct (Rcase_abs h); lra. }
      rewrite !bool_decide_eq_true_2 by done.
      replace ((0 - 0) / h - 0)%R with 0%R by (field; done). done.
    + (* at the rest length *)
      subst L. rewrite (bool_decide_eq_false_2 (L0 < L0)%R) by lra.
      case_bool_decide.
      * replace ((0 - 1 / 2 * k * (L0 - L0) ^ 2) / h - k * (L0 - L0))%R with 0%R
          by (field; done). done.
      * by rewrite Hquad.
    + (* a taut string stays taut *)
      unfold D2 in Hh2. rewrite decide_False in Hh2 by lra.
      rewrite (Rabs_right (L - L0)) in Hh2 by lra.
      assert (~ (L + h < L0)%R).
      { unfold Rabs in Hh2. destruct (Rcase_abs h); lra. }
      rewrite !bool_decide_eq_false_2 by (done || lra). by rewrite Hquad.
  - by rewrite Hquad.
Qed.

Section EnergyDerivative.
Import TensegritySolver.
Variable s : t.
Variable w : World.

Lemma slice_iadd_length (dl r : list R) (start len : nat) (v : list R) :
  np.slice_iadd dl start len v = Ok r -> length r = length dl.
Proof.
  unfold np.slice_iadd. intros H. apply bind_Ok_inv in H as (new & Hadd & [= <-]).
  apply np_add_length in Hadd. rewrite !length_app, Hadd, !length_take, !length_drop. lia.
Qed.

Lemma length_derivative_segment_length (c : Connection.t) (N : list (list R)) (i : nat)
    (dl r : list R) :
  length_derivative_segment s w c N i dl = Ok r -> length r = length dl.
Proof.
  unfold length_derivative_segment. intros H.
  apply bind_Ok_inv in H as (n1 & _ & H). apply bind_Ok_inv in H as (i1 & _ & H).
  apply bind_Ok_inv in H as (n2 & _ & H). apply bind_Ok_inv in H as (i2 & _ & H).
  apply bind_Ok_inv in H as (N1 & _ & H). apply bind_Ok_inv in H as (N2 & _ & H).
  apply bind_Ok_inv in H as (dist & _ & H).
  case_decide; [by injection H as <-|].
  apply bind_Ok_inv in H as (d12 & _ & H). apply bind_Ok_inv in H as (u12 & _ & H).
  apply bind_Ok_inv in H as (dl' & Hdl' & H).
  apply bind_Ok_inv in H as (d21 & _ & H). apply bind_Ok_inv in H as (u21 & _ & H).
  apply slice_iadd_length in H, Hdl'. congruence.
Qed.

Lemma length_derivative_length (c : Connection.t) (N : list (list R)) (dl : list R) :
  _length_derivative s w c N = Ok dl ->
  length dl = dim s * length (Tensegrity.nodes (tensegrity s)).
Proof.
  unfold _length_derivative. cbn zeta.
  generalize (seq 0 (length (Connection.nodes c) - 1)).
  assert (H : forall l acc, for_ l (length_derivative_segment s w c N) acc = Ok dl ->
                            length dl = length acc).
  { induction l as [|i l IH]; intros acc Hrun; [by injection Hrun as <-|].
    cbn [for_] in Hrun. apply bind_Ok_inv in Hrun as (acc' & Hseg & Hrun).
    apply IH in Hrun. apply length_derivative_segment_length in Hseg. congruence. }
  intros l Hrun. apply H in Hrun. by rewrite length_zeros in Hrun.
Qed.

End EnergyDerivative.

(** X23. The energy and the vector called its derivative. For a connection
    whose length the solver finds to be [L], [_spring_connection_energy]
    returns the energy [energy_at] of that length: 0 for a slack string, else
    k (L - L0)^2 / 2. This function of the length is differentiable at every
    length, also where a string goes slack, and
    [_spring_connection_energy_derivative] returns MINUS its derivative times
    the vector of [_length_derivative]: the entries are the virtual work of
    the connection, not the gradient of the energy. *)
Theorem energy_derivative_sign (s : TensegritySolver.t) (w : World) (c : Connection.t)
    (N : list (list R)) (L : R) (dl : list R) :
  TensegritySolver._connection_length s w c N = Ok L ->
  TensegritySolver._length_derivative s w c N = Ok dl ->
  TensegritySolver._spring_connection_energy s w c N = Ok (energy_at c L) /\
  derivable_pt_lim (energy_at c) L (energy_slope c L) /\
  TensegritySolver._spring_connection_energy_derivative s w c N
  = Ok (np.scale (- energy_slope c L) dl).
Proof.
  intros HL Hdl. split_and!.
  - unfold TensegritySolver._spring_connection_energy, energy_at, slack.
    rewrite HL, bind_Ok. by destruct (match Connection.connection_type c with
                                      | Connection.STRING => _ | Connection.BAR => _ end).
  - apply energy_at_derivable.
  - unfold TensegritySolver._spring_connection_energy_derivative, energy_slope, slack.
    rewrite HL, bind_Ok.
    destruct (match Connection.connection_type c with
              | Connection.STRING => _ | Connection.BAR => _ end).
    + f_equal. apply length_derivative_length in Hdl. rewrite <- Hdl.
      unfold np.zeros, np.scale. clear. induction dl as [|a dl IH]; [done|].
      cbn. rewrite <- IH. f_equal. lra.
    + cbn zeta. rewrite Hdl, bind_Ok. do 2 f_equal. lra.
Qed.

Lemma Square_length_derivative_A_B_C :
  exists dl,
    TensegritySolver._length_derivative Example.Square.solver Example.Square.world
      (Example.Square.connections 0) Example.Square.N = Ok dl.
Proof.
  destruct (resolves_exists Example.Square.solver Example.Square.world
              (init_solver_wf _ _) Example.Square.N eq_refl
              ltac:(repeat constructor) [0; 1; 2]) as [es Hres].
  { repeat constructor; by eexists. }
  eexists. unfold TensegritySolver._length_derivative. cbn zeta.
  apply (length_derivative_loop Example.Square.solver Example.Square.world
           (Example.Square.connections 0) Example.Square.N [0; 1; 2] es []
           _ (init_solver_wf _ _) eq_refl Hres (length_zeros _)).
Qed.

(** The chain A-B-C of the unit square, of length 2. *)
Lemma energy_derivative_sign_witness :
  let s := Example.Square.solver in
  let w := Example.Square.world in
  let c := Example.Square.connections 0 in
  let N := Example.Square.N in
  exists dl,
    TensegritySolver._spring_connection_energy s w c N = Ok (energy_at c 2) /\
    derivable_pt_lim (energy_at c) 2 (energy_slope c 2) /\
    TensegritySolver._spring_connection_energy_derivative s w c N
    = Ok (np.scale (- energy_slope c 2) dl).
Proof.
  intros s w c N. destruct Square_length_derivative_A_B_C as [dl Hdl]. exists dl.
  apply (energy_derivative_sign s w c N 2%R dl).
  - apply Square_chain_length_A_B_C.
  - exact Hdl.
Defined.
